(** * Turn scheduler and combat pipeline of the dungeon crawler

    A shallow embedding of the JavaScript sources: the binary min-heap of
    [priorityQueue.js], the [Scheduler], [Entity] and [World] classes, the
    [SkillsSystem], [EquipmentSystem] and [CombatSystem] classes and the
    notice state machine of [MovementSystem.processMonsterMovement].

    Conventions of the embedding.
    - JavaScript numbers are modelled by exact numbers: array indices by
      [nat], wall-clock milliseconds, levels and character stats by [Z],
      scheduler timestamps, damage, health and random draws by [Q].  [NaN]
      and the infinities have no counterpart.
    - Objects live in a store (a list of entities indexed by reference);
      the world registry, the scheduler heap and the call arguments hold
      references, so that a mutation is seen through every alias.
    - Every call site of [Math.random()] and [Date.now()] is an explicit
      input of the function that contains it.
    - Logging, audio and rendering callbacks have no effect on the state
      and are left out. *)

From Stdlib Require Import QArith Qminmax Qround Sorted.
From stdpp Require Import gmap strings list fin_maps.

Local Open Scope Z_scope.

(** ** Numbers *)

(** [a < b] on numbers. *)
Definition Qltb (a b : Q) : bool := negb (Qle_bool b a).

(** [a <= b] on numbers. *)
Definition Qleb (a b : Q) : bool := Qle_bool a b.

(** ** priorityQueue.js *)

Module PriorityQueue.

Section Queue.
Context {A : Type}.

(** [const node = { item, priority }] *)
Record node := Node { item : A; priority : Q }.

(** [[heap[i], heap[j]] = [heap[j], heap[i]]] *)
Definition swap (heap : list node) (i j : nat) : list node :=
  match heap !! i, heap !! j with
  | Some a, Some b => <[j := a]> (<[i := b]> heap)
  | _, _ => heap
  end.

(** [this.heap[i].priority < this.heap[j].priority]; both indices are in
    range wherever the source evaluates the comparison. *)
Definition priorityLess (heap : list node) (i j : nat) : bool :=
  match heap !! i, heap !! j with
  | Some a, Some b => Qltb (priority a) (priority b)
  | _, _ => false
  end.

(** [_bubbleUp(index)]: the recursion goes to the parent index, which is
    smaller, so [index] steps of fuel are enough. *)
Fixpoint bubbleUp_fuel (fuel : nat) (heap : list node) (index : nat) : list node :=
  match fuel with
  | O => heap
  | S fuel' =>
      if (index =? 0)%nat then heap
      else
        let parentIndex := ((index - 1) / 2)%nat in
        if priorityLess heap index parentIndex
        then bubbleUp_fuel fuel' (swap heap index parentIndex) parentIndex
        else heap
  end.

Definition _bubbleUp (heap : list node) (index : nat) : list node :=
  bubbleUp_fuel index heap index.

(** The index [_bubbleDown] selects among [index] and its two children. *)
Definition smallestOf (heap : list node) (index : nat) : nat :=
  let leftChild := (2 * index + 1)%nat in
  let rightChild := (2 * index + 2)%nat in
  let smallest := index in
  let smallest :=
    if (leftChild <? length heap)%nat && priorityLess heap leftChild smallest
    then leftChild else smallest in
  let smallest :=
    if (rightChild <? length heap)%nat && priorityLess heap rightChild smallest
    then rightChild else smallest in
  smallest.

(** [_bubbleDown(index)]: the recursion goes to a child index, which is
    larger and stays below the length. *)
Fixpoint bubbleDown_fuel (fuel : nat) (heap : list node) (index : nat) : list node :=
  match fuel with
  | O => heap
  | S fuel' =>
      let smallest := smallestOf heap index in
      if (smallest =? index)%nat then heap
      else bubbleDown_fuel fuel' (swap heap index smallest) smallest
  end.

Definition _bubbleDown (heap : list node) (index : nat) : list node :=
  bubbleDown_fuel (length heap - index) heap index.

(** [push(item, priority)] *)
Definition push (heap : list node) (it : A) (p : Q) : list node :=
  let heap' := heap ++ [Node it p] in
  _bubbleUp heap' (length heap' - 1).

(** [pop()], returning the whole node that is taken out. *)
Definition popNode (heap : list node) : option node * list node :=
  match heap with
  | [] => (None, [])
  | [n] => (Some n, [])
  | min :: rest =>
      match last rest with
      | Some l => (Some min, _bubbleDown (l :: removelast rest) 0)
      | None => (Some min, [])
      end
  end.

(** [pop()]: the source returns the [item] field of the node. *)
Definition pop (heap : list node) : option A * list node :=
  let '(n, heap') := popNode heap in (item <$> n, heap').

(** [peek()] *)
Definition peek (heap : list node) : option A :=
  if (0 <? length heap)%nat then item <$> heap !! 0%nat else None.

(** [isEmpty()] *)
Definition isEmpty (heap : list node) : bool := (length heap =? 0)%nat.

(** [size()] *)
Definition size (heap : list node) : nat := length heap.

End Queue.

Arguments node : clear implicits.

End PriorityQueue.

Import PriorityQueue.

(** ** Entities and their components *)

(** References into the object store. *)
Abbreviation ref := nat.

(** An equipped item: [type], [damage], [speed] and [defense].  A missing
    numeric field reads as [0], which the source treats like [undefined]
    in [x || default] and in truth tests. *)
Record Item := mkItem {
  item_type : string;
  item_damage : Q;
  item_speed : Q;
  item_defense : Q
}.

(** The [health] component. *)
Record Health := mkHealth { health_current : Q; health_max : Q }.

(** The [stats] component. *)
Record Stats := mkStats {
  strength : Z;
  dexterity : Z;
  intelligence : Z;
  constitution : Z;
  agility : Z
}.

(** The [equipment] component: the slots that combat reads. *)
Record Equipment := mkEquipment {
  primary : option Item;
  weapon : option Item;
  secondary : option Item;
  armor : option Item;
  helm : option Item;
  shoulder : option Item;
  chest : option Item;
  arms : option Item;
  legs : option Item;
  wrist1 : option Item;
  wrist2 : option Item;
  hands : option Item;
  feet : option Item
}.

(** One entry of the [skills] component. *)
Record Skill := mkSkill {
  skill_level : Z;
  skill_experience : Z;
  skill_maxExperience : Z
}.

(** The [level] component. *)
Record Level := mkLevel { level_value : Z; level_experience : Z }.

(** The [loot] component: an optional gold range [(min, max)] and item
    names. *)
Record Loot := mkLoot { loot_gold : option (Z * Z); loot_items : list string }.

(** The [corpse] component. *)
Record Corpse := mkCorpse { corpse_monsterType : string; corpse_looted : bool }.

(** The [notice] component. *)
Record Notice := mkNotice {
  hasNoticed : bool;
  noticeTimer : Z;
  noticeDelay : Z;
  alertRange : Q
}.

(** The [hitEffect] component. *)
Record HitEffect := mkHitEffect { hit_duration : Z; hit_remaining : Z }.

(** The [appearance] component. *)
Record Appearance := mkAppearance { app_char : string; app_color : string }.

(** [entity.components], a map from component name to component, as a
    record with one optional field per name the modelled code uses. *)
Record Components := mkComponents {
  health : option Health;
  stats : option Stats;
  equipment : option Equipment;
  skills : option (gmap string Skill);
  level : option Level;
  loot : option Loot;
  corpse : option Corpse;
  gold : option Z;
  lastAttack : option Z;
  notice : option Notice;
  visibility : option bool;
  ai : option Q;
  speed : option Q;
  hitEffect : option HitEffect;
  appearance : option Appearance
}.

Definition noComponents : Components :=
  mkComponents None None None None None None None None None None None None None None None.

(** [class Entity]; [e_monsterType] is the extra field of [class Monster]. *)
Record Entity := mkEntity {
  e_id : string;
  e_type : string;
  e_x : Z;
  e_y : Z;
  e_nextAction : Q;
  e_active : bool;
  e_monsterType : option string;
  components : Components
}.

(** [new Entity(id, type, x, y)] *)
Definition newEntity (id type : string) (x y : Z) : Entity :=
  mkEntity id type x y 0 true None noComponents.

(** Field updates. *)
Definition set_active (b : bool) (e : Entity) : Entity :=
  mkEntity (e_id e) (e_type e) (e_x e) (e_y e) (e_nextAction e) b
           (e_monsterType e) (components e).

Definition setNextActionTime (time : Q) (e : Entity) : Entity :=
  mkEntity (e_id e) (e_type e) (e_x e) (e_y e) time (e_active e)
           (e_monsterType e) (components e).

Definition set_components (c : Components) (e : Entity) : Entity :=
  mkEntity (e_id e) (e_type e) (e_x e) (e_y e) (e_nextAction e) (e_active e)
           (e_monsterType e) c.

(** [deactivate()] and [activate()] *)
Definition deactivate (e : Entity) : Entity := set_active false e.
Definition activate (e : Entity) : Entity := set_active true e.

(** [getNextActionTime()] *)
Definition getNextActionTime (e : Entity) : Q := e_nextAction e.

(** [addComponent(name, component)] for the names that are written. *)
Definition set_health (v : option Health) (c : Components) : Components :=
  mkComponents v (stats c) (equipment c) (skills c) (level c) (loot c) (corpse c)
    (gold c) (lastAttack c) (notice c) (visibility c) (ai c) (speed c)
    (hitEffect c) (appearance c).

Definition set_stats (v : option Stats) (c : Components) : Components :=
  mkComponents (health c) v (equipment c) (skills c) (level c) (loot c) (corpse c)
    (gold c) (lastAttack c) (notice c) (visibility c) (ai c) (speed c)
    (hitEffect c) (appearance c).

Definition set_skills (v : option (gmap string Skill)) (c : Components) : Components :=
  mkComponents (health c) (stats c) (equipment c) v (level c) (loot c) (corpse c)
    (gold c) (lastAttack c) (notice c) (visibility c) (ai c) (speed c)
    (hitEffect c) (appearance c).

Definition set_level (v : option Level) (c : Components) : Components :=
  mkComponents (health c) (stats c) (equipment c) (skills c) v (loot c) (corpse c)
    (gold c) (lastAttack c) (notice c) (visibility c) (ai c) (speed c)
    (hitEffect c) (appearance c).

Definition set_loot (v : option Loot) (c : Components) : Components :=
  mkComponents (health c) (stats c) (equipment c) (skills c) (level c) v (corpse c)
    (gold c) (lastAttack c) (notice c) (visibility c) (ai c) (speed c)
    (hitEffect c) (appearance c).

Definition set_corpse (v : option Corpse) (c : Components) : Components :=
  mkComponents (health c) (stats c) (equipment c) (skills c) (level c) (loot c) v
    (gold c) (lastAttack c) (notice c) (visibility c) (ai c) (speed c)
    (hitEffect c) (appearance c).

Definition set_gold (v : option Z) (c : Components) : Components :=
  mkComponents (health c) (stats c) (equipment c) (skills c) (level c) (loot c)
    (corpse c) v (lastAttack c) (notice c) (visibility c) (ai c) (speed c)
    (hitEffect c) (appearance c).

Definition set_lastAttack (v : option Z) (c : Components) : Components :=
  mkComponents (health c) (stats c) (equipment c) (skills c) (level c) (loot c)
    (corpse c) (gold c) v (notice c) (visibility c) (ai c) (speed c)
    (hitEffect c) (appearance c).

Definition set_notice (v : option Notice) (c : Components) : Components :=
  mkComponents (health c) (stats c) (equipment c) (skills c) (level c) (loot c)
    (corpse c) (gold c) (lastAttack c) v (visibility c) (ai c) (speed c)
    (hitEffect c) (appearance c).

Definition set_hitEffect (v : option HitEffect) (c : Components) : Components :=
  mkComponents (health c) (stats c) (equipment c) (skills c) (level c) (loot c)
    (corpse c) (gold c) (lastAttack c) (notice c) (visibility c) (ai c) (speed c)
    v (appearance c).

Definition set_appearance (v : option Appearance) (c : Components) : Components :=
  mkComponents (health c) (stats c) (equipment c) (skills c) (level c) (loot c)
    (corpse c) (gold c) (lastAttack c) (notice c) (visibility c) (ai c) (speed c)
    (hitEffect c) v.

(** Update of the components of an entity. *)
Definition update (f : Components → Components) (e : Entity) : Entity :=
  set_components (f (components e)) e.

(** [getActionDelay()]; a [speed.value] of [0] would give [Infinity] in
    the source and is outside the model. *)
Definition getActionDelay (e : Entity) : Q :=
  match speed (components e) with
  | None => 1000
  | Some value => Qmax 100 (1000 / value)
  end.

(** ** The object store *)

(** The store maps a reference to the current state of its object. *)
Abbreviation Store := (list Entity).

(** A new object gets the next reference. *)
Definition alloc (e : Entity) (σ : Store) : ref * Store := (length σ, σ ++ [e]).

(** In-place mutation of the object behind a reference. *)
Definition mutate (f : Entity → Entity) (r : ref) (σ : Store) : Store :=
  alter f r σ.

(** ** class Scheduler *)

Record Scheduler := mkScheduler {
  queue : list (node ref);
  currentTime : Q
}.

(** [new Scheduler()] *)
Definition newScheduler : Scheduler := mkScheduler [] 0.

(** [schedule(entity, delay = null)] *)
Definition schedule (σ : Store) (s : Scheduler) (entity : ref) (delay : option Q)
  : Store * Scheduler :=
  match σ !! entity with
  | None => (σ, s)
  | Some e =>
      if negb (e_active e) then (σ, s)
      else
        let actionDelay :=
          match delay with Some d => d | None => getActionDelay e end in
        let nextActionTime := (currentTime s + actionDelay)%Q in
        (mutate (setNextActionTime nextActionTime) entity σ,
         mkScheduler (push (queue s) entity nextActionTime) (currentTime s))
  end.

(** [getNextEntity()]: every recursive call follows a [pop()], so the
    length of the queue bounds the recursion. *)
Fixpoint getNextEntity_fuel (fuel : nat) (σ : Store) (s : Scheduler)
  : option ref * Scheduler :=
  match fuel with
  | O => (None, s)
  | S fuel' =>
      if isEmpty (queue s) then (None, s)
      else
        let '(entity, queue') := pop (queue s) in
        let s' := mkScheduler queue' (currentTime s) in
        match entity with
        | None => getNextEntity_fuel fuel' σ s'
        | Some r =>
            match σ !! r with
            | None => getNextEntity_fuel fuel' σ s'
            | Some e =>
                if negb (e_active e) then getNextEntity_fuel fuel' σ s'
                else (Some r, mkScheduler queue' (getNextActionTime e))
            end
        end
  end.

Definition getNextEntity (σ : Store) (s : Scheduler) : option ref * Scheduler :=
  getNextEntity_fuel (S (length (queue s))) σ s.

(** ** class World *)

(** The registry [entities] maps an id to the registered object, [player]
    is the player object if any, and [tiles] holds the [passable] flag of
    [map[y][x]]. *)
Record World := mkWorld {
  width : Z;
  height : Z;
  entities : gmap string ref;
  tiles : list (list bool);
  player : option ref
}.

Definition set_entities (m : gmap string ref) (w : World) : World :=
  mkWorld (width w) (height w) m (tiles w) (player w).

Definition set_player (p : option ref) (w : World) : World :=
  mkWorld (width w) (height w) (entities w) (tiles w) p.

(** [addEntity(entity)] *)
Definition addEntity (σ : Store) (w : World) (entity : ref) : World :=
  match σ !! entity with
  | None => w
  | Some e =>
      let w' := set_entities (<[e_id e := entity]> (entities w)) w in
      if String.eqb (e_type e) "player" then set_player (Some entity) w' else w'
  end.

(** [removeEntity(entityId)] *)
Definition removeEntity (σ : Store) (w : World) (entityId : string)
  : bool * Store * World :=
  match entities w !! entityId with
  | Some entity =>
      let σ' := mutate deactivate entity σ in
      let w' := set_entities (delete entityId (entities w)) w in
      let w'' := if decide (player w = Some entity) then set_player None w' else w' in
      (true, σ', w'')
  | None => (false, σ, w)
  end.

(** [isPassable(x, y)] *)
Definition isPassable (w : World) (x y : Z) : bool :=
  if (x <? 0) || (width w <=? x) || (y <? 0) || (height w <=? y) then false
  else
    match tiles w !! Z.to_nat y with
    | Some row => match row !! Z.to_nat x with Some p => p | None => false end
    | None => false
    end.

(** ** JavaScript idioms *)

(** [v || d] on numbers: [0] is falsy. *)
Definition orElse (v d : Q) : Q := if Qeq_bool v 0 then d else v.

(** [Math.max(lo, Math.min(hi, v))] *)
Definition clamp (lo hi v : Q) : Q := Qmax lo (Qmin hi v).

(** Which global services are installed: [window.game.skillsSystem] and
    the [characterProgress] module injected into the combat system. *)
Record Game := mkGame {
  skillsSystem : bool;
  characterProgress : bool
}.

(** ** class SkillsSystem *)

(** [this.weaponSkillMapping[weaponType] || '1h_slash'] *)
Definition weaponSkillMapping (weaponType : string) : string :=
  if String.eqb weaponType "sword" then "1h_slash"
  else if String.eqb weaponType "longsword" then "2h_slash"
  else if String.eqb weaponType "mace" then "1h_blunt"
  else if String.eqb weaponType "warhammer" then "2h_blunt"
  else if String.eqb weaponType "dagger" then "1h_pierce"
  else if String.eqb weaponType "spear" then "2h_pierce"
  else if String.eqb weaponType "unarmed" then "hand_to_hand"
  else "1h_slash".

(** [initializeEntity(entity)] *)
Definition initialSkills : gmap string Skill :=
  list_to_map
    ((λ name, (name, mkSkill 0 0 20)) <$>
       ["1h_slash"; "2h_slash"; "1h_blunt"; "2h_blunt"; "1h_pierce";
        "2h_pierce"; "hand_to_hand"; "dodge"; "block"; "offense"; "defense"]).

Definition initializeEntity (e : Entity) : Entity :=
  update (set_skills (Some initialSkills)) e.

(** [playerLevel ? playerLevel.value * 5 : 5] *)
Definition maxSkillLevel (e : Entity) : Z :=
  match level (components e) with
  | Some playerLevel => level_value playerLevel * 5
  | None => 5
  end.

(** The loop condition of [gainSkillExperience]. *)
Definition levelUpDue (maxLevel : Z) (skill : Skill) : bool :=
  (skill_maxExperience skill <=? skill_experience skill)
  && (skill_level skill <? maxLevel).

(** One iteration of the loop body. *)
Definition levelUpOnce (skill : Skill) : Skill :=
  mkSkill (skill_level skill + 1)
          (skill_experience skill - skill_maxExperience skill)
          (Qfloor (inject_Z (skill_maxExperience skill) * 1.1)).

(** The [while] loop of [gainSkillExperience]; each iteration raises the
    level, which stays below the cap, so the distance to the cap bounds
    the number of iterations. *)
Fixpoint levelUpLoop (fuel : nat) (maxLevel : Z) (skill : Skill) (leveledUp : bool)
  : Skill * bool :=
  match fuel with
  | O => (skill, leveledUp)
  | S fuel' =>
      if levelUpDue maxLevel skill
      then levelUpLoop fuel' maxLevel (levelUpOnce skill) true
      else (skill, leveledUp)
  end.

(** [gainSkillExperience(entity, skillName, experience)] *)
Definition gainSkillExperience (σ : Store) (entity : ref) (skillName : string)
    (experience : Z) : bool * Store :=
  match σ !! entity with
  | None => (false, σ)
  | Some e =>
      match skills (components e) with
      | None => (false, σ)
      | Some sks =>
          match sks !! skillName with
          | None => (false, σ)
          | Some skill =>
              let maxLevel := maxSkillLevel e in
              if maxLevel <=? skill_level skill then (false, σ)
              else
                let skill1 :=
                  mkSkill (skill_level skill) (skill_experience skill + experience)
                          (skill_maxExperience skill) in
                let '(skill2, leveledUp) :=
                  levelUpLoop (Z.to_nat (maxLevel - skill_level skill1))
                              maxLevel skill1 false in
                (leveledUp,
                 mutate (update (set_skills (Some (<[skillName := skill2]> sks))))
                        entity σ)
          end
      end
  end.

(** The result of [getSkillBonuses]. *)
Record SkillBonuses := mkBonuses {
  b_damage : Q;
  b_hitChance : Q;
  b_dodgeChance : Q;
  b_blockChance : Q;
  b_defense : Q
}.

(** [skills[name] ? skills[name].level : 0] *)
Definition levelOf (sks : gmap string Skill) (name : string) : Q :=
  match sks !! name with
  | Some skill => inject_Z (skill_level skill)
  | None => 0
  end.

(** [equipment && equipment.secondary && equipment.secondary.type === 'shield'] *)
Definition hasShield (e : Entity) : bool :=
  match equipment (components e) with
  | Some eq =>
      match secondary eq with
      | Some it => String.eqb (item_type it) "shield"
      | None => false
      end
  | None => false
  end.

(** [getSkillBonuses(entity, weapon)] *)
Definition getSkillBonuses (e : Entity) (weapon : option Item) : SkillBonuses :=
  match skills (components e) with
  | None => mkBonuses 0 0 0 0 0
  | Some sks =>
      let '(damage, hitChance) :=
        match weapon with
        | Some w =>
            let skillLevel := levelOf sks (weaponSkillMapping (item_type w)) in
            (0 + skillLevel * 0.5, 0 + skillLevel * 2)
        | None => (0, 0)
        end in
      let dodgeChance := levelOf sks "dodge" * 1.5 in
      let '(blockChance, defense) :=
        if hasShield e
        then (levelOf sks "block" * 2, 0 + levelOf sks "block" * 0.3)
        else (0, 0) in
      let damage := damage + levelOf sks "offense" * 0.3 in
      let hitChance := hitChance + levelOf sks "offense" * 1 in
      let defense := defense + levelOf sks "defense" * 0.5 in
      mkBonuses damage hitChance dodgeChance blockChance defense
  end%Q.

(** ** class EquipmentSystem *)

(** The result of [EquipmentSystem.calculateDamage]. *)
Record DamageResult := mkDamageResult {
  dr_damage : Q;
  dr_hitChance : Q;
  dr_swingSpeed : Q
}.

(** [a || b] on slots. *)
Definition orSlot (a b : option Item) : option Item :=
  match a with Some _ => a | None => b end.

(** [EquipmentSystem.calculateDamage(entity)] *)
Definition equipmentDamage (g : Game) (e : Entity) : DamageResult :=
  match stats (components e) with
  | None => mkDamageResult 1 50 1
  | Some st =>
      let baseDamage := 1 in
      let hitChance := 50 in
      let swingSpeed := 1 in
      let strengthBonus := inject_Z (Qfloor (inject_Z (strength st - 10) * 0.5)) in
      let baseDamage := baseDamage + strengthBonus in
      let dexterityBonus := inject_Z (Qfloor (inject_Z (dexterity st - 10) * 0.3)) in
      let hitChance := hitChance + dexterityBonus in
      let swingSpeed := swingSpeed + inject_Z (dexterity st - 10) * 0.02 in
      let weapon :=
        match equipment (components e) with
        | Some eq => orSlot (primary eq) (weapon eq)
        | None => None
        end in
      let '(baseDamage, hitChance, swingSpeed) :=
        match weapon with
        | Some w =>
            let baseDamage := baseDamage + orElse (item_damage w) 0 in
            let swingSpeed := swingSpeed * orElse (item_speed w) 1 in
            let hitChance :=
              hitChance + inject_Z (Qfloor (orElse (item_damage w) 0 * 0.5)) in
            if skillsSystem g
            then
              let skillBonuses := getSkillBonuses e (Some w) in
              (baseDamage + b_damage skillBonuses,
               hitChance + b_hitChance skillBonuses, swingSpeed)
            else (baseDamage, hitChance, swingSpeed)
        | None => (baseDamage, hitChance, swingSpeed)
        end in
      let hitChance := clamp 10 95 hitChance in
      mkDamageResult (Qmax 1 baseDamage) hitChance (clamp 0.3 2 swingSpeed)
  end%Q.

(** The defense of one armor slot: [equipment[slot].defense] if truthy. *)
Definition slotDefense (slot : option Item) : Q :=
  match slot with
  | Some it => item_defense it
  | None => 0
  end.

(** [EquipmentSystem.calculateDefense(entity)] *)
Definition calculateDefense (g : Game) (e : Entity) : Q :=
  (let defense := 0 in
   let defense :=
     match stats (components e) with
     | Some st => defense + inject_Z (Qfloor (inject_Z (constitution st - 10) * 0.2))
     | None => defense
     end in
   let defense :=
     match equipment (components e) with
     | Some eq =>
         let defense := defense + slotDefense (armor eq) in
         foldl (λ acc slot, acc + slotDefense slot) defense
               [helm eq; shoulder eq; chest eq; arms eq; legs eq;
                wrist1 eq; wrist2 eq; hands eq; feet eq]
     | None => defense
     end in
   let defense :=
     if skillsSystem g then defense + b_defense (getSkillBonuses e None)
     else defense in
   Qmax 0 defense)%Q.

(** ** class CharacterProgress *)

(** [initializeExperienceTable()] *)
Definition experienceTable : list Z :=
  [0; 100; 250; 450; 700; 1000; 1350; 1750; 2200; 2700; 3250; 3850; 4500;
   5200; 5950; 6750; 7600; 8500; 9450; 10450].

(** [getExperienceForLevel(level)] *)
Definition getExperienceForLevel (lvl : Z) : Z :=
  if lvl <=? 0 then 0
  else if Z.of_nat (length experienceTable) <? lvl then
    let baseExp := default 0 (last experienceTable) in
    let extraLevels := lvl - Z.of_nat (length experienceTable) in
    baseExp + extraLevels * 500
  else default 0 (experienceTable !! Z.to_nat (lvl - 1)).

(** One point of [increaseStats]: the stat at index
    [Math.floor(Math.random() * 4)] of
    [['strength', 'dexterity', 'intelligence', 'constitution']] gains 1;
    a stat of [0] counts as missing and restarts from [10]. *)
Definition bumpStat (st : Stats) (pick : nat) : Stats :=
  let bump v := (if v =? 0 then 10 else v) + 1 in
  match pick with
  | 0%nat => mkStats (bump (strength st)) (dexterity st) (intelligence st)
               (constitution st) (agility st)
  | 1%nat => mkStats (strength st) (bump (dexterity st)) (intelligence st)
               (constitution st) (agility st)
  | 2%nat => mkStats (strength st) (dexterity st) (bump (intelligence st))
               (constitution st) (agility st)
  | _ => mkStats (strength st) (dexterity st) (intelligence st)
               (bump (constitution st)) (agility st)
  end.

(** [performLevelUp(entity)]; [picks] are the stats that [increaseStats]
    draws, one per point. *)
Definition performLevelUp (picks : list nat) (e : Entity) : Entity :=
  let c := components e in
  match level c, stats c with
  | Some lv, Some st =>
      let c := set_level (Some (mkLevel (level_value lv + 1) (level_experience lv))) c in
      let c := set_stats (Some (foldl bumpStat st picks)) c in
      let c :=
        match health c with
        | Some h =>
            let max' := (health_max h + 4)%Q in
            set_health (Some (mkHealth max' max')) c
        | None => c
        end in
      set_components c e
  | _, _ => e
  end.

(** [checkLevelUp(entity)] *)
Definition checkLevelUp (picks : list nat) (e : Entity) : Entity :=
  match level (components e) with
  | None => e
  | Some lv =>
      let requiredExp := getExperienceForLevel (level_value lv + 1) in
      if requiredExp <=? level_experience lv then performLevelUp picks e else e
  end.

(** [addExperience(entity, experience)]; without a [level] component the
    source reads a field of [undefined] and throws, which is [None]. *)
Definition addExperience (picks : list nat) (experience : Z) (e : Entity)
  : option Entity :=
  match level (components e) with
  | None => None
  | Some lv =>
      let e' :=
        update (set_level
                  (Some (mkLevel (level_value lv) (level_experience lv + experience)))) e in
      Some (checkLevelUp picks e')
  end.

(** ** class CombatSystem *)

(** The mutable state that combat works on. *)
Record GameState := mkState { store : Store; world : World }.

(** The values drawn inside one [attackTarget] call, one field per call
    site: the [Math.random()] of [rollToHit], of [checkBlock] and of the
    dodge check, the id that [createSwingAnimation] builds from the clock
    and a random number, and the stats that [increaseStats] draws. *)
Record Rolls := mkRolls {
  hitRoll : Q;
  blockRoll : Q;
  dodgeRoll : Q;
  swingId : string;
  statPicks : list nat
}.

(** [isDead(entity)] *)
Definition isDead (e : Entity) : bool :=
  match health (components e) with
  | Some h => Qleb (health_current h) 0
  | None => false
  end.

(** [canAttack(attacker, target)] *)
Definition canAttack (attacker target : Entity) : bool :=
  if negb (e_active attacker) || negb (e_active target) then false
  else if String.eqb (e_id attacker) (e_id target) then false
  else if isDead target then false
  else true.

(** [calculateDamage(attacker, target)] *)
Definition calculateDamage (g : Game) (attacker target : Entity) : Q :=
  let damageResult := equipmentDamage g attacker in
  let baseDamage := dr_damage damageResult in
  let defense := calculateDefense g target in
  let finalDamage := Qmax 1 (baseDamage - defense) in
  finalDamage.

(** [calculateDodge(entity)] *)
Definition calculateDodge (g : Game) (e : Entity) : Q :=
  match stats (components e) with
  | None => 0
  | Some st =>
      if agility st =? 0 then 0
      else
        let baseDodge := 0 in
        let agilityBonus := inject_Z (agility st - 10) * 2 in
        let totalDodge := Qmax 0 (baseDodge + agilityBonus) in
        let totalDodge :=
          if skillsSystem g
          then totalDodge + b_dodgeChance (getSkillBonuses e None)
          else totalDodge in
        Qmin 50 totalDodge
  end%Q.

(** The threshold [finalHitChance] of [rollToHit]. *)
Definition finalHitChance (g : Game) (attackerStats : Stats) (target : Entity) : Q :=
  (let baseHitChance := 50 in
   let dexBonus := inject_Z (dexterity attackerStats - 10) * 2 in
   let dodge := calculateDodge g target in
   Qmax 5 (Qmin 95 (baseHitChance + dexBonus - dodge)))%Q.

(** [rollToHit(attacker, target)] with the draw [random]. *)
Definition rollToHit (g : Game) (random : Q) (attacker target : Entity) : bool :=
  match stats (components attacker), stats (components target) with
  | Some attackerStats, Some _ =>
      let roll := (random * 100)%Q in
      Qltb roll (finalHitChance g attackerStats target)
  | _, _ => Qltb random 0.5
  end.

(** [checkBlock(target)] with the draw [random]. *)
Definition checkBlock (g : Game) (random : Q) (target : Entity) : bool :=
  if negb (hasShield target) then false
  else
    let blockChance :=
      if skillsSystem g then b_blockChance (getSkillBonuses target None) else 0%Q in
    let totalBlockChance := (10 + blockChance)%Q in
    Qltb (random * 100) totalBlockChance.

(** [applyDamage(entity, damage)], with [addHitEffect]. *)
Definition applyDamage (damage : Q) (e : Entity) : Entity :=
  match health (components e) with
  | Some h =>
      let h' := mkHealth (Qmax 0 (health_current h - damage)) (health_max h) in
      update (λ c, set_hitEffect (Some (mkHitEffect 3 3)) (set_health (Some h') c)) e
  | None => e
  end.

(** [createSwingAnimation(attacker, target, world)]: a new entity of type
    [swing_animation] at the position of the target joins the registry. *)
Definition createSwingAnimation (id : string) (target : ref) (st : GameState)
  : GameState :=
  match store st !! target with
  | None => st
  | Some t =>
      let '(r, σ') := alloc (newEntity id "swing_animation" (e_x t) (e_y t)) (store st) in
      mkState σ' (addEntity σ' (world st) r)
  end.

(** [gainWeaponSkillExperience(attacker)] *)
Definition gainWeaponSkillExperience (g : Game) (attacker : ref) (σ : Store) : Store :=
  if negb (skillsSystem g) then σ
  else
    match σ !! attacker with
    | None => σ
    | Some a =>
        let weapon :=
          match equipment (components a) with
          | Some eq => orSlot (weapon eq) (primary eq)
          | None => None
          end in
        match weapon with
        | Some w =>
            let weaponType :=
              if String.eqb (item_type w) "" then "sword" else item_type w in
            let skillName := weaponSkillMapping weaponType in
            let σ1 := (gainSkillExperience σ attacker skillName 2).2 in
            (gainSkillExperience σ1 attacker "offense" 1).2
        | None => σ
        end
    end.

(** [giveExperience(player, monster)]; [None] when [addExperience]
    throws. *)
Definition giveExperience (g : Game) (picks : list nat) (playerRef : ref)
    (monster : Entity) (σ : Store) : option Store :=
  if negb (characterProgress g) then Some σ
  else
    match level (components monster) with
    | None => Some σ
    | Some lv =>
        let experience := level_value lv * 10 in
        match σ !! playerRef with
        | None => None
        | Some p =>
            match addExperience picks experience p with
            | Some p' => Some (<[playerRef := p']> σ)
            | None => None
            end
        end
    end.

(** [createCorpse(monster, world)] *)
Definition createCorpse (monster : Entity) (st : GameState) : GameState :=
  let corpseId := ("corpse_" +:+ e_id monster)%string in
  let c := noComponents in
  let c :=
    match loot (components monster) with
    | Some l => set_loot (Some l) c
    | None => c
    end in
  let c :=
    match appearance (components monster) with
    | Some _ => set_appearance (Some (mkAppearance "%" "#8B4513")) c
    | None => c
    end in
  let monsterType :=
    match e_monsterType monster with
    | Some t => if String.eqb t "" then "monster" else t
    | None => "monster"
    end in
  let c := set_corpse (Some (mkCorpse monsterType false)) c in
  let corpseEntity :=
    set_components c (newEntity corpseId "corpse" (e_x monster) (e_y monster)) in
  let '(r, σ') := alloc corpseEntity (store st) in
  mkState σ' (addEntity σ' (world st) r).

(** [handleDeath(entity, world)]; [None] when [giveExperience] throws,
    before anything is changed. *)
Definition handleDeath (g : Game) (picks : list nat) (entity : ref) (st : GameState)
  : option GameState :=
  match store st !! entity with
  | None => None
  | Some e =>
      let isMonster := String.eqb (e_type e) "monster" in
      let afterExperience :=
        match player (world st) with
        | Some p =>
            if isMonster then giveExperience g picks p e (store st)
            else Some (store st)
        | None => Some (store st)
        end in
      match afterExperience with
      | None => None
      | Some σ1 =>
          let st1 := mkState σ1 (world st) in
          let st2 :=
            match σ1 !! entity with
            | Some e1 => if isMonster then createCorpse e1 st1 else st1
            | None => st1
            end in
          let '(_, σ3, w3) := removeEntity (store st2) (world st2) (e_id e) in
          Some (mkState σ3 w3)
      end
  end.

(** Which [return] of [attackTarget] is taken: the precondition check,
    the cooldown check, the end of the hit branch with the damage passed
    to [applyDamage], the end of the miss branch, or an exception out of
    death handling after a hit. *)
Inductive AttackOutcome :=
  | NotPerformed
  | OnCooldown
  | Hit (finalDamage : Q) (blocked : bool)
  | Miss (dodged : bool)
  | Threw (finalDamage : Q) (blocked : bool).

(** The value [attackTarget] returns. *)
Definition attackResult (o : AttackOutcome) : bool :=
  match o with
  | Hit _ _ => true
  | _ => false
  end.

(** Whether the call reached [applyDamage]. *)
Definition damageApplied (o : AttackOutcome) : bool :=
  match o with
  | Hit _ _ | Threw _ _ => true
  | _ => false
  end.

(** [const baseAttackSpeed = 6400] *)
Definition baseAttackSpeed : Q := 6400.

(** [baseAttackSpeed / damageResult.swingSpeed], the required gap. *)
Definition attackSpeed (g : Game) (attacker : Entity) : Q :=
  (baseAttackSpeed / dr_swingSpeed (equipmentDamage g attacker))%Q.

(** [attacker.getComponent('lastAttack') || { time: 0 }] *)
Definition lastAttackTime (attacker : Entity) : Z :=
  default 0 (lastAttack (components attacker)).

(** The cooldown test [now - lastAttack.time < attackSpeed]. *)
Definition onCooldown (g : Game) (now : Z) (attacker : Entity) : bool :=
  Qltb (inject_Z (now - lastAttackTime attacker)) (attackSpeed g attacker).

(** The hit branch of [attackTarget]. *)
Definition attackHit (g : Game) (rolls : Rolls) (attacker target : ref) (damage : Q)
    (st : GameState) : AttackOutcome * GameState :=
  match store st !! target with
  | None => (NotPerformed, st)
  | Some t =>
      let blocked := checkBlock g (blockRoll rolls) t in
      let finalDamage :=
        if blocked then inject_Z (Qfloor (damage * 0.5)) else damage in
      let σ1 :=
        if blocked && skillsSystem g
        then (gainSkillExperience (store st) target "block" 5).2
        else store st in
      let σ2 := mutate (applyDamage finalDamage) target σ1 in
      let st3 := createSwingAnimation (swingId rolls) target (mkState σ2 (world st)) in
      let dead :=
        match store st3 !! target with
        | Some t3 => isDead t3
        | None => false
        end in
      let st4 := if dead then handleDeath g (statPicks rolls) target st3 else Some st3 in
      match st4 with
      | None => (Threw finalDamage blocked, st3)
      | Some st4 =>
          (Hit finalDamage blocked,
           mkState (gainWeaponSkillExperience g attacker (store st4)) (world st4))
      end
  end.

(** The miss branch of [attackTarget]. *)
Definition attackMiss (g : Game) (rolls : Rolls) (target : ref) (st : GameState)
  : AttackOutcome * GameState :=
  let st1 := createSwingAnimation (swingId rolls) target st in
  match store st1 !! target with
  | None => (Miss false, st1)
  | Some t =>
      let dodgeChance := calculateDodge g t in
      if Qltb (dodgeRoll rolls * 100) dodgeChance
      then
        (Miss true,
         if skillsSystem g
         then mkState (gainSkillExperience (store st1) target "dodge" 3).2 (world st1)
         else st1)
      else (Miss false, st1)
  end.

(** [attackTarget(attacker, target, world)] at wall-clock time [now]. *)
Definition attackTarget (g : Game) (now : Z) (rolls : Rolls) (attacker target : ref)
    (st : GameState) : AttackOutcome * GameState :=
  match store st !! attacker, store st !! target with
  | Some a, Some t =>
      if negb (canAttack a t) then (NotPerformed, st)
      else if onCooldown g now a then (OnCooldown, st)
      else
        let σ1 := mutate (update (set_lastAttack (Some now))) attacker (store st) in
        match σ1 !! attacker, σ1 !! target with
        | Some a1, Some t1 =>
            let damage := calculateDamage g a1 t1 in
            let hit := rollToHit g (hitRoll rolls) a1 t1 in
            if hit then attackHit g rolls attacker target damage (mkState σ1 (world st))
            else attackMiss g rolls target (mkState σ1 (world st))
        | _, _ => (NotPerformed, st)
        end
  | _, _ => (NotPerformed, st)
  end.

(** [lootCorpse(corpse, player, world)] with the draw [random]. *)
Definition lootCorpse (random : Q) (corpseRef playerRef : ref) (st : GameState)
  : bool * GameState :=
  match store st !! corpseRef with
  | None => (false, st)
  | Some c =>
      match corpse (components c) with
      | None => (false, st)
      | Some corpseComponent =>
          if corpse_looted corpseComponent then (false, st)
          else
            match loot (components c) with
            | None => (false, st)
            | Some l =>
                let '(looted, σ1) :=
                  match loot_gold l with
                  | Some (min, max) =>
                      let goldAmount :=
                        Qfloor (random * inject_Z (max - min + 1)) + min in
                      if 0 <? goldAmount
                      then
                        (true,
                         mutate (update (λ comps,
                                   set_gold (Some (default 0 (gold comps) + goldAmount))
                                            comps))
                                playerRef (store st))
                      else (false, store st)
                  | None => (false, store st)
                  end in
                let σ2 :=
                  mutate (update (λ comps,
                            match corpse comps with
                            | Some cc =>
                                set_corpse (Some (mkCorpse (corpse_monsterType cc) true))
                                           comps
                            | None => comps
                            end))
                         corpseRef σ1 in
                if looted
                then
                  let '(_, σ3, w3) := removeEntity σ2 (world st) (e_id c) in
                  (true, mkState σ3 w3)
                else (false, mkState σ2 (world st))
            end
      end
  end.

(** ** class MovementSystem *)

(** [setPosition(x, y)] *)
Definition setPosition (x y : Z) (e : Entity) : Entity :=
  mkEntity (e_id e) (e_type e) x y (e_nextAction e) (e_active e)
           (e_monsterType e) (components e).

(** [a.distanceTo(b) <= range], on the squares. *)
Definition distanceWithin (a b : Entity) (range : Q) : bool :=
  let dx := e_x a - e_x b in
  let dy := e_y a - e_y b in
  Qleb 0 range && Qleb (inject_Z (dx * dx + dy * dy)) (range * range).

(** [hasLineOfSight(from, to, world)] *)
Definition hasLineOfSight (from to : Entity) (w : World) : bool :=
  let dx := e_x to - e_x from in
  let dy := e_y to - e_y from in
  if (dx =? 0) && (dy =? 0) then true
  else
    let steps := Z.max (Z.abs dx) (Z.abs dy) in
    let stepX := (inject_Z dx / inject_Z steps)%Q in
    let stepY := (inject_Z dy / inject_Z steps)%Q in
    forallb
      (λ i,
         let checkX := Qfloor (inject_Z (e_x from) + stepX * inject_Z i + 0.5) in
         let checkY := Qfloor (inject_Z (e_y from) + stepY * inject_Z i + 0.5) in
         isPassable w checkX checkY)
      (seqZ 1 (steps - 1)).

(** [world.getEntitiesAt(x, y)] *)
Definition getEntitiesAt (st : GameState) (x y : Z) : list Entity :=
  List.filter (λ e, (e_x e =? x) && (e_y e =? y) && e_active e)
    (omap (λ kv, store st !! kv.2) (map_to_list (entities (world st)))).

(** [canMoveTo(entity, x, y, world)] *)
Definition canMoveTo (st : GameState) (e : Entity) (x y : Z) : bool :=
  let w := world st in
  if (x <? 0) || (width w <=? x) || (y <? 0) || (height w <=? y) then false
  else if negb (isPassable w x y) then false
  else
    negb (existsb
            (λ o, e_active o && negb (String.eqb (e_id o) (e_id e))
                  && negb (String.eqb (e_type o) "corpse"))
            (getEntitiesAt st x y)).

(** [dx > 0 ? 1 : -1] *)
Definition unitStep (d : Z) : Z := if 0 <? d then 1 else -1.

(** The position [moveTowardsTarget(entity, target, world)] moves to, or
    the current one. *)
Definition moveTowardsTarget (st : GameState) (e target : Entity) : Z * Z :=
  let dx := e_x target - e_x e in
  let dy := e_y target - e_y e in
  let stay := (e_x e, e_y e) in
  let try x y (otherwise : Z * Z) := if canMoveTo st e x y then (x, y) else otherwise in
  if Qleb (inject_Z (dx * dx + dy * dy)) (1.5 * 1.5) then
    let cardinal :=
      let moveX := if dx =? 0 then 0 else unitStep dx in
      let moveY := if dy =? 0 then 0 else unitStep dy in
      try (e_x e + moveX) (e_y e + moveY) stay in
    if negb (dx =? 0) && negb (dy =? 0)
    then try (e_x e + unitStep dx) (e_y e + unitStep dy) cardinal
    else cardinal
  else if Z.abs dy <? Z.abs dx then try (e_x e + unitStep dx) (e_y e) stay
  else if Z.abs dx <? Z.abs dy then try (e_x e) (e_y e + unitStep dy) stay
  else
    let moveX := unitStep dx in
    let moveY := unitStep dy in
    try (e_x e + moveX) (e_y e + moveY)
      (try (e_x e + moveX) (e_y e) (try (e_x e) (e_y e + moveY) stay)).

(** [Object.values(this.directions)] *)
Definition directions : list (Z * Z) :=
  [(0, -1); (0, 1); (1, 0); (-1, 0); (1, -1); (-1, -1); (1, 1); (-1, 1)].

(** The position [randomMovement(entity, world)] moves to with the draw
    [random], or the current one. *)
Definition randomMovement (random : Q) (st : GameState) (e : Entity) : Z * Z :=
  let index := Qfloor (random * inject_Z (Z.of_nat (length directions))) in
  match directions !! Z.to_nat index with
  | Some (rx, ry) =>
      let newX := e_x e + rx in
      let newY := e_y e + ry in
      if canMoveTo st e newX newY then (newX, newY) else (e_x e, e_y e)
  | None => (e_x e, e_y e)
  end.

(** The notice update of [processMonsterMovement]: the branch on
    [distance <= alertRange && hasLineOfSight], whose value is
    [qualifies]. *)
Definition updateNotice (qualifies : bool) (n : Notice) : Notice :=
  if qualifies then
    if negb (hasNoticed n) then
      let timer := noticeTimer n + 1 in
      if noticeDelay n <=? timer
      then mkNotice true timer (noticeDelay n) (alertRange n)
      else mkNotice (hasNoticed n) timer (noticeDelay n) (alertRange n)
    else n
  else
    if hasNoticed n
    then mkNotice false 0 (noticeDelay n) (alertRange n)
    else n.

(** [processMonsterMovement(entity, world)] with the draws of the wander
    test and of [randomMovement]. *)
Definition processMonsterMovement (wanderRoll dirRoll : Q) (entity : ref)
    (st : GameState) : GameState :=
  match store st !! entity with
  | None => st
  | Some e =>
      match ai (components e), notice (components e), visibility (components e) with
      | Some _, Some noticeComponent, Some isVisible =>
          if negb isVisible then st
          else
            match player (world st) ≫= (λ p, store st !! p) with
            | None => st
            | Some playerEntity =>
                let range := orElse (alertRange noticeComponent) 5 in
                let qualifies :=
                  distanceWithin e playerEntity range
                  && hasLineOfSight e playerEntity (world st) in
                let notice' := updateNotice qualifies noticeComponent in
                let σ1 := mutate (update (set_notice (Some notice'))) entity (store st) in
                let st1 := mkState σ1 (world st) in
                let e1 := update (set_notice (Some notice')) e in
                let moveTo '(x, y) :=
                  mkState (mutate (setPosition x y) entity σ1) (world st) in
                if hasNoticed notice' then
                  if noticeTimer notice' <? noticeDelay notice' then st1
                  else moveTo (moveTowardsTarget st1 e1 playerEntity)
                else
                  if Qltb wanderRoll 0.05
                  then moveTo (randomMovement dirRoll st1 e1)
                  else st1
            end
      | _, _, _ => st
      end
  end.

(** The three notice states as the game displays them. *)
Inductive NoticeState := Unaware | Suspicious | Hostile.

(** The state shown for a [notice] component: [HOSTILE!] if
    [hasNoticed], [Suspicious...] if the timer is positive, else
    [Unaware]. *)
Definition noticeState (n : Notice) : NoticeState :=
  if hasNoticed n then Hostile
  else if 0 <? noticeTimer n then Suspicious
  else Unaware.

(** [updateMonsterVisibility()] for one monster, with the field-of-view
    test [distance <= playerFOVRadius] as [inFOV]. *)
Definition updateVisibility (inFOV : bool) (e : Entity) : Entity :=
  if negb (e_active e) then e
  else
    match visibility (components e) with
    | None => e
    | Some wasVisible =>
        let c :=
          mkComponents (health (components e)) (stats (components e))
            (equipment (components e)) (skills (components e))
            (level (components e)) (loot (components e)) (corpse (components e))
            (gold (components e)) (lastAttack (components e))
            (notice (components e)) (Some inFOV) (ai (components e))
            (speed (components e)) (hitEffect (components e))
            (appearance (components e)) in
        let c :=
          if wasVisible && negb inFOV then
            match notice c with
            | Some n =>
                set_notice (Some (mkNotice false 0 (noticeDelay n) (alertRange n))) c
            | None => c
            end
          else c in
        set_components c e
    end.


(** * Further methods of the same classes *)

(** ** class Entity *)

(** [canAct(currentTime)] *)
Definition canAct (e : Entity) (time : Q) : bool :=
  e_active e && Qleb (e_nextAction e) time.

(** [manhattanDistanceTo(other)] *)
Definition manhattanDistanceTo (a b : Entity) : Z :=
  Z.abs (e_x a - e_x b) + Z.abs (e_y a - e_y b).

(** ** class Scheduler *)

Module Scheduling.

(** [addEntity(entity, initialDelay = 0)] *)
Definition addEntity (σ : Store) (s : Scheduler) (entity : ref) (initialDelay : Q)
  : Store * Scheduler :=
  schedule σ s entity (Some initialDelay).

(** [getQueueSize()] *)
Definition getQueueSize (s : Scheduler) : nat := size (queue s).

End Scheduling.

(** ** class World *)

(** [getEntity(entityId)] *)
Definition getEntity (w : World) (entityId : string) : option ref :=
  entities w !! entityId.

(** One iteration of the loop of [findPath]: the position it moves to. *)
Definition pathStep (current target : Z * Z) : Z * Z :=
  let dx := target.1 - current.1 in
  let dy := target.2 - current.2 in
  if Z.abs dy <? Z.abs dx
  then (current.1 + unitStep dx, current.2)
  else (current.1, current.2 + unitStep dy).

(** The [while] loop of [findPath]; every iteration moves one cell
    closer to the end point, so the distance between the two bounds the
    number of iterations. *)
Fixpoint findPath_fuel (fuel : nat) (w : World) (current target : Z * Z)
    (path : list (Z * Z)) : list (Z * Z) :=
  match fuel with
  | O => path
  | S fuel' =>
      if (current.1 =? target.1) && (current.2 =? target.2) then path
      else
        let current' := pathStep current target in
        let path' := path ++ [current'] in
        if width w + height w <? Z.of_nat (length path') then path'
        else findPath_fuel fuel' w current' target path'
  end.

(** [findPath(startX, startY, endX, endY)] *)
Definition findPath (w : World) (startX startY endX endY : Z) : list (Z * Z) :=
  findPath_fuel (Z.to_nat (Z.abs (endX - startX) + Z.abs (endY - startY)))
    w (startX, startY) (endX, endY) [].

(** ** class CombatSystem *)

(** [processMonsterCombat(entity, world)] at wall-clock time [now]. *)
Definition processMonsterCombat (g : Game) (now : Z) (rolls : Rolls) (entity : ref)
    (st : GameState) : GameState :=
  match store st !! entity with
  | None => st
  | Some e =>
      match visibility (components e) with
      | None => st
      | Some isVisible =>
          if negb isVisible then st
          else
            match player (world st) with
            | None => st
            | Some p =>
                match store st !! p with
                | None => st
                | Some playerEntity =>
                    if distanceWithin e playerEntity 1.5
                    then (attackTarget g now rolls entity p st).2
                    else st
                end
            end
      end
  end.

(** ** class InventorySystem *)

Module InventorySystem.

(** [inventory.items]: a slot holds an item or [null]. *)
Abbreviation Items := (list (option Item)).

(** [new Array(8).fill(null)] *)
Definition emptyItems : Items := replicate 8 None.

(** The loop of [addItem]: the first slot that holds [null] takes the
    item. *)
Fixpoint place (items : Items) (it : Item) : bool * Items :=
  match items with
  | [] => (false, [])
  | None :: rest => (true, Some it :: rest)
  | Some x :: rest => let '(ok, rest') := place rest it in (ok, Some x :: rest')
  end.

(** [addItem(entity, item)] on the [inventory] component of the entity,
    if it has one. *)
Definition addItem (inventory : option Items) (it : Item) : bool * option Items :=
  match inventory with
  | None => (false, None)
  | Some items => let '(ok, items') := place items it in (ok, Some items')
  end.

(** [removeItem(entity, slotIndex)] *)
Definition removeItem (inventory : option Items) (slotIndex : Z)
  : option Item * option Items :=
  match inventory with
  | None => (None, None)
  | Some items =>
      if (slotIndex <? 0) || (Z.of_nat (length items) <=? slotIndex)
      then (None, Some items)
      else
        (mjoin (items !! Z.to_nat slotIndex),
         Some (<[Z.to_nat slotIndex := None]> items))
  end.

(** [isInventoryFull(entity)] *)
Definition isInventoryFull (inventory : option Items) : bool :=
  match inventory with
  | None => true
  | Some items => forallb (λ slot, match slot with Some _ => true | None => false end) items
  end.

(** [getEmptySlots(entity)] *)
Definition getEmptySlots (inventory : option Items) : nat :=
  match inventory with
  | None => 0
  | Some items => length (List.filter (λ slot, match slot with Some _ => false | None => true end) items)
  end.

End InventorySystem.


(** * Specification vocabulary *)

Section HeapOrder.
Context {A : Type}.
Implicit Types (heap : list (node A)).

(** [j] is the left or the right child of [i] in the array layout. *)
Definition child (i j : nat) : Prop := j = (2 * i + 1)%nat ∨ j = (2 * i + 2)%nat.

(** The node at [i] has a priority no larger than the node at [j]. *)
Definition le_at heap (i j : nat) : Prop :=
  ∀ n m, heap !! i = Some n → heap !! j = Some m → (priority n <= priority m)%Q.

(** The min-heap property. *)
Definition heapOrdered heap : Prop := ∀ i j, child i j → le_at heap i j.

(** The heap property with a hole above [k]: what [_bubbleUp k] repairs. *)
Definition upOK heap (k : nat) : Prop :=
  (∀ i j, child i j → j ≠ k → le_at heap i j) ∧
  (∀ p c, child p k → child k c → le_at heap p c).

(** The heap property with a hole below [k]: what [_bubbleDown k] repairs. *)
Definition downOK heap (k : nat) : Prop :=
  (∀ i j, child i j → i ≠ k → le_at heap i j) ∧
  (∀ p c, child p k → child k c → le_at heap p c).

(** The nodes that successive [pop()] calls take out, at most [k] of them. *)
Fixpoint drain (k : nat) heap : list (node A) :=
  match k with
  | O => []
  | S k' =>
      match popNode heap with
      | (Some n, heap') => n :: drain k' heap'
      | (None, _) => []
      end
  end.

End HeapOrder.

(** Non-decreasing priorities along a list of nodes. *)
Definition priorityLe {A} (a b : node A) : Prop := (priority a <= priority b)%Q.

(** ** Runs of the scheduler *)

(** [getNextEntity()] with the queue entry it dispatches: the same
    function on [popNode], which keeps the priority next to the item. *)
Fixpoint getNextEntry_fuel (fuel : nat) (σ : Store) (s : Scheduler)
  : option (node ref) * Scheduler :=
  match fuel with
  | O => (None, s)
  | S fuel' =>
      if isEmpty (queue s) then (None, s)
      else
        let '(entry, queue') := popNode (queue s) in
        let s' := mkScheduler queue' (currentTime s) in
        match entry with
        | None => getNextEntry_fuel fuel' σ s'
        | Some n =>
            match σ !! item n with
            | None => getNextEntry_fuel fuel' σ s'
            | Some e =>
                if negb (e_active e) then getNextEntry_fuel fuel' σ s'
                else (Some n, mkScheduler queue' (getNextActionTime e))
            end
        end
  end.

Definition getNextEntry (σ : Store) (s : Scheduler) : option (node ref) * Scheduler :=
  getNextEntry_fuel (S (length (queue s))) σ s.

(** The scheduling phase: [schedule] calls with an explicit or a default
    delay, between which entities may be switched off and on. *)
Inductive SetupOp :=
  | Schedule (entity : ref) (delay : option Q)
  | SetupActive (entity : ref) (b : bool).

(** The dispatch phase: [getNextEntity] calls, between which entities may
    be switched off and on. *)
Inductive DispatchOp :=
  | GetNext
  | DispatchActive (entity : ref) (b : bool).

Fixpoint setup (ops : list SetupOp) (σ : Store) (s : Scheduler) : Store * Scheduler :=
  match ops with
  | [] => (σ, s)
  | Schedule r d :: ops' => let '(σ', s') := schedule σ s r d in setup ops' σ' s'
  | SetupActive r b :: ops' => setup ops' (mutate (set_active b) r σ) s
  end.

(** One record per successful dispatch: the queue entry, and the entity
    as it is in the store at that moment. *)
Fixpoint dispatchLog (ops : list DispatchOp) (σ : Store) (s : Scheduler)
  : list (node ref * option Entity) :=
  match ops with
  | [] => []
  | GetNext :: ops' =>
      match getNextEntry σ s with
      | (Some n, s') => (n, σ !! item n) :: dispatchLog ops' σ s'
      | (None, s') => dispatchLog ops' σ s'
      end
  | DispatchActive r b :: ops' => dispatchLog ops' (mutate (set_active b) r σ) s
  end.





(** The entities that the [getNextEntity] calls of a dispatch phase
    return. *)
Fixpoint dispatchRefs (ops : list DispatchOp) (σ : Store) (s : Scheduler) : list ref :=
  match ops with
  | [] => []
  | GetNext :: ops' =>
      match getNextEntity σ s with
      | (Some r, s') => r :: dispatchRefs ops' σ s'
      | (None, s') => dispatchRefs ops' σ s'
      end
  | DispatchActive r b :: ops' => dispatchRefs ops' (mutate (set_active b) r σ) s
  end.

(** The entity of a queue entry exists and is active in the store. *)
Definition activeIn (σ : Store) (n : node ref) : bool :=
  match σ !! item n with
  | Some e => e_active e
  | None => false
  end.

(** ** Runs of the world and the scheduler *)

(** The operations on entity liveness, registry and queue that the
    sources perform; [activate()] has no caller. *)
Inductive WorldOp :=
  | WSchedule (entity : ref) (delay : option Q)
  | WGetNext
  | WAdd (e : Entity)
  | WRemove (entityId : string)
  | WDeactivate (entity : ref).

Record Sim := mkSim { sim_store : Store; sim_world : World; sim_sched : Scheduler }.

(** One operation; the result carries the entity that [getNextEntity]
    returned, if the operation is a dispatch. *)
Definition stepWorld (op : WorldOp) (st : Sim) : option ref * Sim :=
  match op with
  | WSchedule r d =>
      let '(σ', s') := schedule (sim_store st) (sim_sched st) r d in
      (None, mkSim σ' (sim_world st) s')
  | WGetNext =>
      let '(r, s') := getNextEntity (sim_store st) (sim_sched st) in
      (r, mkSim (sim_store st) (sim_world st) s')
  | WAdd e =>
      let '(r, σ') := alloc e (sim_store st) in
      (None, mkSim σ' (addEntity σ' (sim_world st) r) (sim_sched st))
  | WRemove entityId =>
      let '(_, σ', w') := removeEntity (sim_store st) (sim_world st) entityId in
      (None, mkSim σ' w' (sim_sched st))
  | WDeactivate r =>
      (None, mkSim (mutate deactivate r (sim_store st)) (sim_world st) (sim_sched st))
  end.

(** The entities dispatched along a run. *)
Fixpoint dispatched (ops : list WorldOp) (st : Sim) : list ref :=
  match ops with
  | [] => []
  | op :: ops' =>
      let '(r, st') := stepWorld op st in
      match r with
      | Some r => r :: dispatched ops' st'
      | None => dispatched ops' st'
      end
  end.

(** The object behind [r] exists and is switched off. *)
Definition switchedOff (σ : Store) (r : ref) : Prop :=
  ∃ e, σ !! r = Some e ∧ e_active e = false.


(** ** Skills *)

(** [skills[name]] of an entity. *)
Definition skillOf (e : Entity) (name : string) : option Skill :=
  skills (components e) ≫= (λ sks, sks !! name).

(** Between [e] and a later state [e'] of the same entity the cap is the
    same, every skill is still there, no level dropped and no level rose
    beyond the cap (a level already above it stays where it is). *)
Definition skillsWithinCap (e e' : Entity) : Prop :=
  maxSkillLevel e' = maxSkillLevel e ∧
  ∀ name sk, skillOf e name = Some sk →
    ∃ sk', skillOf e' name = Some sk' ∧
           skill_level sk ≤ skill_level sk' ≤ Z.max (skill_level sk) (maxSkillLevel e).

(** A sequence of [gainSkillExperience(entity, skillName, experience)]
    calls, on any entities. *)
Fixpoint gainAll (calls : list (ref * string * Z)) (σ : Store) : Store :=
  match calls with
  | [] => σ
  | (r, name, xp) :: calls' => gainAll calls' (gainSkillExperience σ r name xp).2
  end.

(** ** Combat *)

(** The damage that a call passed to [applyDamage], with the block flag. *)
Definition damageOf (o : AttackOutcome) : option (Q * bool) :=
  match o with
  | Hit d b | Threw d b => Some (d, b)
  | _ => None
  end.

(** The threshold of [rollToHit] for a defender without any dodge chance:
    a roll below it that still misses was turned into a miss by the dodge
    chance of the defender. *)
Definition hitChanceWithoutDodge (attackerStats : Stats) : Q :=
  (Qmax 5 (Qmin 95 (50 + inject_Z (dexterity attackerStats - 10) * 2)))%Q.

(** The state in which the miss branch of [attackTarget] tests for a
    dodge: the attack time is recorded and the swing animation exists. *)
Definition beforeDodgeCheck (now : Z) (rolls : Rolls) (attacker target : ref)
    (st : GameState) : GameState :=
  createSwingAnimation (swingId rolls) target
    (mkState (mutate (update (set_lastAttack (Some now))) attacker (store st))
             (world st)).

(** Every object of [σ] is still in [σ'], with the same [lastAttack]
    component. *)
Definition keepsLastAttack (σ σ' : Store) : Prop :=
  ∀ r e, σ !! r = Some e →
    ∃ e', σ' !! r = Some e' ∧ lastAttack (components e') = lastAttack (components e).

(** The number of calls among the outcomes that reached [applyDamage]. *)
Definition damageApplications (os : list AttackOutcome) : nat :=
  length (List.filter damageApplied os).

(** The call was turned away at one of the two gates. *)
Definition rejected (o : AttackOutcome) : bool :=
  match o with
  | NotPerformed | OnCooldown => true
  | _ => false
  end.

(** The second call comes less than the required gap after the first:
    [now2 - now1 < baseAttackSpeed / swingSpeed], with the swing speed of
    the attacker as it is between the two calls. *)
Definition withinGap (g : Game) (now1 now2 : Z) (attacker : ref) (st : GameState)
  : bool :=
  match store st !! attacker with
  | Some a => Qltb (inject_Z (now2 - now1)) (attackSpeed g a)
  | None => true
  end.

(** ** Looting *)

(** The gold that [lootCorpse] rolls from a range with the draw [random]. *)
Definition rolledGold (random : Q) (min max : Z) : Z :=
  Qfloor (random * inject_Z (max - min + 1)) + min.

(** The [gold] component of the object behind a reference, [0] if there
    is none. *)
Definition goldOf (σ : Store) (r : ref) : Z :=
  default 0 (σ !! r ≫= (λ e, gold (components e))).

(** The [looted] flag of a corpse. *)
Definition lootedOf (e : Entity) : option bool :=
  corpse_looted <$> corpse (components e).

(** The [looted] flag of the corpse behind a reference. *)
Definition lootedFlag (σ : Store) (r : ref) : option bool := σ !! r ≫= lootedOf.

(** ** Death handling *)

(** The experience of the player behind [p]. *)
Definition experienceOf (σ : Store) (p : ref) : option Z :=
  σ !! p ≫= (λ e, level_experience <$> level (components e)).



(** ** The notice state machine *)

(** The [notice] component of the object behind a reference. *)
Definition noticeOf (σ : Store) (r : ref) : option Notice :=
  σ !! r ≫= (λ e, notice (components e)).

(** Whether [processMonsterMovement] evaluates the monster this turn (it
    has the three components, is visible, and the player exists), and if
    so its [notice] component and the value of the range and
    line-of-sight test. *)
Definition noticeInput (entity : ref) (st : GameState) : option (Notice * bool) :=
  match store st !! entity with
  | None => None
  | Some e =>
      match ai (components e), notice (components e), visibility (components e) with
      | Some _, Some n, Some true =>
          match player (world st) ≫= (λ p, store st !! p) with
          | Some playerEntity =>
              Some (n, distanceWithin e playerEntity (orElse (alertRange n) 5)
                       && hasLineOfSight e playerEntity (world st))
          | None => None
          end
      | _, _, _ => None
      end
  end.

(** ** Scenarios

    The player and the goblin of the character templates. *)

Definition rustySword : Item := mkItem "sword" 2 2.72 0.
Definition woodenShield : Item := mkItem "shield" 0 0 0.
Definition leatherVest : Item := mkItem "armor" 0 0 1.

Definition noEquipment : Equipment :=
  mkEquipment None None None None None None None None None None None None None.

Definition playerEquipment : Equipment :=
  mkEquipment (Some rustySword) None None None None None None None None None None
    None None.

(** The player with a shield in the secondary slot and a chest piece. *)
Definition shieldedEquipment : Equipment :=
  mkEquipment (Some rustySword) None (Some woodenShield) None None None
    (Some leatherVest) None None None None None None.

Definition playerComponents (eq : Equipment) : Components :=
  mkComponents (Some (mkHealth 50 50)) (Some (mkStats 10 10 10 10 15)) (Some eq)
    (Some initialSkills) (Some (mkLevel 1 0)) None None None None None None None
    (Some 2%Q) None (Some (mkAppearance "@" "#ffffff")).

Definition goblinComponents : Components :=
  mkComponents (Some (mkHealth 10 10)) (Some (mkStats 12 14 6 12 8))
    (Some noEquipment) None (Some (mkLevel 1 0))
    (Some (mkLoot (Some (1, 5)) [])) None None None
    (Some (mkNotice false 0 10 5)) (Some false) (Some 8%Q) (Some 1%Q) None
    (Some (mkAppearance "g" "#00ff00")).

Definition thePlayer (eq : Equipment) : Entity :=
  set_components (playerComponents eq) (newEntity "player" "player" 5 5).

Definition theGoblin : Entity :=
  mkEntity "goblin_1" "monster" 6 5 0 true (Some "goblin") goblinComponents.

Definition theGame : Game := mkGame true true.

Definition emptyWorld : World := mkWorld 80 24 ∅ [] None.

(** A world with the player at reference [0] and the goblin at [1]. *)
Definition arena (eq : Equipment) : GameState :=
  let σ := [thePlayer eq; theGoblin] in
  mkState σ (addEntity σ (addEntity σ emptyWorld 0%nat) 1%nat).

(** A level of open floor, the player at (5, 5) and a visible goblin with
    the given [notice] component seven cells to the east: inside the
    field of view of the player (radius 8), outside its own alert range
    of 5. *)
Definition openWorld : World := mkWorld 80 24 ∅ (replicate 24 (replicate 80 true)) None.

Definition watchfulGoblin (n : Notice) : Entity :=
  let c := goblinComponents in
  mkEntity "goblin_1" "monster" 12 5 0 true (Some "goblin")
    (mkComponents (health c) (stats c) (equipment c) (skills c) (level c) (loot c)
       (corpse c) (gold c) (lastAttack c) (Some n) (Some true) (ai c) (speed c)
       (hitEffect c) (appearance c)).

Definition farArena (n : Notice) : GameState :=
  let σ := [thePlayer playerEquipment; watchfulGoblin n] in
  mkState σ (addEntity σ (addEntity σ openWorld 0%nat) 1%nat).

(** The same with the goblin two cells east of the player, in range and
    in sight. *)
Definition nearArena (n : Notice) : GameState :=
  let σ := [thePlayer playerEquipment; setPosition 7 5 (watchfulGoblin n)] in
  mkState σ (addEntity σ (addEntity σ openWorld 0%nat) 1%nat).

(** A hero of level 1 with the initial skills. *)
Definition levelOneHero : Entity :=
  update (set_level (Some (mkLevel 1 0)))
         (initializeEntity (newEntity "hero" "player" 0 0)).

(** A goblin whose loot table allows an empty purse. *)
Definition poorGoblin : Entity :=
  update (set_loot (Some (mkLoot (Some (0, 5)) []))) theGoblin.

(** The draws and runs of the scenarios. *)

(** Four actors for the scheduler. *)
Definition fourActors : Store :=
  [newEntity "a" "monster" 0 0; newEntity "b" "monster" 1 0;
   newEntity "c" "monster" 2 0; newEntity "d" "player" 3 0].

Definition fiveCalls : list SetupOp :=
  [Schedule 0%nat (Some 5%Q); Schedule 1%nat (Some 3%Q);
   Schedule 2%nat (Some 4%Q); Schedule 3%nat (Some 1%Q);
   Schedule 0%nat (Some 2%Q)].

Definition dispatchRun : list DispatchOp :=
  [GetNext; DispatchActive 1%nat false; GetNext; GetNext; GetNext; GetNext].

(** Gains of dodge experience for the entity at reference 0. *)
Definition fortyGains : list (ref * string * Z) := replicate 40 (0%nat, "dodge", 30).

(** The first draw hits and nothing is blocked or dodged. *)
Definition hitRolls : Rolls := mkRolls 0 0.99 0.99 "swing_1" [].

(** The first draw hits and the defender blocks. *)
Definition blockedRolls : Rolls := mkRolls 0 0 0 "swing_1" [].

(** A roll of 99 with a dodge draw of 0, and a roll of 50 with a dodge
    draw of 50. *)
Definition wildMissRolls : Rolls := mkRolls 0.99 0 0 "swing_1" [].
Definition dodgedMissRolls : Rolls := mkRolls 0.5 0 0.5 "swing_1" [].

(** The first draw misses and nothing is dodged. *)
Definition missRolls : Rolls := mkRolls 0.99 0 0.99 "swing_1" [].

(** The arena with the goblin down to its last point of health. *)
Definition woundedArena : GameState :=
  let st := arena playerEquipment in
  mkState (mutate (update (set_health (Some (mkHealth 1 10)))) 1%nat (store st))
          (world st).

(** A goblin and the hero, both registered and both scheduled. *)
Definition twoActors : Store :=
  [newEntity "goblin_1" "monster" 0 0; newEntity "hero" "player" 1 0].

Definition twoActorWorld : World :=
  addEntity twoActors
    (addEntity twoActors (mkWorld 80 24 ∅ [] None) 0%nat) 1%nat.

Definition twoActorQueue : Scheduler :=
  (schedule (schedule twoActors newScheduler 0%nat (Some 1%Q)).1
            (schedule twoActors newScheduler 0%nat (Some 1%Q)).2
            1%nat (Some 2%Q)).2.

Definition laterRun : list WorldOp :=
  [WGetNext; WSchedule 0%nat None; WGetNext; WGetNext].



(** * Further specification vocabulary *)

(** ** The queue *)

(** A sequence of [push(item, priority)] calls. *)
Definition pushAll {A} (heap : list (node A)) (calls : list (A * Q)) : list (node A) :=
  foldl (λ h call, push h call.1 call.2) heap calls.

(** A queue of three entries in heap order. *)
Definition threeEntries : list (node ref) :=
  [Node 7%nat 1%Q; Node 8%nat 4%Q; Node 9%nat 2%Q].

(** ** The scheduler *)

(** A scheduler at time 10 that holds the three entries. *)
Definition busyScheduler : Scheduler := mkScheduler threeEntries 10.

(** ** The world *)

(** The number of steps between two cells when a step goes to one of the
    four neighbours. *)
Definition manhattan (a b : Z * Z) : Z := Z.abs (a.1 - b.1) + Z.abs (a.2 - b.2).

(** Every cell of the path is one of the four neighbours of the cell
    before it, the first one of [from]. *)
Fixpoint walk (from : Z * Z) (path : list (Z * Z)) : Prop :=
  match path with
  | [] => True
  | p :: rest => manhattan from p = 1 ∧ walk p rest
  end.

(** ** Movement *)

(** The cell [(x, y)] is the cell of [e] or one of its eight
    neighbours. *)
Definition withinOneStep (e : Entity) (x y : Z) : Prop :=
  Z.abs (x - e_x e) ≤ 1 ∧ Z.abs (y - e_y e) ≤ 1.

(** A move of [moveTowardsTarget] or [randomMovement]: the entity stays
    where it is, or goes to a cell within one step that [canMoveTo]
    accepts. *)
Definition goodMove (st : GameState) (e : Entity) (xy : Z * Z) : Prop :=
  xy = (e_x e, e_y e)
  ∨ (withinOneStep e xy.1 xy.2 ∧ canMoveTo st e xy.1 xy.2 = true).

(** The same, and a move that is made brings the entity closer to the
    target. *)
Definition approach (st : GameState) (e target : Entity) (xy : Z * Z) : Prop :=
  xy = (e_x e, e_y e)
  ∨ (withinOneStep e xy.1 xy.2 ∧ canMoveTo st e xy.1 xy.2 = true
     ∧ manhattan xy (e_x target, e_y target)
       < manhattan (e_x e, e_y e) (e_x target, e_y target)).

(** The cell [(x, y)] is free for [e]: it lies on the map, its tile is
    passable, and every active entity of the registry that stands on it
    is [e] itself (by id) or a corpse. *)
Definition freeCell (st : GameState) (e : Entity) (x y : Z) : Prop :=
  0 ≤ x < width (world st) ∧ 0 ≤ y < height (world st)
  ∧ isPassable (world st) x y = true
  ∧ ∀ id r o, entities (world st) !! id = Some r → store st !! r = Some o →
      e_active o = true → e_x o = x → e_y o = y →
      e_id o = e_id e ∨ e_type o = "corpse".

(** What a turn of [processMonsterMovement] may do to the monster and
    to the rest of the state. *)
Definition movedWithinReach (entity : ref) (e : Entity) (st st' : GameState) : Prop :=
  world st' = world st
  ∧ (∀ r, r ≠ entity → store st' !! r = store st !! r)
  ∧ ∃ e', store st' !! entity = Some e'
          ∧ e_id e' = e_id e ∧ e_type e' = e_type e ∧ e_active e' = e_active e
          ∧ ((e_x e', e_y e') = (e_x e, e_y e)
             ∨ (withinOneStep e (e_x e') (e_y e')
                ∧ canMoveTo st e (e_x e') (e_y e') = true
                ∧ freeCell st e (e_x e') (e_y e'))).

(** [k] turns in a row on which the player is in range and in sight. *)
Fixpoint qualifyingTurns (k : nat) (n : Notice) : Notice :=
  match k with
  | O => n
  | S k' => updateNotice true (qualifyingTurns k' n)
  end.

(** A corridor: one row of open floor, walls above and below. *)
Definition corridor : World :=
  mkWorld 80 24 ∅
    (replicate 5 (replicate 80 false) ++ [replicate 80 true]
     ++ replicate 18 (replicate 80 false)) None.

(** The player and a hostile goblin four cells east of it in the
    corridor. *)
Definition corridorChase : GameState :=
  let σ := [thePlayer playerEquipment;
            setPosition 9 5 (watchfulGoblin (mkNotice true 10 10 5))] in
  mkState σ (addEntity σ (addEntity σ corridor 0%nat) 1%nat).


(** * Facts about the binary heap *)

Lemma Qltb_true a b : Qltb a b = true → (a < b)%Q.
Proof.
  unfold Qltb. intros H. apply negb_true_iff in H.
  apply Qnot_le_lt. intros Hle. apply Qle_bool_iff in Hle. congruence.
Qed.

Lemma Qltb_false a b : Qltb a b = false → (b <= a)%Q.
Proof.
  unfold Qltb. intros H. apply negb_false_iff in H. by apply Qle_bool_iff.
Qed.

Lemma Qltb_lt a b : (a < b)%Q → Qltb a b = true.
Proof.
  intros H. destruct (Qltb a b) eqn:E; [done|].
  apply Qltb_false in E. exfalso. by apply (Qlt_not_le a b).
Qed.

Lemma Qltb_ge a b : (b <= a)%Q → Qltb a b = false.
Proof.
  intros H. destruct (Qltb a b) eqn:E; [|done].
  apply Qltb_true in E. exfalso. by apply (Qlt_not_le a b).
Qed.

Section QueueFacts.
Context {A : Type}.
Implicit Types (heap h : list (node A)) (n m : node A).

Lemma swap_length h i j : length (swap h i j) = length h.
Proof.
  unfold swap. destruct (h !! i), (h !! j); rewrite ?length_insert; done.
Qed.

Lemma swap_lookup h i j a b x :
  h !! i = Some a → h !! j = Some b →
  swap h i j !! x =
    if decide (x = j) then Some a else if decide (x = i) then Some b else h !! x.
Proof.
  intros Hi Hj. unfold swap. rewrite Hi, Hj.
  pose proof (lookup_lt_Some _ _ _ Hi). pose proof (lookup_lt_Some _ _ _ Hj).
  destruct (decide (x = j)) as [->|].
  - rewrite list_lookup_insert_eq; [done|]. by rewrite length_insert.
  - rewrite list_lookup_insert_ne by done.
    destruct (decide (x = i)) as [->|].
    + by rewrite list_lookup_insert_eq.
    + by rewrite list_lookup_insert_ne.
Qed.

Lemma insert_cons_Permutation (t : list (node A)) j a b :
  t !! j = Some b → b :: <[j:=a]> t ≡ₚ a :: t.
Proof.
  revert j. induction t as [|c t IH]; intros [|j] H; simplify_eq/=.
  - apply perm_swap.
  - rewrite (perm_swap c b). rewrite (IH _ H). apply perm_swap.
Qed.

Lemma swap_Permutation h i j : swap h i j ≡ₚ h.
Proof.
  unfold swap. destruct (h !! i) as [a|] eqn:Hi; [|done].
  destruct (h !! j) as [b|] eqn:Hj; [|done].
  revert i j Hi Hj. induction h as [|c t IH]; intros [|i] [|j] Hi Hj; simplify_eq/=.
  - done.
  - by apply insert_cons_Permutation.
  - by apply insert_cons_Permutation.
  - constructor. by apply IH.
Qed.

Lemma child_parent (k : nat) : (0 < k)%nat → child ((k - 1) / 2) k.
Proof.
  intros Hk. unfold child.
  pose proof (Nat.div_mod_eq (k - 1) 2) as E.
  pose proof (Nat.mod_upper_bound (k - 1) 2) as B. lia.
Qed.

Lemma child_lt (i j : nat) : child i j → (i < j)%nat.
Proof. unfold child. lia. Qed.

Lemma priorityLess_true h i j :
  priorityLess h i j = true →
  ∃ a b, h !! i = Some a ∧ h !! j = Some b ∧ (priority a < priority b)%Q.
Proof.
  unfold priorityLess. destruct (h !! i) as [a|], (h !! j) as [b|]; try done.
  intros H%Qltb_true. eauto.
Qed.

Lemma priorityLess_false h i j a b :
  priorityLess h i j = false → h !! i = Some a → h !! j = Some b →
  (priority b <= priority a)%Q.
Proof.
  unfold priorityLess. intros H Hi Hj. rewrite Hi, Hj in H. by apply Qltb_false.
Qed.

(** *** Sifting up *)

Lemma upOK_done h k :
  upOK h k → (∀ p, child p k → le_at h p k) → heapOrdered h.
Proof.
  intros [H1 H2] Hk i j Hc. destruct (decide (j = k)) as [->|]; auto.
Qed.

(** Closes a comparison between two nodes from the hole invariants [H1]
    and [H2], directly or through a third node of the heap. *)
Ltac heap_direct H1 H2 :=
  first
    [ apply Qle_refl
    | assumption
    | match goal with
      | Hn : ?h !! ?i = Some ?n, Hm : ?h !! ?j = Some ?m
        |- (priority ?n <= priority ?m)%Q =>
          first [ apply (H1 i j); [unfold child; lia|lia|exact Hn|exact Hm]
                | apply (H2 i j); [unfold child; lia|unfold child; lia|exact Hn|exact Hm] ]
      end ].

Ltac heap_le H1 H2 :=
  first
    [ heap_direct H1 H2
    | match goal with
      | Hx : _ !! _ = Some ?x |- (priority _ <= priority _)%Q =>
          apply Qle_trans with (priority x); [heap_direct H1 H2 | heap_direct H1 H2]
      end ].

Lemma upOK_swap h k p :
  upOK h k → child p k → priorityLess h k p = true → upOK (swap h k p) p.
Proof.
  intros [H1 H2] Hc (a & b & Ha & Hb & Hlt)%priorityLess_true.
  assert (Hle : (priority a <= priority b)%Q) by by apply Qlt_le_weak.
  unfold child in Hc.
  split.
  - intros i j Hij Hne n m. rewrite !(swap_lookup h k p a b) by done.
    unfold child in Hij.
    repeat case_decide; intros; simplify_eq; try lia; heap_le H1 H2.
  - intros q c Hq Hcc n m. rewrite !(swap_lookup h k p a b) by done.
    unfold child in Hq, Hcc.
    repeat case_decide; intros; simplify_eq; try lia; heap_le H1 H2.
Qed.

Lemma bubbleUp_fuel_length fuel h k : length (bubbleUp_fuel fuel h k) = length h.
Proof.
  revert h k. induction fuel as [|fuel IH]; intros h k; cbn [bubbleUp_fuel]; [done|].
  destruct (k =? 0)%nat; [done|].
  destruct (priorityLess h k ((k - 1) / 2)); [|done].
  by rewrite IH, swap_length.
Qed.

Lemma bubbleUp_fuel_Permutation fuel h k : bubbleUp_fuel fuel h k ≡ₚ h.
Proof.
  revert h k. induction fuel as [|fuel IH]; intros h k; cbn [bubbleUp_fuel]; [done|].
  destruct (k =? 0)%nat; [done|].
  destruct (priorityLess h k ((k - 1) / 2)); [|done].
  by rewrite IH, swap_Permutation.
Qed.

Lemma bubbleUp_fuel_enough fuel h k :
  (k ≤ fuel)%nat → bubbleUp_fuel fuel h k = bubbleUp_fuel k h k.
Proof.
  revert fuel h. induction k as [k IH] using lt_wf_ind. intros fuel h Hk.
  destruct k as [|k'].
  { destruct fuel; done. }
  destruct fuel as [|fuel]; [lia|]. cbn [bubbleUp_fuel Nat.eqb].
  set (p := ((S k' - 1) / 2)%nat).
  assert (p < S k')%nat by (apply child_lt, child_parent; lia).
  destruct (priorityLess h (S k') p); [|done].
  rewrite (IH p) by lia. symmetry. apply (IH p); lia.
Qed.

(** The recursion equation of [_bubbleUp], as the source states it. *)
Lemma bubbleUp_unfold h index :
  _bubbleUp h index =
    if (index =? 0)%nat then h
    else
      let parentIndex := ((index - 1) / 2)%nat in
      if priorityLess h index parentIndex
      then _bubbleUp (swap h index parentIndex) parentIndex
      else h.
Proof.
  unfold _bubbleUp. destruct index as [|k']; [done|].
  cbn [bubbleUp_fuel Nat.eqb]. cbv zeta.
  destruct (priorityLess h (S k') ((S k' - 1) / 2)); [|done].
  apply bubbleUp_fuel_enough.
  assert ((S k' - 1) / 2 < S k')%nat by (apply child_lt, child_parent; lia). lia.
Qed.

Lemma bubbleUp_fuel_ordered fuel h k :
  (k ≤ fuel)%nat → upOK h k → heapOrdered (bubbleUp_fuel fuel h k).
Proof.
  revert h k. induction fuel as [|fuel IH]; intros h k Hk Hup.
  - assert (k = 0%nat) as -> by lia. simpl.
    apply (upOK_done h 0 Hup). intros p Hp%child_lt. lia.
  - cbn [bubbleUp_fuel]. destruct (k =? 0)%nat eqn:E.
    { apply Nat.eqb_eq in E as ->. apply (upOK_done h 0 Hup).
      intros p Hp%child_lt. lia. }
    apply Nat.eqb_neq in E.
    assert (Hc : child ((k - 1) / 2) k) by (apply child_parent; lia).
    destruct (priorityLess h k ((k - 1) / 2)) eqn:Hless.
    + apply IH; [apply child_lt in Hc; lia|]. by apply upOK_swap.
    + apply (upOK_done h k Hup). intros p Hp n m Hn Hm.
      assert (p = ((k - 1) / 2)%nat) as -> by (unfold child in *; lia).
      by apply (priorityLess_false h k ((k - 1) / 2) m n).
Qed.

Lemma upOK_snoc h n : heapOrdered h → upOK (h ++ [n]) (length h).
Proof.
  intros Hh. split.
  - intros i j Hij Hne a b Ha Hb.
    assert (i < j)%nat by by apply child_lt.
    pose proof (lookup_lt_Some _ _ _ Hb) as Hlen. rewrite length_app in Hlen.
    simpl in Hlen.
    rewrite lookup_app_l in Ha by lia. rewrite lookup_app_l in Hb by lia.
    by apply (Hh i j).
  - intros p c _ Hc%child_lt a b _ Hb.
    apply lookup_lt_Some in Hb. rewrite length_app in Hb. simpl in Hb. lia.
Qed.

Lemma push_length h x p : length (push h x p) = S (length h).
Proof.
  unfold push, _bubbleUp. rewrite bubbleUp_fuel_length, length_app. simpl. lia.
Qed.

Lemma push_Permutation h x p : push h x p ≡ₚ Node x p :: h.
Proof.
  unfold push, _bubbleUp. rewrite bubbleUp_fuel_Permutation.
  symmetry. apply Permutation_cons_append.
Qed.

Lemma push_ordered h x p : heapOrdered h → heapOrdered (push h x p).
Proof.
  intros Hh. unfold push, _bubbleUp.
  rewrite length_app. simpl.
  replace (length h + 1 - 1)%nat with (length h) by lia.
  apply bubbleUp_fuel_ordered; [done|]. by apply upOK_snoc.
Qed.

(** *** Sifting down *)

Lemma downOK_done h k :
  downOK h k → (∀ c, child k c → le_at h k c) → heapOrdered h.
Proof.
  intros [H1 H2] Hk i j Hc. destruct (decide (i = k)) as [->|]; auto.
Qed.

Lemma child_guard_false h c j x m :
  (c <? length h)%nat && priorityLess h c j = false →
  h !! c = Some m → h !! j = Some x → (priority x <= priority m)%Q.
Proof.
  intros [H|H]%andb_false_iff Hc Hj.
  - apply Nat.ltb_ge in H. apply lookup_lt_Some in Hc. lia.
  - by apply (priorityLess_false h c j).
Qed.

Lemma child_guard_true h c j :
  (c <? length h)%nat && priorityLess h c j = true →
  ∃ y x, h !! c = Some y ∧ h !! j = Some x ∧ (priority y < priority x)%Q.
Proof. intros [_ H]%andb_true_iff. by apply priorityLess_true. Qed.

Lemma smallestOf_spec h k x :
  h !! k = Some x →
  (smallestOf h k = k ∧
   ∀ c m, child k c → h !! c = Some m → (priority x <= priority m)%Q)
  ∨ (child k (smallestOf h k) ∧
     ∃ y, h !! smallestOf h k = Some y ∧ (priority y < priority x)%Q ∧
          ∀ c m, child k c → h !! c = Some m → (priority y <= priority m)%Q).
Proof.
  intros Hk. unfold smallestOf.
  destruct ((2 * k + 1 <? length h)%nat && priorityLess h (2 * k + 1) k) eqn:EL.
  - apply child_guard_true in EL as (yl & x' & Hl & Hk' & Hlt).
    assert (x' = x) as -> by congruence.
    destruct ((2 * k + 2 <? length h)%nat
              && priorityLess h (2 * k + 2) (2 * k + 1)) eqn:ER.
    + apply child_guard_true in ER as (yr & yl' & Hr & Hl' & Hlt').
      assert (yl' = yl) as -> by congruence.
      right. split; [unfold child; lia|]. exists yr. split; [done|]. split.
      * by apply Qlt_trans with (priority yl).
      * intros c m [->| ->] Hm; simplify_eq.
        -- by apply Qlt_le_weak.
        -- apply Qle_refl.
    + right. split; [unfold child; lia|]. exists yl. split; [done|].
      split; [done|].
      intros c m [->| ->] Hm; simplify_eq.
      * apply Qle_refl.
      * by apply (child_guard_false h (2 * k + 2) (2 * k + 1)).
  - destruct ((2 * k + 2 <? length h)%nat && priorityLess h (2 * k + 2) k) eqn:ER.
    + apply child_guard_true in ER as (yr & x' & Hr & Hk' & Hlt).
      assert (x' = x) as -> by congruence.
      right. split; [unfold child; lia|]. exists yr. split; [done|].
      split; [done|].
      intros c m [->| ->] Hm; simplify_eq.
      * apply Qle_trans with (priority x); [by apply Qlt_le_weak|].
        by apply (child_guard_false h (2 * k + 1) k).
      * apply Qle_refl.
    + left. split; [done|].
      intros c m [->| ->] Hm.
      * by apply (child_guard_false h (2 * k + 1) k).
      * by apply (child_guard_false h (2 * k + 2) k).
Qed.

Lemma downOK_swap h k s x y :
  downOK h k → child k s → h !! k = Some x → h !! s = Some y →
  (priority y < priority x)%Q →
  (∀ c m, child k c → h !! c = Some m → (priority y <= priority m)%Q) →
  downOK (swap h k s) s.
Proof.
  intros [H1 H2] Hc Hx Hy Hlt Hmin.
  assert (Hle : (priority y <= priority x)%Q) by by apply Qlt_le_weak.
  assert (H3 : ∀ c m, (c = 2 * k + 1 ∨ c = 2 * k + 2)%nat →
                      h !! c = Some m → (priority y <= priority m)%Q) by exact Hmin.
  unfold child in Hc.
  split.
  - intros i j Hij Hne n m. rewrite !(swap_lookup h k s x y) by done.
    unfold child in Hij.
    repeat case_decide; intros; simplify_eq; try lia;
      first [ heap_le H1 H2 | eapply H3; [|eassumption]; lia ].
  - intros q c Hq Hcc n m. rewrite !(swap_lookup h k s x y) by done.
    unfold child in Hq, Hcc.
    repeat case_decide; intros; simplify_eq; try lia;
      first [ heap_le H1 H2 | eapply H3; [|eassumption]; lia ].
Qed.

Lemma bubbleDown_fuel_length fuel h k : length (bubbleDown_fuel fuel h k) = length h.
Proof.
  revert h k. induction fuel as [|fuel IH]; intros h k; cbn [bubbleDown_fuel]; [done|].
  destruct (smallestOf h k =? k)%nat; [done|].
  by rewrite IH, swap_length.
Qed.

Lemma bubbleDown_fuel_Permutation fuel h k : bubbleDown_fuel fuel h k ≡ₚ h.
Proof.
  revert h k. induction fuel as [|fuel IH]; intros h k; cbn [bubbleDown_fuel]; [done|].
  destruct (smallestOf h k =? k)%nat; [done|].
  by rewrite IH, swap_Permutation.
Qed.

Lemma smallestOf_range h k :
  smallestOf h k = k ∨ (child k (smallestOf h k) ∧ (smallestOf h k < length h)%nat).
Proof.
  unfold smallestOf, child.
  destruct ((2 * k + 1 <? length h)%nat && priorityLess h (2 * k + 1) k) eqn:EL;
    [apply andb_true_iff in EL as [EL%Nat.ltb_lt _]|].
  - destruct ((2 * k + 2 <? length h)%nat
              && priorityLess h (2 * k + 2) (2 * k + 1)) eqn:ER;
      [apply andb_true_iff in ER as [ER%Nat.ltb_lt _]|]; right; lia.
  - destruct ((2 * k + 2 <? length h)%nat && priorityLess h (2 * k + 2) k) eqn:ER;
      [apply andb_true_iff in ER as [ER%Nat.ltb_lt _]; right; lia | by left].
Qed.

Lemma bubbleDown_fuel_enough fuel h k :
  (length h - k ≤ fuel)%nat →
  bubbleDown_fuel fuel h k = bubbleDown_fuel (length h - k) h k.
Proof.
  remember (length h - k)%nat as d eqn:Hd.
  revert fuel h k Hd. induction d as [d IH] using lt_wf_ind. intros fuel h k Hd Hf.
  destruct (smallestOf_range h k) as [E|[Hc Hlt]].
  { destruct fuel, d; cbn [bubbleDown_fuel]; rewrite ?E, ?Nat.eqb_refl; done. }
  apply child_lt in Hc.
  destruct d as [|d']; [lia|]. destruct fuel as [|fuel]; [lia|].
  cbn [bubbleDown_fuel].
  destruct (smallestOf h k =? k)%nat; [done|].
  rewrite (IH (length h - smallestOf h k)%nat);
    [|rewrite ?swap_length; lia..].
  symmetry. rewrite (IH (length h - smallestOf h k)%nat);
    [|rewrite ?swap_length; lia..].
  done.
Qed.

(** The recursion equation of [_bubbleDown], as the source states it. *)
Lemma bubbleDown_unfold h index :
  _bubbleDown h index =
    let smallest := smallestOf h index in
    if (smallest =? index)%nat then h
    else _bubbleDown (swap h index smallest) smallest.
Proof.
  unfold _bubbleDown. cbv zeta.
  destruct (smallestOf_range h index) as [E|[Hc Hlt]].
  { rewrite E, Nat.eqb_refl.
    destruct (length h - index)%nat; cbn [bubbleDown_fuel];
      rewrite ?E, ?Nat.eqb_refl; done. }
  apply child_lt in Hc.
  destruct (length h - index)%nat as [|d] eqn:Hd; [lia|].
  cbn [bubbleDown_fuel].
  destruct (smallestOf h index =? index)%nat; [done|].
  apply bubbleDown_fuel_enough. rewrite swap_length. lia.
Qed.

Lemma bubbleDown_fuel_ordered fuel h k :
  (length h - k ≤ fuel)%nat → (k < length h)%nat → downOK h k →
  heapOrdered (bubbleDown_fuel fuel h k).
Proof.
  revert h k. induction fuel as [|fuel IH]; intros h k Hf Hk Hdown; [lia|].
  cbn [bubbleDown_fuel].
  destruct (lookup_lt_is_Some_2 h k Hk) as [x Hx].
  destruct (smallestOf_spec h k x Hx) as [[E Hmin]|(Hc & y & Hy & Hlt & Hmin)].
  - rewrite E, Nat.eqb_refl. apply (downOK_done h k Hdown).
    intros c Hc n m Hn Hm. assert (n = x) as -> by congruence. by apply (Hmin c).
  - pose proof (child_lt _ _ Hc) as Hks.
    pose proof (lookup_lt_Some _ _ _ Hy) as Hs.
    destruct (smallestOf h k =? k)%nat eqn:E; [apply Nat.eqb_eq in E; lia|].
    apply IH; rewrite ?swap_length; [lia|lia|].
    by apply (downOK_swap h k _ x y).
Qed.

(** *** Removing the minimum *)

(** The shape of a heap with at least two nodes: [pop()] moves the last
    node to the root. *)
Lemma popNode_cons2 (min : node A) (rest : list (node A)) :
  rest ≠ [] →
  ∃ body l, rest = body ++ [l] ∧
            popNode (min :: rest) = (Some min, _bubbleDown (l :: body) 0).
Proof.
  intros Hne. destruct (last rest) as [l|] eqn:Hl.
  - apply last_Some in Hl as [body ->]. exists body, l. split; [done|].
    unfold popNode. destruct (body ++ [l]) eqn:E.
    { by destruct body. }
    rewrite <- E. rewrite last_snoc, removelast_last. done.
  - apply last_None in Hl. done.
Qed.

Lemma popNode_nil_inv h h' : popNode h = (None, h') → h = [] ∧ h' = [].
Proof.
  destruct h as [|min [|x rest]]; simpl; [by intros [= <-]|done|].
  destruct (last (x :: rest)); done.
Qed.

Lemma popNode_head h n h' : popNode h = (Some n, h') → h !! 0%nat = Some n.
Proof.
  destruct h as [|min [|x rest]]; simpl; [done|by intros [= <- _]|].
  destruct (last (x :: rest)); by intros [= <- _].
Qed.

Lemma popNode_Permutation h n h' : popNode h = (Some n, h') → h ≡ₚ n :: h'.
Proof.
  destruct h as [|min rest]; [done|].
  destruct (decide (rest = [])) as [->|Hne].
  { simpl. by intros [= <- <-]. }
  destruct (popNode_cons2 min rest Hne) as (body & l & -> & ->).
  intros [= <- <-]. unfold _bubbleDown. rewrite bubbleDown_fuel_Permutation.
  constructor. symmetry. apply Permutation_cons_append.
Qed.

Lemma popNode_length h n h' : popNode h = (Some n, h') → length h = S (length h').
Proof. intros H%popNode_Permutation. by rewrite H. Qed.

Lemma downOK_replace_root (min : node A) (body : list (node A)) (l : node A) :
  heapOrdered (min :: body ++ [l]) → downOK (l :: body) 0.
Proof.
  intros Hh. split.
  - intros i j Hij Hne a b Ha Hb.
    pose proof (child_lt _ _ Hij).
    destruct i as [|i']; [done|]. destruct j as [|j']; [lia|].
    simpl in Ha, Hb.
    apply (Hh (S i') (S j') Hij); simpl; by apply lookup_app_l_Some.
  - intros p c Hp%child_lt. lia.
Qed.

Lemma popNode_ordered h n h' :
  heapOrdered h → popNode h = (Some n, h') → heapOrdered h'.
Proof.
  intros Hh. destruct h as [|min rest]; [done|].
  destruct (decide (rest = [])) as [->|Hne].
  { simpl. intros [= _ <-]. intros i j _ a b Ha. done. }
  destruct (popNode_cons2 min rest Hne) as (body & l & -> & ->).
  intros [= _ <-]. unfold _bubbleDown.
  apply bubbleDown_fuel_ordered; simpl; [lia|lia|].
  by apply (downOK_replace_root min).
Qed.

(** The root of an ordered heap carries the least priority. *)
Lemma root_minimal h r :
  heapOrdered h → h !! 0%nat = Some r →
  ∀ i n, h !! i = Some n → (priority r <= priority n)%Q.
Proof.
  intros Hh Hr i. induction i as [i IH] using lt_wf_ind. intros n Hn.
  destruct i as [|i'].
  { assert (n = r) as -> by congruence. apply Qle_refl. }
  pose proof (child_parent (S i') ltac:(lia)) as Hc.
  pose proof (child_lt _ _ Hc) as Hlt.
  destruct (lookup_lt_is_Some_2 h ((S i' - 1) / 2)) as [p Hp].
  { apply lookup_lt_Some in Hn. lia. }
  apply Qle_trans with (priority p).
  - by apply (IH ((S i' - 1) / 2)%nat).
  - by apply (Hh _ _ Hc).
Qed.

Lemma popNode_minimal h n h' :
  heapOrdered h → popNode h = (Some n, h') →
  ∀ m, m ∈ h' → (priority n <= priority m)%Q.
Proof.
  intros Hh Hpop m Hm.
  assert (m ∈ h) as [i Hi]%list_elem_of_lookup.
  { rewrite (popNode_Permutation _ _ _ Hpop). by right. }
  eapply root_minimal; [done|by eapply popNode_head|done].
Qed.

(** *** Draining the heap *)

Lemma drain_subset k h m : m ∈ drain k h → m ∈ h.
Proof.
  revert h. induction k as [|k IH]; intros h; simpl; [by intros ?%elem_of_nil|].
  destruct (popNode h) as [[n|] h'] eqn:Hpop; [|by intros ?%elem_of_nil].
  rewrite (popNode_Permutation _ _ _ Hpop).
  intros [->|Hin]%elem_of_cons; [by left|]. right. by apply IH.
Qed.

Lemma drain_sorted k h :
  heapOrdered h → StronglySorted priorityLe (drain k h).
Proof.
  revert h. induction k as [|k IH]; intros h Hh; simpl; [constructor|].
  destruct (popNode h) as [[n|] h'] eqn:Hpop; [|constructor].
  constructor.
  - apply IH. by eapply popNode_ordered.
  - apply Forall_forall. intros m Hm%drain_subset.
    by eapply popNode_minimal.
Qed.

Lemma drain_Permutation k h : (length h ≤ k)%nat → drain k h ≡ₚ h.
Proof.
  revert h. induction k as [|k IH]; intros h Hk; simpl.
  - by destruct h; [|simpl in Hk; lia].
  - destruct (popNode h) as [[n|] h'] eqn:Hpop.
    + rewrite (popNode_Permutation _ _ _ Hpop). constructor.
      apply IH. apply popNode_length in Hpop. lia.
    + by apply popNode_nil_inv in Hpop as [-> _].
Qed.

Lemma heapOrdered_nil : heapOrdered (@nil (node A)).
Proof. intros i j _ a b Ha. done. Qed.

End QueueFacts.


(** * Facts about the scheduler *)

Lemma pop_popNode {A} (h : list (node A)) :
  pop h = (item <$> (popNode h).1, (popNode h).2).
Proof. unfold pop. by destruct (popNode h). Qed.

Lemma isEmpty_false_popNode {A} (h : list (node A)) :
  isEmpty h = false → ∃ n h', popNode h = (Some n, h').
Proof.
  destruct h as [|mn rest]; [done|]. intros _.
  destruct (decide (rest = [])) as [->|Hne]; [by eexists _, _|].
  destruct (popNode_cons2 mn rest Hne) as (body & l & _ & ->). by eexists _, _.
Qed.

Lemma getNextEntity_fuel_entry fuel σ s :
  getNextEntity_fuel fuel σ s =
    (item <$> (getNextEntry_fuel fuel σ s).1, (getNextEntry_fuel fuel σ s).2).
Proof.
  revert s. induction fuel as [|fuel IH]; intros s; [done|].
  cbn [getNextEntity_fuel getNextEntry_fuel].
  destruct (isEmpty (queue s)); [done|].
  rewrite pop_popNode. destruct (popNode (queue s)) as [[n|] q']; simpl; [|apply IH].
  destruct (σ !! item n) as [e|]; [|apply IH].
  destruct (negb (e_active e)); [apply IH|done].
Qed.

(** [getNextEntity] returns the item of the entry that [getNextEntry]
    reports, and leaves the scheduler in the same state. *)
Lemma getNextEntity_entry σ s :
  getNextEntity σ s = (item <$> (getNextEntry σ s).1, (getNextEntry σ s).2).
Proof. apply getNextEntity_fuel_entry. Qed.

Lemma getNextEntity_fuel_enough fuel σ s :
  (length (queue s) < fuel)%nat →
  getNextEntity_fuel fuel σ s = getNextEntity_fuel (S (length (queue s))) σ s.
Proof.
  revert s. induction fuel as [|fuel IH]; intros s Hf; [lia|].
  cbn [getNextEntity_fuel].
  destruct (isEmpty (queue s)) eqn:E; [done|].
  destruct (isEmpty_false_popNode _ E) as (n & q' & Hpop).
  rewrite pop_popNode, Hpop. simpl.
  pose proof (popNode_length _ _ _ Hpop) as Hlen.
  assert (Hrec : getNextEntity_fuel fuel σ (mkScheduler q' (currentTime s))
                 = getNextEntity_fuel (length (queue s)) σ (mkScheduler q' (currentTime s))).
  { rewrite IH by (simpl; lia). simpl. by rewrite Hlen. }
  destruct (σ !! item n) as [e|]; [|done].
  destruct (negb (e_active e)); done.
Qed.

(** The recursion equation of [getNextEntity], as the source states it:
    the fuel never runs out. *)
Lemma getNextEntity_unfold σ s :
  getNextEntity σ s =
    if isEmpty (queue s) then (None, s)
    else
      let '(entity, queue') := pop (queue s) in
      let s' := mkScheduler queue' (currentTime s) in
      match entity with
      | None => getNextEntity σ s'
      | Some r =>
          match σ !! r with
          | None => getNextEntity σ s'
          | Some e =>
              if negb (e_active e) then getNextEntity σ s'
              else (Some r, mkScheduler queue' (getNextActionTime e))
          end
      end.
Proof.
  unfold getNextEntity at 1. cbn [getNextEntity_fuel].
  destruct (isEmpty (queue s)) eqn:E; [done|].
  destruct (isEmpty_false_popNode _ E) as (n & q' & Hpop).
  rewrite pop_popNode, Hpop. simpl.
  pose proof (popNode_length _ _ _ Hpop) as Hlen.
  assert (Hrec : getNextEntity_fuel (length (queue s)) σ (mkScheduler q' (currentTime s))
                 = getNextEntity σ (mkScheduler q' (currentTime s))).
  { unfold getNextEntity. simpl. by rewrite Hlen. }
  destruct (σ !! item n) as [e|]; [|done].
  destruct (negb (e_active e)); done.
Qed.








Lemma dispatchRefs_log ops σ s :
  dispatchRefs ops σ s = (λ d, item d.1) <$> dispatchLog ops σ s.
Proof.
  revert σ s. induction ops as [|[|r b] ops IH]; intros σ s; simpl; [done| |done].
  rewrite getNextEntity_entry.
  destruct (getNextEntry σ s) as [[n|] s']; simpl; by rewrite IH.
Qed.

(** *** Entries and next-action times *)

Lemma mutate_lookup f r (σ : Store) : mutate f r σ !! r = f <$> σ !! r.
Proof. apply list_lookup_alter_eq. Qed.

Lemma mutate_lookup_ne f r r' (σ : Store) : r ≠ r' → mutate f r σ !! r' = σ !! r'.
Proof. intros. by apply list_lookup_alter_ne. Qed.

Lemma mutate_length f r (σ : Store) : length (mutate f r σ) = length σ.
Proof. apply length_alter. Qed.








(** * Scheduler ordering *)



(** With the store left alone, [k] calls of [getNextEntity] dispatch the
    first [k] active entries of the sorted drain of the queue: nothing
    that is active is lost or reordered. *)
Lemma drain_enough {A} k (h : list (node A)) :
  (length h ≤ k)%nat → drain k h = drain (length h) h.
Proof.
  revert h. induction k as [|k IH]; intros h Hk.
  { by destruct h; [|simpl in Hk; lia]. }
  destruct h as [|mn rest]; [done|].
  change (length (mn :: rest)) with (S (length rest)).
  cbn [drain]. destruct (popNode (mn :: rest)) as [[n|] h'] eqn:Hpop; [|done].
  pose proof (popNode_length _ _ _ Hpop) as Hlen. simpl in Hlen, Hk.
  f_equal. rewrite IH by lia. f_equal. lia.
Qed.

Lemma getNextEntry_fuel_drain fuel σ s :
  (length (queue s) < fuel)%nat →
  List.filter (activeIn σ) (drain (length (queue s)) (queue s)) =
    match getNextEntry_fuel fuel σ s with
    | (Some n, s') =>
        n :: List.filter (activeIn σ) (drain (length (queue s')) (queue s'))
    | (None, _) => []
    end
  ∧ ((getNextEntry_fuel fuel σ s).1 = None → queue (getNextEntry_fuel fuel σ s).2 = []).
Proof.
  revert s. induction fuel as [|fuel IH]; intros s Hf; [lia|].
  cbn [getNextEntry_fuel].
  destruct (isEmpty (queue s)) eqn:E.
  { destruct (queue s) eqn:Q; [|done]. simpl. by rewrite Q. }
  destruct (isEmpty_false_popNode _ E) as (n & q' & Hpop). rewrite Hpop.
  pose proof (popNode_length _ _ _ Hpop) as Hlen. rewrite Hlen.
  cbn [drain]. rewrite Hpop. cbn [List.filter]. unfold activeIn at 1.
  specialize (IH (mkScheduler q' (currentTime s))). simpl in IH.
  destruct (σ !! item n) as [e|] eqn:He; [|apply IH; lia].
  destruct (e_active e) eqn:Ha; simpl; [done|apply IH; lia].
Qed.

Lemma dispatchLog_complete k σ s :
  fst <$> dispatchLog (replicate k GetNext) σ s =
    take k (List.filter (activeIn σ) (drain (length (queue s)) (queue s))).
Proof.
  revert s. induction k as [|k IH]; intros s; simpl; [done|].
  destruct (getNextEntry_fuel_drain (S (length (queue s))) σ s ltac:(lia)) as [H1 H2].
  fold (getNextEntry σ s) in H1, H2. rewrite H1.
  destruct (getNextEntry σ s) as [[n|] s'].
  - rewrite fmap_cons. cbn [take fst]. f_equal. apply IH.
  - rewrite IH. simpl in H2. rewrite H2 by done. simpl. by destruct k.
Qed.


(** * Removal from the world and dispatch *)

Lemma switchedOff_mutate f r r' σ :
  (∀ e, e_active e = false → e_active (f e) = false) →
  switchedOff σ r → switchedOff (mutate f r' σ) r.
Proof.
  intros Hf (e & He & Ha). destruct (decide (r' = r)) as [->|Hne].
  - exists (f e). rewrite mutate_lookup, He. auto.
  - exists e. by rewrite mutate_lookup_ne.
Qed.

Lemma switchedOff_alloc e σ r : switchedOff σ r → switchedOff (alloc e σ).2 r.
Proof.
  intros (e' & He & Ha). exists e'. split; [|done].
  simpl. by apply lookup_app_l_Some.
Qed.

Lemma getNextEntity_fuel_active fuel σ s r s' :
  getNextEntity_fuel fuel σ s = (Some r, s') →
  ∃ e, σ !! r = Some e ∧ e_active e = true.
Proof.
  revert s. induction fuel as [|fuel IH]; intros s; cbn [getNextEntity_fuel]; [done|].
  destruct (isEmpty (queue s)); [done|].
  destruct (pop (queue s)) as [[r'|] q']; [|apply IH].
  destruct (σ !! r') as [e|] eqn:He; [|apply IH].
  destruct (negb (e_active e)) eqn:Ha; [apply IH|].
  intros [= <- <-]. exists e. by apply negb_false_iff in Ha.
Qed.

(** [getNextEntity] returns active entities only. *)
Lemma getNextEntity_active σ s r s' :
  getNextEntity σ s = (Some r, s') → ∃ e, σ !! r = Some e ∧ e_active e = true.
Proof. apply getNextEntity_fuel_active. Qed.

Lemma stepWorld_switchedOff op st r :
  switchedOff (sim_store st) r → switchedOff (sim_store (stepWorld op st).2) r.
Proof.
  intros Hoff. destruct op as [r' d| |e|entityId|r']; simpl.
  - unfold schedule. destruct (sim_store st !! r') as [e|]; [|done].
    destruct (negb (e_active e)); [done|]. simpl.
    by apply switchedOff_mutate.
  - by destruct (getNextEntity (sim_store st) (sim_sched st)).
  - by apply (switchedOff_alloc e).
  - unfold removeEntity. destruct (entities (sim_world st) !! entityId); [|done].
    simpl. by apply switchedOff_mutate.
  - by apply switchedOff_mutate.
Qed.

Lemma stepWorld_dispatch_active op st r :
  (stepWorld op st).1 = Some r →
  ∃ e, sim_store st !! r = Some e ∧ e_active e = true.
Proof.
  destruct op as [r' d| |e|entityId|r']; simpl.
  - by destruct (schedule (sim_store st) (sim_sched st) r' d).
  - destruct (getNextEntity (sim_store st) (sim_sched st)) as [r0 s'] eqn:Hrun.
    simpl. intros ->. by eapply getNextEntity_active.
  - done.
  - by destruct (removeEntity (sim_store st) (sim_world st) entityId) as [[? ?] ?].
  - done.
Qed.

Lemma switchedOff_not_dispatched ops st r :
  switchedOff (sim_store st) r → r ∉ dispatched ops st.
Proof.
  revert st. induction ops as [|op ops IH]; intros st Hoff; simpl.
  { apply not_elem_of_nil. }
  pose proof (stepWorld_switchedOff op st r Hoff) as Hoff'.
  pose proof (stepWorld_dispatch_active op st) as Hact.
  destruct (stepWorld op st) as [[r'|] st']; simpl in *; [|by apply IH].
  apply not_elem_of_cons. split; [|by apply IH].
  intros E. destruct (Hact r' eq_refl) as (e & He & Ha).
  destruct Hoff as (e' & He' & Ha'). congruence.
Qed.

(** C10.  [removeEntity] on a registered entity reports success, switches
    the entity off and deletes its registry entry, while the scheduler
    queue keeps whatever entries it holds; along every later run of
    [schedule], [getNextEntity], [addEntity], [removeEntity] and
    [deactivate] calls the removed entity is never dispatched. *)
Theorem removed_never_dispatched
    (σ : Store) (w : World) (s : Scheduler) (entityId : string)
    (r : ref) (e : Entity) (ops : list WorldOp) :
  entities w !! entityId = Some r →
  σ !! r = Some e →
  let '(res, σ', w') := removeEntity σ w entityId in
  res = true
  ∧ σ' !! r = Some (deactivate e)
  ∧ entities w' !! entityId = None
  ∧ (stepWorld (WRemove entityId) (mkSim σ w s)).2 = mkSim σ' w' s
  ∧ r ∉ dispatched ops (mkSim σ' w' s).
Proof.
  intros Hreg He. unfold stepWorld, removeEntity. rewrite Hreg.
  split; [done|].
  assert (Hlook : mutate deactivate r σ !! r = Some (deactivate e)).
  { by rewrite mutate_lookup, He. }
  split; [done|]. split.
  { destruct (decide (player w = Some r)); simpl; apply lookup_delete_eq. }
  split; [simpl; by rewrite Hreg|].
  apply switchedOff_not_dispatched. simpl. by exists (deactivate e).
Qed.

Lemma removed_never_dispatched_witness :
  let '(res, σ', w') := removeEntity twoActors twoActorWorld "goblin_1" in
  res = true
  ∧ σ' !! 0%nat = Some (deactivate (newEntity "goblin_1" "monster" 0 0))
  ∧ entities w' !! "goblin_1" = None
  ∧ (stepWorld (WRemove "goblin_1") (mkSim twoActors twoActorWorld twoActorQueue)).2
    = mkSim σ' w' twoActorQueue
  ∧ 0%nat ∉ dispatched laterRun (mkSim σ' w' twoActorQueue).
Proof.
  apply (removed_never_dispatched twoActors twoActorWorld twoActorQueue "goblin_1"
           0%nat (newEntity "goblin_1" "monster" 0 0) laterRun);
    vm_compute; reflexivity.
Defined.


(** * The skill cap *)

Lemma levelUpLoop_level fuel maxLevel sk b :
  skill_level sk ≤ skill_level (levelUpLoop fuel maxLevel sk b).1
  ∧ skill_level (levelUpLoop fuel maxLevel sk b).1 ≤ Z.max (skill_level sk) maxLevel.
Proof.
  revert sk b. induction fuel as [|fuel IH]; intros sk b; cbn [levelUpLoop].
  { simpl. lia. }
  destruct (levelUpDue maxLevel sk) eqn:Hdue; [|simpl; lia].
  apply andb_true_iff in Hdue as [_ Hlt%Z.ltb_lt].
  destruct (IH (levelUpOnce sk) true) as [H1 H2]. simpl in H1, H2. lia.
Qed.

(** With the fuel that [gainSkillExperience] supplies the loop ends
    because its condition fails, not because the fuel is used up. *)
Lemma levelUpLoop_done fuel maxLevel sk b :
  maxLevel - skill_level sk ≤ Z.of_nat fuel →
  levelUpDue maxLevel (levelUpLoop fuel maxLevel sk b).1 = false.
Proof.
  revert sk b. induction fuel as [|fuel IH]; intros sk b Hf; cbn [levelUpLoop].
  - simpl. unfold levelUpDue. apply andb_false_iff. right. apply Z.ltb_ge. lia.
  - destruct (levelUpDue maxLevel sk) eqn:Hdue; [|done].
    apply IH. simpl. lia.
Qed.

Lemma skillsWithinCap_refl e : skillsWithinCap e e.
Proof. split; [done|]. intros name sk Hsk. exists sk. split; [done|]. lia. Qed.

Lemma skillsWithinCap_trans e1 e2 e3 :
  skillsWithinCap e1 e2 → skillsWithinCap e2 e3 → skillsWithinCap e1 e3.
Proof.
  intros [Hc1 H1] [Hc2 H2]. split; [congruence|].
  intros name sk Hsk. destruct (H1 name sk Hsk) as (sk2 & Hsk2 & Hb2).
  destruct (H2 name sk2 Hsk2) as (sk3 & Hsk3 & Hb3).
  exists sk3. split; [done|]. rewrite Hc1 in Hb3. lia.
Qed.

Lemma gainSkillExperience_within σ r' name xp r e :
  σ !! r = Some e →
  ∃ e', (gainSkillExperience σ r' name xp).2 !! r = Some e' ∧ skillsWithinCap e e'.
Proof.
  intros He. unfold gainSkillExperience.
  pose proof (skillsWithinCap_refl e) as Hrefl.
  destruct (σ !! r') as [e0|] eqn:He0; [|by exists e].
  destruct (skills (components e0)) as [sks|] eqn:Hsks; [|by exists e].
  destruct (sks !! name) as [sk|] eqn:Hsk; [|by exists e].
  destruct (maxSkillLevel e0 <=? skill_level sk) eqn:Hcap; [by exists e|].
  apply Z.leb_gt in Hcap.
  set (sk1 := mkSkill (skill_level sk) (skill_experience sk + xp) (skill_maxExperience sk)).
  pose proof (levelUpLoop_level (Z.to_nat (maxSkillLevel e0 - skill_level sk1))
                (maxSkillLevel e0) sk1 false) as [Hlo Hhi].
  destruct (levelUpLoop _ (maxSkillLevel e0) sk1 false) as [sk2 leveledUp].
  simpl in Hlo, Hhi |- *.
  destruct (decide (r' = r)) as [->|Hne]; [|exists e; by rewrite mutate_lookup_ne].
  assert (e0 = e) as -> by congruence.
  rewrite mutate_lookup, He. simpl. eexists. split; [done|].
  split; [done|].
  intros nm s Hs. unfold skillOf in *. simpl. rewrite Hsks in Hs. simpl in Hs.
  destruct (decide (nm = name)) as [->|Hnm].
  - rewrite lookup_insert_eq. exists sk2. split; [done|].
    assert (s = sk) as -> by congruence. lia.
  - rewrite lookup_insert_ne by done. exists s. split; [done|]. lia.
Qed.

Lemma gainAll_within calls σ r e :
  σ !! r = Some e →
  ∃ e', gainAll calls σ !! r = Some e' ∧ skillsWithinCap e e'.
Proof.
  revert σ e. induction calls as [|[[r' name] xp] calls IH]; intros σ e He; simpl.
  { exists e. split; [done|]. apply skillsWithinCap_refl. }
  destruct (gainSkillExperience_within σ r' name xp r e He) as (e1 & He1 & H1).
  destruct (IH _ e1 He1) as (e2 & He2 & H2).
  exists e2. split; [done|]. by eapply skillsWithinCap_trans.
Qed.

(** C7.  Along any sequence of [gainSkillExperience] calls the level of
    every skill of an entity stays at or below the cap
    [maxSkillLevel], which is five times the value of the [level]
    component, provided it starts there, and it never drops; and a call
    for a skill whose level has reached the cap returns [false] and
    leaves the store as it is. *)
Theorem skill_cap (σ : Store) (r : ref) (e : Entity) (name : string) (sk : Skill) :
  σ !! r = Some e →
  skillOf e name = Some sk →
  (∀ lv, level (components e) = Some lv → maxSkillLevel e = level_value lv * 5)
  ∧ (∀ calls,
       skill_level sk ≤ maxSkillLevel e →
       ∃ e' sk', gainAll calls σ !! r = Some e' ∧ skillOf e' name = Some sk'
                 ∧ maxSkillLevel e' = maxSkillLevel e
                 ∧ skill_level sk ≤ skill_level sk' ≤ maxSkillLevel e)
  ∧ (∀ experience,
       maxSkillLevel e ≤ skill_level sk →
       gainSkillExperience σ r name experience = (false, σ)).
Proof.
  intros He Hsk. split; [|split].
  - intros lv Hlv. unfold maxSkillLevel. by rewrite Hlv.
  - intros calls Hle.
    destruct (gainAll_within calls σ r e He) as (e' & He' & Hcap & Hall).
    destruct (Hall name sk Hsk) as (sk' & Hsk' & Hb).
    exists e', sk'. repeat split; [done|done|done|lia|lia].
  - intros xp Hcap. unfold gainSkillExperience. rewrite He.
    unfold skillOf in Hsk. destruct (skills (components e)) as [sks|]; [|done].
    simpl in Hsk. rewrite Hsk.
    apply Z.leb_le in Hcap. by rewrite Hcap.
Qed.


(** * Facts about the combat system *)

Lemma canAttack_distinct a t : canAttack a t = true → e_id a ≠ e_id t.
Proof.
  unfold canAttack. destruct (negb (e_active a) || negb (e_active t)); [done|].
  destruct (String.eqb (e_id a) (e_id t)) eqn:E; [done|].
  intros _. by apply String.eqb_neq.
Qed.


Lemma calculateDamage_floor g a t : (1 <= calculateDamage g a t)%Q.
Proof. unfold calculateDamage. apply Q.le_max_l. Qed.

Lemma calculateDamage_lastAttack g v a t :
  calculateDamage g (update (set_lastAttack v) a) t = calculateDamage g a t.
Proof. reflexivity. Qed.

(** What [attackTarget] does once the two gates are passed. *)
Lemma attackTarget_performed g now rolls attacker target st a t :
  store st !! attacker = Some a → store st !! target = Some t →
  canAttack a t = true → onCooldown g now a = false →
  let a1 := update (set_lastAttack (Some now)) a in
  let st1 := mkState (mutate (update (set_lastAttack (Some now))) attacker (store st))
                     (world st) in
  attacker ≠ target ∧ store st1 !! attacker = Some a1 ∧ store st1 !! target = Some t
  ∧ attackTarget g now rolls attacker target st =
      if rollToHit g (hitRoll rolls) a1 t
      then attackHit g rolls attacker target (calculateDamage g a t) st1
      else attackMiss g rolls target st1.
Proof.
  intros Ha Ht Hcan Hcd a1 st1.
  assert (Hne : attacker ≠ target).
  { intros ->. apply canAttack_distinct in Hcan. congruence. }
  assert (Ha1 : store st1 !! attacker = Some a1).
  { unfold st1. simpl. by rewrite mutate_lookup, Ha. }
  assert (Ht1 : store st1 !! target = Some t).
  { unfold st1. simpl. by rewrite mutate_lookup_ne. }
  split; [done|]. split; [done|]. split; [done|].
  unfold attackTarget. rewrite Ha, Ht, Hcan, Hcd. simpl in Ha1, Ht1. simpl.
  by rewrite Ha1, Ht1.
Qed.

(** The other ways through [attackTarget]. *)
Lemma attackTarget_rejected g now rolls attacker target st :
  match store st !! attacker, store st !! target with
  | Some a, Some t =>
      if canAttack a t then
        onCooldown g now a = true →
        attackTarget g now rolls attacker target st = (OnCooldown, st)
      else attackTarget g now rolls attacker target st = (NotPerformed, st)
  | _, _ => attackTarget g now rolls attacker target st = (NotPerformed, st)
  end.
Proof.
  unfold attackTarget.
  destruct (store st !! attacker) as [a|]; [|done].
  destruct (store st !! target) as [t|]; [|done].
  destruct (canAttack a t); [|done]. simpl. by intros ->.
Qed.

Lemma attackHit_damage g rolls attacker target damage st t :
  store st !! target = Some t →
  damageOf (attackHit g rolls attacker target damage st).1 =
    Some (if checkBlock g (blockRoll rolls) t
          then inject_Z (Qfloor (damage * 0.5)) else damage,
          checkBlock g (blockRoll rolls) t).
Proof.
  intros Ht. unfold attackHit. rewrite Ht.
  set (blocked := checkBlock g (blockRoll rolls) t).
  set (finalDamage := if blocked then _ else _).
  match goal with |- context [createSwingAnimation ?i ?tg ?s] =>
    set (st3 := createSwingAnimation i tg s) end.
  destruct (match store st3 !! target with Some t3 => isDead t3 | None => false end);
    [destruct (handleDeath g (statPicks rolls) target st3)|]; done.
Qed.

Lemma attackMiss_damage g rolls target st :
  damageOf (attackMiss g rolls target st).1 = None.
Proof.
  unfold attackMiss.
  destruct (store (createSwingAnimation (swingId rolls) target st) !! target); [|done].
  by destruct (Qltb _ _).
Qed.

Lemma checkBlock_shield g random t : checkBlock g random t = true → hasShield t = true.
Proof. unfold checkBlock. by destruct (hasShield t). Qed.

(** The damage of a call, in terms of the entities before the call. *)
Lemma attackTarget_damage g now rolls attacker target st d blocked :
  damageOf (attackTarget g now rolls attacker target st).1 = Some (d, blocked) →
  ∃ a t, store st !! attacker = Some a ∧ store st !! target = Some t
         ∧ canAttack a t = true ∧ onCooldown g now a = false
         ∧ blocked = checkBlock g (blockRoll rolls) t
         ∧ d = if blocked then inject_Z (Qfloor (calculateDamage g a t * 0.5))
               else calculateDamage g a t.
Proof.
  intros Hd. pose proof (attackTarget_rejected g now rolls attacker target st) as Hrej.
  destruct (store st !! attacker) as [a|] eqn:Ha; [|by rewrite Hrej in Hd].
  destruct (store st !! target) as [t|] eqn:Ht; [|by rewrite Hrej in Hd].
  destruct (canAttack a t) eqn:Hcan; [|by rewrite Hrej in Hd].
  destruct (onCooldown g now a) eqn:Hcd; [by rewrite Hrej in Hd|].
  destruct (attackTarget_performed g now rolls attacker target st a t Ha Ht Hcan Hcd)
    as (Hne & Ha1 & Ht1 & Heq).
  rewrite Heq in Hd. clear Heq.
  destruct (rollToHit _ _ _ _).
  - rewrite (attackHit_damage _ _ _ _ _ _ t Ht1) in Hd. injection Hd as <- <-.
    exists a, t. done.
  - by rewrite attackMiss_damage in Hd.
Qed.


(** * The damage floor *)

Lemma Qfloor_nonneg (q : Q) : (0 <= q)%Q → 0 ≤ Qfloor q.
Proof. intros H. change 0 with (Qfloor 0). by apply Qfloor_resp_le. Qed.

(** C3, as the code has it.  [calculateDamage] returns
    [max(1, baseDamage − defense)], so at least 1.  A call of
    [attackTarget] that reaches [applyDamage] passes that value when the
    defender does not block; when the defender blocks, which needs a
    shield, it passes the floor of half of it, which is at least 0, and
    is 0 when the value is below 2. *)
Theorem damage_floor (g : Game) (now : Z) (rolls : Rolls) (attacker target : ref)
    (st : GameState) :
  (∀ a t,
     calculateDamage g a t
       = Qmax 1 (dr_damage (equipmentDamage g a) - calculateDefense g t)
     ∧ (1 <= calculateDamage g a t)%Q)
  ∧ ∀ d blocked,
      damageOf (attackTarget g now rolls attacker target st).1 = Some (d, blocked) →
      ∃ a t, store st !! attacker = Some a ∧ store st !! target = Some t
             ∧ (d = if blocked
                    then inject_Z (Qfloor (calculateDamage g a t * 0.5))
                    else calculateDamage g a t)
             ∧ (0 <= d)%Q
             ∧ (blocked = false → (1 <= d)%Q)
             ∧ (blocked = true → hasShield t = true)
             ∧ (blocked = true → (calculateDamage g a t < 2)%Q → d = 0%Q).
Proof.
  split.
  { intros a t. split; [done|apply calculateDamage_floor]. }
  intros d blocked Hd.
  destruct (attackTarget_damage _ _ _ _ _ _ _ _ Hd)
    as (a & t & Ha & Ht & _ & _ & Hb & ->).
  pose proof (calculateDamage_floor g a t) as H1.
  exists a, t. split; [done|]. split; [done|]. split; [done|].
  split; [|split].
  - destruct blocked.
    + rewrite <- (Zle_Qle 0). apply Qfloor_nonneg.
      apply Qmult_le_0_compat; [|done]. by apply Qle_trans with 1%Q.
    + by apply Qle_trans with 1%Q.
  - by intros ->.
  - split.
    + intros ->. symmetry in Hb. by apply checkBlock_shield in Hb.
    + intros -> Hlt. unfold inject_Z. f_equal.
      assert (Hlo : 0 ≤ Qfloor (calculateDamage g a t * 0.5)).
      { apply Qfloor_nonneg. apply Qmult_le_0_compat; [|done].
        by apply Qle_trans with 1%Q. }
      assert (Hhi : Qfloor (calculateDamage g a t * 0.5) < 1).
      { rewrite Zlt_Qlt. eapply Qle_lt_trans; [apply Qfloor_le|].
        apply Qlt_le_trans with (2 * 0.5)%Q; [by apply Qmult_lt_compat_r|].
        by vm_compute. }
      lia.
Qed.

(** C3 fails as stated: a hit for damage 1 that the defender blocks
    passes [Math.floor(1 * 0.5) = 0] to [applyDamage], and the health of
    the defender stays at 50. *)
Lemma blocked_hit_deals_no_damage :
  calculateDamage theGame theGoblin (thePlayer shieldedEquipment) = 1%Q
  ∧ (attackTarget theGame 7000 blockedRolls 1%nat 0%nat (arena shieldedEquipment)).1
    = Hit 0 true
  ∧ (λ e, health (components e))
      <$> store (attackTarget theGame 7000 blockedRolls 1%nat 0%nat
                   (arena shieldedEquipment)).2 !! 0%nat
    = Some (Some (mkHealth 50 50)).
Proof. vm_compute. done. Qed.


(** * Dodge experience *)

Lemma createSwingAnimation_lookup id target st r e :
  store st !! r = Some e → store (createSwingAnimation id target st) !! r = Some e.
Proof.
  intros He. unfold createSwingAnimation.
  destruct (store st !! target) as [t|]; [|done]. simpl.
  by apply lookup_app_l_Some.
Qed.

(** C4, as the code has it.  When [attackTarget] ends in its miss branch,
    the defender is said to dodge exactly when a fresh draw, scaled to
    [0, 100), falls below its dodge chance; with the skills system
    installed this, and nothing else, makes the call
    [gainSkillExperience(target, 'dodge', 3)].  The draw of [rollToHit]
    that decided the miss plays no part. *)
Theorem dodge_experience (g : Game) (now : Z) (rolls : Rolls) (attacker target : ref)
    (st : GameState) (dodged : bool) :
  (attackTarget g now rolls attacker target st).1 = Miss dodged →
  ∃ a t, store st !! attacker = Some a ∧ store st !! target = Some t
    ∧ rollToHit g (hitRoll rolls) (update (set_lastAttack (Some now)) a) t = false
    ∧ dodged = Qltb (dodgeRoll rolls * 100) (calculateDodge g t)
    ∧ let st1 := beforeDodgeCheck now rolls attacker target st in
      (attackTarget g now rolls attacker target st).2 =
        if dodged && skillsSystem g
        then mkState (gainSkillExperience (store st1) target "dodge" 3).2 (world st1)
        else st1.
Proof.
  intros Ho. pose proof (attackTarget_rejected g now rolls attacker target st) as Hrej.
  destruct (store st !! attacker) as [a|] eqn:Ha; [|by rewrite Hrej in Ho].
  destruct (store st !! target) as [t|] eqn:Ht; [|by rewrite Hrej in Ho].
  destruct (canAttack a t) eqn:Hcan; [|by rewrite Hrej in Ho].
  destruct (onCooldown g now a) eqn:Hcd; [by rewrite Hrej in Ho|].
  destruct (attackTarget_performed g now rolls attacker target st a t Ha Ht Hcan Hcd)
    as (Hne & Ha1 & Ht1 & Heq).
  rewrite Heq in Ho |- *. clear Heq Hrej.
  exists a, t. split; [done|]. split; [done|].
  destruct (rollToHit _ _ _ _) eqn:Hroll.
  { pose proof (attackHit_damage g rolls attacker target (calculateDamage g a t) _ t Ht1)
      as Hd. rewrite Ho in Hd. done. }
  split; [done|].
  unfold beforeDodgeCheck. unfold attackMiss in Ho |- *.
  rewrite (createSwingAnimation_lookup _ _ _ _ _ Ht1) in Ho |- *.
  destruct (Qltb (dodgeRoll rolls * 100) (calculateDodge g t)); simpl in Ho |- *.
  - injection Ho as <-. split; [done|]. simpl. by destruct (skillsSystem g).
  - injection Ho as <-. done.
Qed.

(** C4 fails as stated, in both directions.  A roll of 99 misses whatever
    the defender does, since no hit chance exceeds 95, and the defender
    still gains dodge experience because the second draw is 0.  A roll of
    50 misses only because of the dodge chance (it is below 58 and not
    below 48), and the defender gains nothing because the second draw is
    50. *)
Lemma dodge_experience_unrelated_to_cause :
  ((hitChanceWithoutDodge (mkStats 12 14 6 12 8) == 58
    ∧ finalHitChance theGame (mkStats 12 14 6 12 8) (thePlayer playerEquipment) == 48)%Q
   ∧ (attackTarget theGame 7000 wildMissRolls 1%nat 0%nat (arena playerEquipment)).1
     = Miss true
   ∧ (λ e, skillOf e "dodge")
       <$> store (attackTarget theGame 7000 wildMissRolls 1%nat 0%nat
                    (arena playerEquipment)).2 !! 0%nat
     = Some (Some (mkSkill 0 3 20)))
  ∧ ((attackTarget theGame 7000 dodgedMissRolls 1%nat 0%nat (arena playerEquipment)).1
     = Miss false
     ∧ (λ e, skillOf e "dodge")
         <$> store (attackTarget theGame 7000 dodgedMissRolls 1%nat 0%nat
                      (arena playerEquipment)).2 !! 0%nat
       = Some (Some (mkSkill 0 0 20))).
Proof. vm_compute. done. Qed.


(** * The attack cooldown *)

Lemma keepsLastAttack_refl σ : keepsLastAttack σ σ.
Proof. intros r e He. by exists e. Qed.

Lemma keepsLastAttack_trans σ1 σ2 σ3 :
  keepsLastAttack σ1 σ2 → keepsLastAttack σ2 σ3 → keepsLastAttack σ1 σ3.
Proof.
  intros H1 H2 r e He. destruct (H1 r e He) as (e2 & He2 & E2).
  destruct (H2 r e2 He2) as (e3 & He3 & E3). exists e3. split; [done|congruence].
Qed.

Lemma keepsLastAttack_mutate f r σ :
  (∀ e, lastAttack (components (f e)) = lastAttack (components e)) →
  keepsLastAttack σ (mutate f r σ).
Proof.
  intros Hf r' e He. destruct (decide (r = r')) as [->|Hne].
  - exists (f e). by rewrite mutate_lookup, He.
  - exists e. by rewrite mutate_lookup_ne.
Qed.

Lemma keepsLastAttack_alloc e σ : keepsLastAttack σ (alloc e σ).2.
Proof. intros r e' He. exists e'. split; [|done]. by apply lookup_app_l_Some. Qed.

Lemma keepsLastAttack_insert r e' σ :
  (∀ e, σ !! r = Some e → lastAttack (components e') = lastAttack (components e)) →
  keepsLastAttack σ (<[r := e']> σ).
Proof.
  intros Hr r' e He. destruct (decide (r = r')) as [->|Hne].
  - exists e'. split; [|by apply Hr].
    apply list_lookup_insert_eq. by eapply lookup_lt_Some.
  - exists e. by rewrite list_lookup_insert_ne.
Qed.

Lemma gainSkillExperience_keeps σ r name xp :
  keepsLastAttack σ (gainSkillExperience σ r name xp).2.
Proof.
  unfold gainSkillExperience.
  destruct (σ !! r) as [e|]; [|apply keepsLastAttack_refl].
  destruct (skills (components e)) as [sks|]; [|apply keepsLastAttack_refl].
  destruct (sks !! name) as [sk|]; [|apply keepsLastAttack_refl].
  destruct (maxSkillLevel e <=? skill_level sk); [apply keepsLastAttack_refl|].
  destruct (levelUpLoop _ _ _ _) as [sk2 b]. simpl.
  by apply keepsLastAttack_mutate.
Qed.

Lemma applyDamage_lastAttack d e :
  lastAttack (components (applyDamage d e)) = lastAttack (components e).
Proof. unfold applyDamage. by destruct (health (components e)). Qed.

Lemma createSwingAnimation_keeps id target st :
  keepsLastAttack (store st) (store (createSwingAnimation id target st)).
Proof.
  unfold createSwingAnimation.
  destruct (store st !! target) as [t|]; [|apply keepsLastAttack_refl].
  apply keepsLastAttack_alloc.
Qed.

Lemma performLevelUp_lastAttack picks e :
  lastAttack (components (performLevelUp picks e)) = lastAttack (components e).
Proof.
  unfold performLevelUp.
  destruct (level (components e)) as [lv|]; [|done].
  destruct (stats (components e)) as [st|]; [|done]. simpl.
  by destruct (health (components e)).
Qed.

Lemma checkLevelUp_lastAttack picks e :
  lastAttack (components (checkLevelUp picks e)) = lastAttack (components e).
Proof.
  unfold checkLevelUp. destruct (level (components e)) as [lv|]; [|done].
  destruct (_ <=? _); [apply performLevelUp_lastAttack|done].
Qed.

Lemma giveExperience_keeps g picks p monster σ σ' :
  giveExperience g picks p monster σ = Some σ' → keepsLastAttack σ σ'.
Proof.
  unfold giveExperience.
  destruct (negb (characterProgress g)); [intros [= <-]; apply keepsLastAttack_refl|].
  destruct (level (components monster)) as [lv|];
    [|intros [= <-]; apply keepsLastAttack_refl].
  destruct (σ !! p) as [pe|] eqn:Hp; [|done].
  unfold addExperience. destruct (level (components pe)) as [plv|]; [|done].
  intros [= <-]. apply keepsLastAttack_insert. intros e He.
  assert (e = pe) as -> by congruence. by rewrite checkLevelUp_lastAttack.
Qed.

Lemma removeEntity_keeps σ w entityId :
  keepsLastAttack σ (removeEntity σ w entityId).1.2.
Proof.
  unfold removeEntity. destruct (entities w !! entityId); simpl.
  - by apply keepsLastAttack_mutate.
  - apply keepsLastAttack_refl.
Qed.

Lemma createCorpse_keeps monster st :
  keepsLastAttack (store st) (store (createCorpse monster st)).
Proof. unfold createCorpse. apply keepsLastAttack_alloc. Qed.

Lemma handleDeath_keeps g picks entity st st' :
  handleDeath g picks entity st = Some st' → keepsLastAttack (store st) (store st').
Proof.
  unfold handleDeath. destruct (store st !! entity) as [e|]; [|done].
  set (after := match player (world st) with Some p => _ | None => _ end).
  assert (Hafter : ∀ σ1, after = Some σ1 → keepsLastAttack (store st) σ1).
  { unfold after. intros σ1. destruct (player (world st)) as [p|].
    - destruct (String.eqb (e_type e) "monster").
      + apply giveExperience_keeps.
      + intros [= <-]. apply keepsLastAttack_refl.
    - intros [= <-]. apply keepsLastAttack_refl. }
  destruct after as [σ1|]; [|done]. specialize (Hafter σ1 eq_refl).
  set (st2 := match σ1 !! entity with Some e1 => _ | None => _ end).
  assert (H2 : keepsLastAttack σ1 (store st2)).
  { unfold st2. destruct (σ1 !! entity) as [e1|]; [|apply keepsLastAttack_refl].
    destruct (String.eqb (e_type e) "monster"); [|apply keepsLastAttack_refl].
    apply (createCorpse_keeps e1 (mkState σ1 (world st))). }
  pose proof (removeEntity_keeps (store st2) (world st2) (e_id e)) as H3.
  destruct (removeEntity (store st2) (world st2) (e_id e)) as [[b σ3] w3].
  intros [= <-]. simpl in *.
  eapply keepsLastAttack_trans; [exact Hafter|].
  eapply keepsLastAttack_trans; [exact H2|exact H3].
Qed.

Lemma gainWeaponSkillExperience_keeps g attacker σ :
  keepsLastAttack σ (gainWeaponSkillExperience g attacker σ).
Proof.
  unfold gainWeaponSkillExperience.
  destruct (negb (skillsSystem g)); [apply keepsLastAttack_refl|].
  destruct (σ !! attacker) as [a|]; [|apply keepsLastAttack_refl].
  destruct (match equipment (components a) with Some eq => _ | None => _ end) as [w|];
    [|apply keepsLastAttack_refl].
  eapply keepsLastAttack_trans; apply gainSkillExperience_keeps.
Qed.

Lemma attackHit_keeps g rolls attacker target damage st :
  keepsLastAttack (store st) (store (attackHit g rolls attacker target damage st).2).
Proof.
  unfold attackHit. destruct (store st !! target) as [t|]; [|apply keepsLastAttack_refl].
  set (blocked := checkBlock g (blockRoll rolls) t).
  set (finalDamage := if blocked then _ else _).
  set (σ1 := if blocked && skillsSystem g then _ else _).
  assert (H1 : keepsLastAttack (store st) σ1).
  { unfold σ1. destruct (blocked && skillsSystem g);
      [apply gainSkillExperience_keeps|apply keepsLastAttack_refl]. }
  set (σ2 := mutate (applyDamage finalDamage) target σ1).
  assert (H2 : keepsLastAttack σ1 σ2).
  { apply keepsLastAttack_mutate. intros e. apply applyDamage_lastAttack. }
  set (st3 := createSwingAnimation (swingId rolls) target (mkState σ2 (world st))).
  assert (H3 : keepsLastAttack σ2 (store st3)).
  { apply (createSwingAnimation_keeps _ _ (mkState σ2 (world st))). }
  assert (H03 : keepsLastAttack (store st) (store st3)).
  { eapply keepsLastAttack_trans; [exact H1|].
    eapply keepsLastAttack_trans; [exact H2|exact H3]. }
  set (st4 := if match store st3 !! target with Some t3 => isDead t3 | None => false end
              then _ else _).
  assert (H4 : ∀ s, st4 = Some s → keepsLastAttack (store st3) (store s)).
  { unfold st4. intros s.
    destruct (match store st3 !! target with Some t3 => isDead t3 | None => false end).
    - apply handleDeath_keeps.
    - intros [= <-]. apply keepsLastAttack_refl. }
  destruct st4 as [s|]; [|done]. simpl.
  eapply keepsLastAttack_trans; [exact H03|].
  eapply keepsLastAttack_trans; [by apply H4|].
  apply gainWeaponSkillExperience_keeps.
Qed.

Lemma attackMiss_keeps g rolls target st :
  keepsLastAttack (store st) (store (attackMiss g rolls target st).2).
Proof.
  unfold attackMiss.
  pose proof (createSwingAnimation_keeps (swingId rolls) target st) as H1.
  set (st1 := createSwingAnimation (swingId rolls) target st) in *.
  destruct (store st1 !! target) as [t|]; [|done].
  destruct (Qltb _ _); [|done]. simpl.
  destruct (skillsSystem g); [|done]. simpl.
  eapply keepsLastAttack_trans; [exact H1|]. apply gainSkillExperience_keeps.
Qed.

(** A call that passes both gates leaves the attacker with [now] as its
    last attack time. *)
Lemma attackTarget_records_time g now rolls attacker target st :
  rejected (attackTarget g now rolls attacker target st).1 = false →
  ∃ a', store (attackTarget g now rolls attacker target st).2 !! attacker = Some a'
        ∧ lastAttack (components a') = Some now.
Proof.
  intros Ho. pose proof (attackTarget_rejected g now rolls attacker target st) as Hrej.
  destruct (store st !! attacker) as [a|] eqn:Ha; [|by rewrite Hrej in Ho].
  destruct (store st !! target) as [t|] eqn:Ht; [|by rewrite Hrej in Ho].
  destruct (canAttack a t) eqn:Hcan; [|by rewrite Hrej in Ho].
  destruct (onCooldown g now a) eqn:Hcd; [by rewrite Hrej in Ho|].
  destruct (attackTarget_performed g now rolls attacker target st a t Ha Ht Hcan Hcd)
    as (Hne & Ha1 & Ht1 & Heq).
  rewrite Heq. clear Heq Hrej Ho.
  destruct (rollToHit _ _ _ _).
  - destruct (attackHit_keeps g rolls attacker target (calculateDamage g a t) _ _ _ Ha1)
      as (a' & Ha' & E). exists a'. split; [done|]. by rewrite E.
  - destruct (attackMiss_keeps g rolls target _ _ _ Ha1) as (a' & Ha' & E).
    exists a'. split; [done|]. by rewrite E.
Qed.

(** A call inside the cooldown window is turned away and changes nothing. *)
Lemma attackTarget_within_gap g now rolls attacker target st a last :
  store st !! attacker = Some a →
  lastAttack (components a) = Some last →
  (inject_Z (now - last) < attackSpeed g a)%Q →
  rejected (attackTarget g now rolls attacker target st).1 = true
  ∧ (attackTarget g now rolls attacker target st).2 = st.
Proof.
  intros Ha Hlast Hgap.
  pose proof (attackTarget_rejected g now rolls attacker target st) as Hrej.
  rewrite Ha in Hrej.
  destruct (store st !! target) as [t|] eqn:Ht; [|by rewrite Hrej].
  destruct (canAttack a t) eqn:Hcan; [|by rewrite Hrej].
  rewrite Hrej; [done|].
  unfold onCooldown, lastAttackTime. rewrite Hlast. simpl. by apply Qltb_lt.
Qed.

(** C2, as the code has it.  Of two [attackTarget] calls by the same
    attacker that are less than the required gap apart, at most one
    reaches [applyDamage].  If the first call passes the precondition and
    the cooldown check, the second call is turned away by one of the two,
    returns [false], and leaves the whole state as it is, the recorded
    attack time of the first call included; so there is exactly one
    damage application when the first call hits, and none when it
    misses. *)
Theorem cooldown_gate (g : Game) (now1 now2 : Z) (rolls1 rolls2 : Rolls)
    (attacker target : ref) (st : GameState) :
  let r1 := attackTarget g now1 rolls1 attacker target st in
  let r2 := attackTarget g now2 rolls2 attacker target r1.2 in
  withinGap g now1 now2 attacker r1.2 = true →
  (damageApplications [r1.1; r2.1] ≤ 1)%nat
  ∧ (rejected r1.1 = false →
     rejected r2.1 = true ∧ attackResult r2.1 = false ∧ r2.2 = r1.2
     ∧ (∃ a1, store r2.2 !! attacker = Some a1 ∧ lastAttack (components a1) = Some now1)
     ∧ damageApplications [r1.1; r2.1] = (if damageApplied r1.1 then 1 else 0)%nat).
Proof.
  intros r1 r2 Hgap.
  assert (Hsecond : rejected r1.1 = false →
            rejected r2.1 = true ∧ r2.2 = r1.2
            ∧ ∃ a1, store r2.2 !! attacker = Some a1
                    ∧ lastAttack (components a1) = Some now1).
  { intros Hperf.
    destruct (attackTarget_records_time g now1 rolls1 attacker target st Hperf)
      as (a1 & Ha1 & Hlast).
    fold r1 in Ha1. unfold withinGap in Hgap. rewrite Ha1 in Hgap.
    apply Qltb_true in Hgap.
    destruct (attackTarget_within_gap g now2 rolls2 attacker target r1.2 a1 now1
                Ha1 Hlast Hgap) as [Hrej Hsame].
    fold r2 in Hrej, Hsame. split; [done|]. split; [done|].
    exists a1. by rewrite Hsame. }
  assert (Hrej_no_damage : ∀ o, rejected o = true → damageApplied o = false).
  { by intros []. }
  split.
  - unfold damageApplications. simpl.
    destruct (rejected r1.1) eqn:Hr1.
    + rewrite (Hrej_no_damage _ Hr1). destruct (damageApplied r2.1); simpl; lia.
    + destruct (Hsecond eq_refl) as (Hr2 & _).
      rewrite (Hrej_no_damage _ Hr2). destruct (damageApplied r1.1); simpl; lia.
  - intros Hperf. destruct (Hsecond Hperf) as (Hr2 & Hsame & Hlast).
    split; [done|]. split; [by destruct r2.1|]. split; [done|]. split; [done|].
    unfold damageApplications. simpl.
    rewrite (Hrej_no_damage _ Hr2). by destruct (damageApplied r1.1).
Qed.

(** C2 fails as stated: with a first call that misses, two calls within
    the gap result in no damage application at all. *)
Lemma two_calls_without_damage :
  let r1 := attackTarget theGame 7000 missRolls 0%nat 1%nat (arena playerEquipment) in
  let r2 := attackTarget theGame 7001 missRolls 0%nat 1%nat r1.2 in
  withinGap theGame 7000 7001 0%nat r1.2 = true
  ∧ r1.1 = Miss false ∧ r2.1 = OnCooldown
  ∧ damageApplications [r1.1; r2.1] = 0%nat.
Proof. vm_compute. done. Qed.


(** * Looting a corpse *)

Lemma mutate_obs {X} (obs : Entity → X) f r' r (σ : Store) :
  (∀ e, obs (f e) = obs e) → obs <$> mutate f r' σ !! r = obs <$> σ !! r.
Proof.
  intros Hf. destruct (decide (r' = r)) as [->|Hne].
  - rewrite mutate_lookup. destruct (σ !! r); simpl; [|done]. by rewrite Hf.
  - by rewrite mutate_lookup_ne.
Qed.

Lemma rolledGold_range random min max :
  (0 <= random)%Q → (random < 1)%Q → min ≤ max →
  min ≤ rolledGold random min max ≤ max.
Proof.
  intros H0 H1 Hmm. unfold rolledGold.
  set (n := max - min + 1).
  assert (Hn : (0 < inject_Z n)%Q) by (rewrite <- (Zlt_Qlt 0); unfold n; lia).
  assert (Hlo : 0 ≤ Qfloor (random * inject_Z n)).
  { change 0 with (Qfloor 0). apply Qfloor_resp_le.
    apply Qmult_le_0_compat; [done|]. by apply Qlt_le_weak. }
  assert (Hhi : Qfloor (random * inject_Z n) < n).
  { rewrite Zlt_Qlt. eapply Qle_lt_trans; [apply Qfloor_le|].
    rewrite <- (Qmult_1_l (inject_Z n)) at 2. by apply Qmult_lt_compat_r. }
  unfold n in *. lia.
Qed.

Lemma removeEntity_obs {X} (obs : Entity → X) σ w entityId r :
  (∀ e, obs (deactivate e) = obs e) →
  obs <$> (removeEntity σ w entityId).1.2 !! r = obs <$> σ !! r.
Proof.
  intros Hf. unfold removeEntity. destruct (entities w !! entityId); simpl; [|done].
  by apply mutate_obs.
Qed.

Lemma removeEntity_registry σ w entityId :
  entities (removeEntity σ w entityId).2 !! entityId = None.
Proof.
  unfold removeEntity. destruct (entities w !! entityId) as [r|] eqn:E; simpl; [|done].
  destruct (decide (player w = Some r)); simpl; apply lookup_delete_eq.
Qed.

Lemma removeEntity_switches_off σ w entityId r e :
  entities w !! entityId = Some r → σ !! r = Some e →
  (removeEntity σ w entityId).1.2 !! r = Some (deactivate e).
Proof.
  intros Hreg He. unfold removeEntity. rewrite Hreg. simpl.
  by rewrite mutate_lookup, He.
Qed.

Lemma mutate_bind_obs {X} (obs : Entity → option X) f r' r (σ : Store) :
  (∀ e, obs (f e) = obs e) → mutate f r' σ !! r ≫= obs = σ !! r ≫= obs.
Proof.
  intros Hf. destruct (decide (r' = r)) as [->|Hne].
  - rewrite mutate_lookup. destruct (σ !! r); simpl; [|done]. by rewrite Hf.
  - by rewrite mutate_lookup_ne.
Qed.

Lemma removeEntity_lootedFlag σ w entityId r :
  lootedFlag (removeEntity σ w entityId).1.2 r = lootedFlag σ r.
Proof.
  unfold removeEntity, lootedFlag. destruct (entities w !! entityId); simpl; [|done].
  by apply mutate_bind_obs.
Qed.

(** [lootCorpse] on a corpse that is already looted, or on something that
    has no [corpse] component, changes nothing. *)
Lemma lootCorpse_looted random corpseRef playerRef st :
  lootedFlag (store st) corpseRef ≠ Some false →
  lootCorpse random corpseRef playerRef st = (false, st).
Proof.
  unfold lootedFlag, lootedOf, lootCorpse.
  destruct (store st !! corpseRef) as [c|]; [|done].
  simpl. destruct (corpse (components c)) as [cc|]; [|done]. simpl.
  destruct (corpse_looted cc); done.
Qed.

(** After [lootCorpse] the corpse is marked, unless there was nothing to
    give and nothing changed. *)
Lemma lootCorpse_after random corpseRef playerRef st :
  lootedFlag (store (lootCorpse random corpseRef playerRef st).2) corpseRef = Some true
  ∨ ((lootCorpse random corpseRef playerRef st).2 = st
     ∧ ∀ random' playerRef', lootCorpse random' corpseRef playerRef' st = (false, st)).
Proof.
  unfold lootCorpse.
  destruct (store st !! corpseRef) as [c|] eqn:Hc; [|by right].
  destruct (corpse (components c)) as [cc|] eqn:Hcc; [|by right].
  destruct (corpse_looted cc) eqn:Hl; [by right|].
  destruct (loot (components c)) as [l|]; [|by right]. left.
  assert (Hflag : lootedFlag (store st) corpseRef = Some false).
  { unfold lootedFlag, lootedOf. rewrite Hc. simpl. rewrite Hcc. simpl. by rewrite Hl. }
  set (p := match loot_gold l with Some (min, max) => _ | None => _ end).
  assert (Hp : lootedFlag p.2 corpseRef = Some false).
  { unfold p. destruct (loot_gold l) as [[mn mx]|]; simpl; [|done].
    destruct (0 <? _); simpl; [|done].
    unfold lootedFlag. by rewrite mutate_bind_obs. }
  destruct p as [looted σ1]. simpl in Hp.
  set (σ2 := mutate _ corpseRef σ1).
  assert (H2 : lootedFlag σ2 corpseRef = Some true).
  { unfold lootedFlag, lootedOf in *. unfold σ2. rewrite mutate_lookup.
    destruct (σ1 !! corpseRef) as [c1|]; [|done]. simpl in *.
    destruct (corpse (components c1)) as [cc1|]; done. }
  destruct looted; simpl; [|done].
  pose proof (removeEntity_lootedFlag σ2 (world st) (e_id c) corpseRef) as Hobs.
  destruct (removeEntity σ2 (world st) (e_id c)) as [[b σ3] w3]. simpl in *.
  congruence.
Qed.

(** A second [lootCorpse] on the same corpse returns [false] and changes
    nothing, whoever loots and whatever is drawn. *)
Lemma lootCorpse_twice random random' corpseRef playerRef playerRef' st :
  lootCorpse random' corpseRef playerRef'
    (lootCorpse random corpseRef playerRef st).2
  = (false, (lootCorpse random corpseRef playerRef st).2).
Proof.
  destruct (lootCorpse_after random corpseRef playerRef st) as [Hm|[Hsame Hno]].
  - apply lootCorpse_looted. by rewrite Hm.
  - rewrite Hsame. apply Hno.
Qed.

Lemma goldOf_mutate f r' r (σ : Store) :
  (∀ e, gold (components (f e)) = gold (components e)) →
  goldOf (mutate f r' σ) r = goldOf σ r.
Proof.
  intros Hf. unfold goldOf. f_equal.
  by apply (mutate_bind_obs (λ e, gold (components e))).
Qed.

Lemma goldOf_removeEntity σ w entityId r :
  goldOf (removeEntity σ w entityId).1.2 r = goldOf σ r.
Proof.
  unfold removeEntity. destruct (entities w !! entityId); simpl; [|done].
  by apply goldOf_mutate.
Qed.

Lemma goldOf_credit amount r (σ : Store) p :
  σ !! r = Some p →
  goldOf (mutate (update (λ comps, set_gold (Some (default 0 (gold comps) + amount)) comps))
                 r σ) r
  = goldOf σ r + amount.
Proof. intros Hp. unfold goldOf. rewrite mutate_lookup, Hp. done. Qed.

(** C8, as the code has it.  [lootCorpse] is idempotent: a second call
    on the same corpse, and any call on a corpse already marked looted,
    returns [false] and changes nothing, so gold is never credited twice.
    On a corpse not yet looted that stores a gold range, the amount
    rolled lies in the range; the corpse is marked looted; and if the
    amount is positive the call returns [true], credits the looter with
    it, deletes the registry entry of the corpse and switches the
    registered corpse off, while an amount that is not positive makes the
    call return [false] with no gold credited and the world unchanged. *)
Theorem lootCorpse_idempotent (random : Q) (corpseRef playerRef : ref) (st : GameState) :
  let r := lootCorpse random corpseRef playerRef st in
  (∀ random' playerRef', lootCorpse random' corpseRef playerRef' r.2 = (false, r.2))
  ∧ (lootedFlag (store st) corpseRef = Some true → r = (false, st))
  ∧ ∀ c p l min max,
      store st !! corpseRef = Some c → store st !! playerRef = Some p →
      lootedFlag (store st) corpseRef = Some false →
      loot (components c) = Some l → loot_gold l = Some (min, max) →
      let amount := rolledGold random min max in
      ((0 <= random)%Q → (random < 1)%Q → min ≤ max → min ≤ amount ≤ max)
      ∧ lootedFlag (store r.2) corpseRef = Some true
      ∧ if 0 <? amount
        then r.1 = true
             ∧ goldOf (store r.2) playerRef = goldOf (store st) playerRef + amount
             ∧ entities (world r.2) !! e_id c = None
             ∧ (entities (world st) !! e_id c = Some corpseRef →
                switchedOff (store r.2) corpseRef)
        else r.1 = false
             ∧ goldOf (store r.2) playerRef = goldOf (store st) playerRef
             ∧ world r.2 = world st.
Proof.
  intros r. split; [|split].
  - intros random' playerRef'. apply lootCorpse_twice.
  - intros Hflag. apply lootCorpse_looted. by rewrite Hflag.
  - intros c p l mn mx Hc Hp Hflag Hloot Hgold amount.
    split; [apply rolledGold_range|].
    assert (Hmarked : lootedFlag (store r.2) corpseRef = Some true).
    { destruct (lootCorpse_after random corpseRef playerRef st) as [Hm|[_ Hno]];
        [done|].
      exfalso. specialize (Hno random playerRef). unfold lootCorpse in Hno.
      unfold lootedFlag, lootedOf in Hflag. rewrite Hc in Hflag, Hno. simpl in Hflag.
      destruct (corpse (components c)) as [cc|] eqn:Hcc; [|done]. simpl in Hflag.
      injection Hflag as Hl. rewrite Hl, Hloot, Hgold in Hno.
      destruct (0 <? _).
      - by destruct (removeEntity _ _ _) as [[? ?] ?].
      - injection Hno as Hno.
        apply (f_equal (λ s, lootedFlag (store s) corpseRef)) in Hno. simpl in Hno.
        unfold lootedFlag, lootedOf in Hno. rewrite mutate_lookup, Hc in Hno.
        simpl in Hno. rewrite Hcc in Hno. simpl in Hno. congruence. }
    split; [done|].
    subst r. unfold lootCorpse in *.
    unfold lootedFlag, lootedOf in Hflag. rewrite Hc in Hflag |- *. simpl in Hflag.
    destruct (corpse (components c)) as [cc|]; [|done]. simpl in Hflag.
    injection Hflag as Hl. rewrite Hl, Hloot, Hgold.
    fold (rolledGold random mn mx). fold amount.
    destruct (0 <? amount) eqn:Hpos.
    + set (σ1 := mutate _ playerRef (store st)).
      set (σ2 := mutate _ corpseRef σ1).
      pose proof (goldOf_removeEntity σ2 (world st) (e_id c) playerRef) as Hg.
      pose proof (removeEntity_registry σ2 (world st) (e_id c)) as Hreg.
      assert (Hoff : entities (world st) !! e_id c = Some corpseRef →
                     switchedOff (removeEntity σ2 (world st) (e_id c)).1.2 corpseRef).
      { intros Hr.
        destruct (lookup_lt_is_Some_2 σ2 corpseRef) as [c2 Hc2].
        { unfold σ2, σ1. rewrite !mutate_length. by eapply lookup_lt_Some. }
        exists (deactivate c2). split; [|done].
        by apply removeEntity_switches_off. }
      destruct (removeEntity σ2 (world st) (e_id c)) as [[b σ3] w3]. simpl in *.
      split; [done|]. split; [|done].
      rewrite Hg. unfold σ2. rewrite goldOf_mutate.
      * by apply (goldOf_credit amount playerRef (store st) p).
      * intros e. simpl. by destruct (corpse (components e)).
    + simpl. split; [done|]. split; [|done].
      apply goldOf_mutate. intros e. simpl. by destruct (corpse (components e)).
Qed.


(** * Death handling *)








(** The player kills the wounded goblin with one more hit: the call returns
    [true], the goblin is switched off and unregistered, its corpse is
    registered, and the player has 10 experience. *)
Lemma attack_kills_goblin :
  let r := attackTarget theGame 7000 hitRolls 0%nat 1%nat woundedArena in
  attackResult r.1 = true
  ∧ e_active <$> store r.2 !! 1%nat = Some false
  ∧ entities (world r.2) !! "goblin_1" = None
  ∧ entities (world r.2) !! "corpse_goblin_1" = Some 3%nat
  ∧ experienceOf (store r.2) 0%nat = Some 10
  ∧ (attackTarget theGame 20000 hitRolls 0%nat 1%nat r.2).1 = NotPerformed.
Proof. vm_compute. done. Qed.


(** * The notice state machine *)

Lemma noticeOf_mutate f r' r (σ : Store) :
  (∀ e, notice (components (f e)) = notice (components e)) →
  noticeOf (mutate f r' σ) r = noticeOf σ r.
Proof. intros Hf. by apply (mutate_bind_obs (λ e, notice (components e))). Qed.

(** What a turn of [processMonsterMovement] does to the [notice]
    component of the monster: [updateNotice] if the monster is evaluated,
    nothing otherwise. *)
Lemma processMonsterMovement_notice wanderRoll dirRoll entity st :
  noticeOf (store (processMonsterMovement wanderRoll dirRoll entity st)) entity =
    match noticeInput entity st with
    | Some (n, qualifies) => Some (updateNotice qualifies n)
    | None => noticeOf (store st) entity
    end.
Proof.
  unfold processMonsterMovement, noticeInput.
  destruct (store st !! entity) as [e|] eqn:He; [|done].
  destruct (ai (components e)) as [range|]; [|done].
  destruct (notice (components e)) as [n|] eqn:Hn; [|done].
  destruct (visibility (components e)) as [[|]|]; [|done|done]. simpl.
  destruct (player (world st) ≫= (λ p, store st !! p)) as [pl|]; [|done].
  set (q := distanceWithin e pl _ && hasLineOfSight e pl (world st)).
  set (σ1 := mutate (update (set_notice (Some (updateNotice q n)))) entity (store st)).
  assert (H1 : noticeOf σ1 entity = Some (updateNotice q n)).
  { unfold noticeOf, σ1. by rewrite mutate_lookup, He. }
  assert (Hmove : ∀ xy : Z * Z,
    noticeOf (store (let '(x, y) := xy in
                     mkState (mutate (setPosition x y) entity σ1) (world st))) entity
    = Some (updateNotice q n)).
  { intros [x y]. simpl. by rewrite noticeOf_mutate. }
  destruct (hasNoticed (updateNotice q n)).
  - destruct (_ <? _); [done|]. apply Hmove.
  - destruct (Qltb wanderRoll 0.05); [apply Hmove|done].
Qed.

(** C5 on the code.  A Suspicious monster (not yet hostile, timer above
    0) that is evaluated on a turn on which the range and line-of-sight
    test fails keeps its notice component as it is: the timer is not
    reset and the monster stays Suspicious. *)
Theorem suspicious_keeps_timer (wanderRoll dirRoll : Q) (entity : ref)
    (st : GameState) (n : Notice) :
  noticeInput entity st = Some (n, false) →
  noticeState n = Suspicious →
  noticeOf (store (processMonsterMovement wanderRoll dirRoll entity st)) entity = Some n
  ∧ 0 < noticeTimer n.
Proof.
  intros Hin Hs. rewrite processMonsterMovement_notice, Hin.
  unfold noticeState in Hs. unfold updateNotice.
  destruct (hasNoticed n); [done|].
  destruct (0 <? noticeTimer n) eqn:Ht; [|done].
  apply Z.ltb_lt in Ht. done.
Qed.

(** C6, as the code has it.  A Hostile monster stays Hostile, with its
    timer untouched, on every turn on which it is not evaluated or on
    which the range and line-of-sight test succeeds; on a turn on which
    it is evaluated and the test fails it goes back to Unaware with its
    timer at 0; and it also goes back to Unaware when
    [updateMonsterVisibility] finds that it has left the field of view
    of the player. *)
Theorem hostile_until_out_of_reach (wanderRoll dirRoll : Q) (entity : ref)
    (st : GameState) (e : Entity) (n : Notice) :
  store st !! entity = Some e →
  notice (components e) = Some n →
  noticeState n = Hostile →
  let after := noticeOf (store (processMonsterMovement wanderRoll dirRoll entity st))
                        entity in
  match noticeInput entity st with
  | None => after = Some n
  | Some (_, true) => after = Some n
  | Some (_, false) =>
      after = Some (mkNotice false 0 (noticeDelay n) (alertRange n))
      ∧ (noticeState <$> after) = Some Unaware
  end
  ∧ (e_active e = true → visibility (components e) = Some true →
     noticeState <$> notice (components (updateVisibility false e)) = Some Unaware).
Proof.
  intros He Hn Hs after. unfold after. rewrite processMonsterMovement_notice.
  assert (Hh : hasNoticed n = true).
  { unfold noticeState in Hs. destruct (hasNoticed n); [done|].
    by destruct (0 <? noticeTimer n). }
  split.
  - destruct (noticeInput entity st) as [[n' q]|] eqn:Hin.
    + assert (n' = n) as ->.
      { unfold noticeInput in Hin. rewrite He, Hn in Hin.
        destruct (ai (components e)); [|done].
        destruct (visibility (components e)) as [[|]|]; [|done|done].
        destruct (player (world st) ≫= _); [|done]. by injection Hin. }
      unfold updateNotice. rewrite Hh. destruct q; simpl; done.
    + unfold noticeOf. by rewrite He.
  - intros Hact Hvis. unfold updateVisibility. rewrite Hact, Hvis. simpl.
    by rewrite Hn.
Qed.


(** * The theorems at work *)

(** Five [schedule] calls, then [getNextEntity] calls with entity 1
    switched off after the first one: the entries come out by timestamp
    and entity 1 is skipped. *)
Example scheduler_run :
  let '(σ1, s1) := setup fiveCalls fourActors newScheduler in
  dispatchRefs dispatchRun σ1 s1 = [3; 0; 2; 0]%nat
  ∧ (λ d, (item d.1, priority d.1)) <$> dispatchLog dispatchRun σ1 s1
    = [(3%nat, 1%Q); (0%nat, 2%Q); (2%nat, 4%Q); (0%nat, 5%Q)].
Proof. vm_compute. done. Qed.

(** Forty gains of 30 experience take the dodge skill of a level 1 hero
    from 0 to the cap of 5 and no further. *)
Lemma skill_cap_witness :
  ∃ e' sk', gainAll fortyGains [levelOneHero] !! 0%nat = Some e'
            ∧ skillOf e' "dodge" = Some sk'
            ∧ maxSkillLevel e' = 5
            ∧ 0 ≤ skill_level sk' ≤ 5.
Proof.
  apply (proj1 (proj2 (skill_cap [levelOneHero] 0%nat levelOneHero "dodge"
                         (mkSkill 0 0 20) eq_refl eq_refl)) fortyGains).
  vm_compute. discriminate.
Defined.

Example skill_reaches_cap :
  (λ e, skillOf e "dodge") <$> gainAll fortyGains [levelOneHero] !! 0%nat
  = Some (Some (mkSkill 5 0 30)).
Proof. vm_compute. done. Qed.

(** The player hits the goblin, then tries again one millisecond later. *)
Lemma cooldown_gate_witness :
  let r1 := attackTarget theGame 7000 hitRolls 0%nat 1%nat (arena playerEquipment) in
  let r2 := attackTarget theGame 7001 hitRolls 0%nat 1%nat r1.2 in
  (damageApplications [r1.1; r2.1] ≤ 1)%nat
  ∧ (rejected r1.1 = false →
     rejected r2.1 = true ∧ attackResult r2.1 = false ∧ r2.2 = r1.2
     ∧ (∃ a1, store r2.2 !! 0%nat = Some a1 ∧ lastAttack (components a1) = Some 7000)
     ∧ damageApplications [r1.1; r2.1] = (if damageApplied r1.1 then 1 else 0)%nat).
Proof.
  apply (cooldown_gate theGame 7000 7001 hitRolls hitRolls 0%nat 1%nat
           (arena playerEquipment)).
  vm_compute. reflexivity.
Defined.

Example one_hit_within_gap :
  let r1 := attackTarget theGame 7000 hitRolls 0%nat 1%nat (arena playerEquipment) in
  let r2 := attackTarget theGame 7001 hitRolls 0%nat 1%nat r1.2 in
  (∃ d, r1.1 = Hit d false ∧ (d == 3)%Q)
  ∧ r2.1 = OnCooldown ∧ damageApplications [r1.1; r2.1] = 1%nat
  ∧ (attackSpeed theGame (thePlayer playerEquipment) == 3200)%Q.
Proof. vm_compute. split; [by eexists|done]. Qed.

Lemma dodge_experience_witness :
  ∃ a t, store (arena playerEquipment) !! 1%nat = Some a
    ∧ store (arena playerEquipment) !! 0%nat = Some t
    ∧ rollToHit theGame (hitRoll wildMissRolls)
        (update (set_lastAttack (Some 7000)) a) t = false
    ∧ true = Qltb (dodgeRoll wildMissRolls * 100) (calculateDodge theGame t)
    ∧ let st1 := beforeDodgeCheck 7000 wildMissRolls 1%nat 0%nat (arena playerEquipment) in
      (attackTarget theGame 7000 wildMissRolls 1%nat 0%nat (arena playerEquipment)).2 =
        if true && skillsSystem theGame
        then mkState (gainSkillExperience (store st1) 0%nat "dodge" 3).2 (world st1)
        else st1.
Proof.
  apply (dodge_experience theGame 7000 wildMissRolls 1%nat 0%nat
           (arena playerEquipment) true).
  vm_compute. reflexivity.
Defined.


(** A Suspicious goblin with the player out of range. *)
Lemma suspicious_keeps_timer_witness :
  noticeOf (store (processMonsterMovement 0.5 0 1%nat (farArena (mkNotice false 3 10 5))))
           1%nat
  = Some (mkNotice false 3 10 5)
  ∧ 0 < 3.
Proof.
  apply (suspicious_keeps_timer 0.5 0 1%nat (farArena (mkNotice false 3 10 5))
           (mkNotice false 3 10 5)); vm_compute; reflexivity.
Defined.

(** A Hostile goblin with the player in range and in sight. *)
Lemma hostile_until_out_of_reach_witness :
  let st := nearArena (mkNotice true 10 10 5) in
  let after := noticeOf (store (processMonsterMovement 0.5 0 1%nat st)) 1%nat in
  match noticeInput 1%nat st with
  | None => after = Some (mkNotice true 10 10 5)
  | Some (_, true) => after = Some (mkNotice true 10 10 5)
  | Some (_, false) =>
      after = Some (mkNotice false 0 10 5) ∧ (noticeState <$> after) = Some Unaware
  end
  ∧ (e_active (setPosition 7 5 (watchfulGoblin (mkNotice true 10 10 5))) = true →
     visibility (components (setPosition 7 5 (watchfulGoblin (mkNotice true 10 10 5))))
     = Some true →
     noticeState
       <$> notice (components (updateVisibility false
                    (setPosition 7 5 (watchfulGoblin (mkNotice true 10 10 5)))))
     = Some Unaware).
Proof.
  apply (hostile_until_out_of_reach 0.5 0 1%nat (nearArena (mkNotice true 10 10 5))
           (setPosition 7 5 (watchfulGoblin (mkNotice true 10 10 5)))
           (mkNotice true 10 10 5)); vm_compute; reflexivity.
Defined.

(** C6 fails as stated: a Hostile goblin that is evaluated with the
    player out of its alert range is Unaware afterwards, its timer at 0. *)
Lemma hostile_loses_interest :
  let st := farArena (mkNotice true 10 10 5) in
  (noticeState <$> noticeOf (store st) 1%nat) = Some Hostile
  ∧ noticeInput 1%nat st = Some (mkNotice true 10 10 5, false)
  ∧ noticeOf (store (processMonsterMovement 0.5 0 1%nat st)) 1%nat
    = Some (mkNotice false 0 10 5)
  ∧ (noticeState <$> noticeOf (store (processMonsterMovement 0.5 0 1%nat st)) 1%nat)
    = Some Unaware.
Proof. vm_compute. done. Qed.

(** The Suspicious goblin of C5, evaluated with the player out of range:
    it is still Suspicious and its timer is still 3. *)
Example suspicious_not_reset :
  let st := farArena (mkNotice false 3 10 5) in
  noticeInput 1%nat st = Some (mkNotice false 3 10 5, false)
  ∧ noticeOf (store (processMonsterMovement 0.5 0 1%nat st)) 1%nat
    = Some (mkNotice false 3 10 5)
  ∧ (noticeState <$> noticeOf (store (processMonsterMovement 0.5 0 1%nat st)) 1%nat)
    = Some Suspicious.
Proof. vm_compute. done. Qed.

(** Ten qualifying turns take an Unaware goblin to Hostile. *)
Example notice_after_ten_turns :
  noticeState (Nat.iter 10 (updateNotice true) (mkNotice false 0 10 5)) = Hostile
  ∧ noticeState (Nat.iter 9 (updateNotice true) (mkNotice false 0 10 5)) = Suspicious.
Proof. vm_compute. done. Qed.

(** C8 fails as stated: a corpse that is not yet looted and whose roll
    comes out as 0 gold is marked looted, but the looter is credited
    nothing and the corpse stays registered and active. *)
Lemma empty_purse_corpse_stays :
  let st := createCorpse poorGoblin (arena playerEquipment) in
  let r := lootCorpse 0 2%nat 0%nat st in
  (lootedFlag (store st) 2%nat = Some false ∧ rolledGold 0 0 5 = 0)
  ∧ r.1 = false
  ∧ goldOf (store r.2) 0%nat = 0
  ∧ lootedFlag (store r.2) 2%nat = Some true
  ∧ entities (world r.2) !! "corpse_goblin_1" = Some 2%nat
  ∧ e_active <$> store r.2 !! 2%nat = Some true.
Proof. vm_compute. done. Qed.

(** The corpse of the template goblin yields between 1 and 5 gold and is
    removed; a second attempt yields nothing. *)
Example goblin_corpse_looted_once :
  let st := createCorpse theGoblin (arena playerEquipment) in
  let r := lootCorpse 0.5 2%nat 0%nat st in
  r.1 = true ∧ goldOf (store r.2) 0%nat = 3
  ∧ entities (world r.2) !! "corpse_goblin_1" = None
  ∧ e_active <$> store r.2 !! 2%nat = Some false
  ∧ lootCorpse 0.9 2%nat 0%nat r.2 = (false, r.2).
Proof. vm_compute. done. Qed.


(** * Further properties of the code

    Linear arithmetic on rationals. *)

From Stdlib Require Import Lqa.

(** ** The priority queue as a container *)

Lemma threeEntries_ordered : heapOrdered threeEntries.
Proof.
  intros i j [->| ->] n m Hn Hm; destruct i as [|[|[|i]]]; simpl in *;
    simplify_eq; by vm_compute.
Qed.

Lemma pushAll_ordered {A} (calls : list (A * Q)) (h : list (node A)) :
  heapOrdered h → heapOrdered (pushAll h calls).
Proof.
  revert h. induction calls as [|[x p] calls IH]; intros h Hh; [done|].
  simpl. apply IH. by apply push_ordered.
Qed.

Lemma pushAll_Permutation {A} (calls : list (A * Q)) (h : list (node A)) :
  pushAll h calls ≡ₚ ((λ call, Node call.1 call.2) <$> calls) ++ h.
Proof.
  revert h. induction calls as [|[x p] calls IH]; intros h; [done|].
  simpl. rewrite IH, push_Permutation. simpl.
  by rewrite Permutation_middle.
Qed.

(** X1.  [push] keeps the heap order: on a queue in heap order it gives
    a queue in heap order that holds the entries it held before and the
    new one, and no other; its size grows by one. *)
Theorem push_keeps_heap_order {A} (h : list (node A)) (x : A) (p : Q) :
  heapOrdered h →
  heapOrdered (push h x p) ∧ push h x p ≡ₚ Node x p :: h
  ∧ size (push h x p) = S (size h).
Proof.
  intros Hh. split; [by apply push_ordered|]. split; [apply push_Permutation|].
  apply push_length.
Qed.

Lemma push_keeps_heap_order_witness :
  heapOrdered threeEntries ∧
  (heapOrdered (push threeEntries 5%nat 3%Q)
   ∧ push threeEntries 5%nat 3%Q ≡ₚ Node 5%nat 3%Q :: threeEntries
   ∧ size (push threeEntries 5%nat 3%Q) = 4%nat).
Proof.
  split; [exact threeEntries_ordered|].
  exact (push_keeps_heap_order threeEntries 5%nat 3%Q threeEntries_ordered).
Defined.

(** X2.  [pop] on a queue in heap order that is not empty returns the
    item of an entry whose priority is minimal among all entries, and
    leaves a queue in heap order that holds the other entries, and no
    other; its size shrinks by one. *)
Theorem pop_takes_minimum {A} (h : list (node A)) :
  heapOrdered h → h ≠ [] →
  ∃ n h', pop h = (Some (item n), h')
          ∧ (∀ m, m ∈ h → (priority n <= priority m)%Q)
          ∧ h ≡ₚ n :: h' ∧ heapOrdered h' ∧ S (size h') = size h.
Proof.
  intros Hh Hne.
  destruct (isEmpty_false_popNode h) as (n & h' & Hpop).
  { by destruct h. }
  exists n, h'. rewrite pop_popNode, Hpop. split; [done|].
  split.
  { intros m [i Hi]%list_elem_of_lookup.
    eapply root_minimal; [done|by eapply popNode_head|done]. }
  split; [by apply popNode_Permutation|].
  split; [by apply (popNode_ordered h n h')|].
  symmetry. by apply (popNode_length h n h').
Qed.

Lemma pop_takes_minimum_witness :
  heapOrdered threeEntries ∧ threeEntries ≠ [] ∧
  ∃ n h', pop threeEntries = (Some (item n), h')
          ∧ (∀ m, m ∈ threeEntries → (priority n <= priority m)%Q)
          ∧ threeEntries ≡ₚ n :: h' ∧ heapOrdered h' ∧ S (size h') = size threeEntries.
Proof.
  split; [exact threeEntries_ordered|]. split; [discriminate|].
  exact (pop_takes_minimum threeEntries threeEntries_ordered ltac:(discriminate)).
Defined.

(** X3.  [peek] returns what the next [pop] will return, on every queue;
    both return [null] exactly when the queue is empty, which is what
    [isEmpty] reports, and a [pop] on the empty queue leaves it empty. *)
Theorem peek_agrees_with_pop {A} (h : list (node A)) :
  peek h = (pop h).1
  ∧ (peek h = None ↔ h = [])
  ∧ (isEmpty h = true ↔ h = [])
  ∧ pop (@nil (node A)) = (None, []).
Proof.
  split; [|split; [|split]]; [| | |done].
  - destruct h as [|mn rest]; [done|].
    destruct (decide (rest = [])) as [->|Hne]; [done|].
    rewrite pop_popNode.
    destruct (popNode_cons2 mn rest Hne) as (body & l & _ & ->). done.
  - by destruct h.
  - by destruct h.
Qed.

(** X4.  The queue sorts: when any sequence of entries is pushed on the
    empty queue and the queue is then emptied by [pop] calls, the entries
    come out in non-decreasing order of priority, each entry once. *)
Theorem queue_drains_in_priority_order {A} (calls : list (A * Q)) :
  StronglySorted priorityLe (drain (length calls) (pushAll [] calls))
  ∧ drain (length calls) (pushAll [] calls) ≡ₚ (λ call, Node call.1 call.2) <$> calls.
Proof.
  pose proof (pushAll_Permutation calls (@nil (node A))) as Hp.
  rewrite app_nil_r in Hp. split.
  - apply drain_sorted. apply pushAll_ordered, heapOrdered_nil.
  - rewrite drain_Permutation; [done|].
    apply Permutation_length in Hp. rewrite Hp, length_fmap. done.
Qed.


(** ** Scheduling and dispatching *)

Lemma Qleb_refl (a : Q) : Qleb a a = true.
Proof. apply Qle_bool_iff, Qle_refl. Qed.

Lemma getActionDelay_min (e : Entity) : (100 <= getActionDelay e)%Q.
Proof.
  unfold getActionDelay. destruct (speed (components e)) as [v|].
  - apply Q.le_max_l.
  - by vm_compute.
Qed.

(** X5.  [schedule] with the default delay puts the next action of an
    active entity at least 100 ms after the current time of the
    scheduler: the entity carries that time, the queue has one entry
    more, which is an entry for the entity with that time, and the clock
    of the scheduler does not move. *)
Theorem schedule_moves_into_future (σ : Store) (s : Scheduler) (r : ref) (e : Entity) :
  σ !! r = Some e → e_active e = true →
  let '(σ', s') := schedule σ s r None in
  ∃ e', σ' !! r = Some e'
        ∧ (currentTime s + 100 <= getNextActionTime e')%Q
        ∧ Node r (getNextActionTime e') ∈ queue s'
        ∧ Scheduling.getQueueSize s' = S (Scheduling.getQueueSize s)
        ∧ currentTime s' = currentTime s.
Proof.
  intros He Ha. unfold schedule. rewrite He, Ha. simpl.
  exists (setNextActionTime (currentTime s + getActionDelay e) e).
  split; [by rewrite mutate_lookup, He|]. simpl.
  split. { apply Qplus_le_r, getActionDelay_min. }
  split. { rewrite push_Permutation. by left. }
  split; [apply push_length|done].
Qed.

Lemma schedule_moves_into_future_witness :
  let '(σ', s') := schedule fourActors busyScheduler 2%nat None in
  ∃ e', σ' !! 2%nat = Some e'
        ∧ (currentTime busyScheduler + 100 <= getNextActionTime e')%Q
        ∧ Node 2%nat (getNextActionTime e') ∈ queue s'
        ∧ Scheduling.getQueueSize s' = S (Scheduling.getQueueSize busyScheduler)
        ∧ currentTime s' = currentTime busyScheduler.
Proof.
  exact (schedule_moves_into_future fourActors busyScheduler 2%nat
           (newEntity "c" "monster" 2 0) eq_refl eq_refl).
Defined.

Lemma getNextEntity_fuel_dispatch fuel σ s r s' :
  getNextEntity_fuel fuel σ s = (Some r, s') →
  ∃ e, σ !! r = Some e ∧ e_active e = true
       ∧ currentTime s' = getNextActionTime e
       ∧ (length (queue s') < length (queue s))%nat.
Proof.
  revert s. induction fuel as [|fuel IH]; intros s; cbn [getNextEntity_fuel]; [done|].
  destruct (isEmpty (queue s)) eqn:E; [done|].
  destruct (isEmpty_false_popNode _ E) as (n & q' & Hpop).
  rewrite pop_popNode, Hpop. simpl.
  pose proof (popNode_length _ _ _ Hpop) as Hlen.
  assert (Hrec : getNextEntity_fuel fuel σ (mkScheduler q' (currentTime s)) = (Some r, s') →
    ∃ e, σ !! r = Some e ∧ e_active e = true ∧ currentTime s' = getNextActionTime e
         ∧ (length (queue s') < length (queue s))%nat).
  { intros (e & ? & ? & ? & Hl)%IH. exists e. simpl in Hl. repeat split; [done..|lia]. }
  destruct (σ !! item n) as [e|] eqn:He; [|done].
  destruct (negb (e_active e)) eqn:Ha; [done|].
  intros [= <- <-]. exists e. apply negb_false_iff in Ha. simpl.
  repeat split; [done..|lia].
Qed.

(** X6.  The entity that [getNextEntity] returns exists, is active and
    can act at the time the scheduler now shows ([canAct] holds: the
    clock was set to the next-action time of the entity); the queue has
    lost at least the entry that was dispatched. *)
Theorem dispatched_entity_can_act (σ : Store) (s s' : Scheduler) (r : ref) :
  getNextEntity σ s = (Some r, s') →
  ∃ e, σ !! r = Some e ∧ canAct e (currentTime s') = true
       ∧ (Scheduling.getQueueSize s' < Scheduling.getQueueSize s)%nat.
Proof.
  intros (e & He & Ha & Ht & Hl)%getNextEntity_fuel_dispatch.
  exists e. split; [done|]. split; [|done].
  unfold canAct. rewrite Ha, Ht. apply Qleb_refl.
Qed.

Lemma dispatched_entity_can_act_witness :
  getNextEntity fourActors (mkScheduler [Node 3%nat 4%Q; Node 0%nat 6%Q] 2)
  = (Some 3%nat, mkScheduler [Node 0%nat 6%Q] 0)
  ∧ ∃ e, fourActors !! 3%nat = Some e
         ∧ canAct e (currentTime (mkScheduler [Node 0%nat 6%Q] 0)) = true
         ∧ (Scheduling.getQueueSize (mkScheduler [Node 0%nat 6%Q] 0)
            < Scheduling.getQueueSize
                (mkScheduler [Node 3%nat 4%Q; Node 0%nat 6%Q] 2))%nat.
Proof.
  split; [reflexivity|].
  exact (dispatched_entity_can_act fourActors
           (mkScheduler [Node 3%nat 4%Q; Node 0%nat 6%Q] 2)
           (mkScheduler [Node 0%nat 6%Q] 0) 3%nat eq_refl).
Defined.

(** X7.  Adding an entity to the scheduler and asking for the next
    entity is a round trip when the entity comes first: if the queue is
    in heap order and every entry in it is later than the current time
    plus the initial delay, then [getNextEntity] after
    [addEntity(entity, initialDelay)] returns that entity, sets the clock
    to the current time plus the delay, and leaves a queue in heap order
    with the entries it had before. *)
Theorem added_earliest_is_next (σ : Store) (s : Scheduler) (r : ref) (e : Entity)
    (d : Q) :
  σ !! r = Some e → e_active e = true → heapOrdered (queue s) →
  (∀ n, n ∈ queue s → (currentTime s + d < priority n)%Q) →
  let '(σ1, s1) := Scheduling.addEntity σ s r d in
  ∃ q', getNextEntity σ1 s1 = (Some r, mkScheduler q' (currentTime s + d))
        ∧ q' ≡ₚ queue s ∧ heapOrdered q'.
Proof.
  intros He Ha Hord Hlate. unfold Scheduling.addEntity, schedule.
  rewrite He, Ha. simpl.
  set (t := (currentTime s + d)%Q).
  set (q1 := push (queue s) r t).
  assert (Hq1 : heapOrdered q1) by by apply push_ordered.
  assert (Hp1 : q1 ≡ₚ Node r t :: queue s) by apply push_Permutation.
  destruct (isEmpty_false_popNode q1) as (n & q' & Hpop).
  { unfold isEmpty, q1. by rewrite push_length. }
  assert (Hn : n = Node r t).
  { assert (Hin : n ∈ Node r t :: queue s).
    { rewrite <- Hp1, (popNode_Permutation _ _ _ Hpop). by left. }
    apply elem_of_cons in Hin as [->|Hin]; [done|].
    assert (Hnew : Node r t ∈ q1) by (rewrite Hp1; by left).
    apply list_elem_of_lookup in Hnew as [i Hi].
    pose proof (root_minimal q1 n Hq1 (popNode_head _ _ _ Hpop) i _ Hi) as Hle.
    simpl in Hle. specialize (Hlate n Hin).
    exfalso. apply (Qlt_irrefl t). by apply Qlt_le_trans with (priority n). }
  subst n. exists q'.
  rewrite getNextEntity_unfold. simpl.
  replace (isEmpty q1) with false by (unfold isEmpty, q1; by rewrite push_length).
  fold q1. rewrite pop_popNode, Hpop. simpl.
  rewrite mutate_lookup, He. simpl. rewrite Ha. simpl.
  split; [done|]. split.
  - apply (Permutation_cons_inv (a := Node r t)).
    by rewrite <- Hp1, (popNode_Permutation _ _ _ Hpop).
  - by apply (popNode_ordered q1 (Node r t) q').
Qed.

Lemma added_earliest_is_next_witness :
  let '(σ1, s1) := Scheduling.addEntity fourActors (mkScheduler threeEntries 0) 2%nat 0.5 in
  ∃ q', getNextEntity σ1 s1 = (Some 2%nat, mkScheduler q' (0 + 0.5))
        ∧ q' ≡ₚ threeEntries ∧ heapOrdered q'.
Proof.
  refine (added_earliest_is_next fourActors (mkScheduler threeEntries 0) 2%nat
            (newEntity "c" "monster" 2 0) 0.5 eq_refl eq_refl threeEntries_ordered _).
  intros n Hn. simpl in Hn.
  repeat (apply elem_of_cons in Hn as [->|Hn]; [by vm_compute|]).
  by apply elem_of_nil in Hn.
Defined.

Lemma filter_Permutation {A} (f : A → bool) (l l' : list A) :
  l ≡ₚ l' → List.filter f l ≡ₚ List.filter f l'.
Proof.
  induction 1 as [|x l l' _ IH|x y l|l1 l2 l3 _ IH1 _ IH2]; simpl.
  - done.
  - destruct (f x); [by constructor|done].
  - destruct (f x), (f y); try done. apply perm_swap.
  - by etrans.
Qed.

(** X8.  The scheduler loses nothing and serves nobody twice: with the
    store left alone, as many [getNextEntity] calls as the queue has
    entries return the entities of the active entries of the queue, each
    entry once, in the order in which [pop] takes the entries out; the
    entries of inactive or missing entities are the only ones skipped. *)
Theorem every_active_entry_is_dispatched (σ : Store) (s : Scheduler) (k : nat) :
  (length (queue s) ≤ k)%nat →
  dispatchRefs (replicate k GetNext) σ s
  = item <$> List.filter (activeIn σ) (drain (length (queue s)) (queue s))
  ∧ dispatchRefs (replicate k GetNext) σ s
    ≡ₚ item <$> List.filter (activeIn σ) (queue s).
Proof.
  intros Hk.
  assert (Heq : dispatchRefs (replicate k GetNext) σ s
    = item <$> List.filter (activeIn σ) (drain (length (queue s)) (queue s))).
  { rewrite dispatchRefs_log.
    change (λ d : node ref * option Entity, item d.1) with (item ∘ @fst (node ref) (option Entity)).
    rewrite (list_fmap_compose fst item (dispatchLog (replicate k GetNext) σ s)).
    rewrite dispatchLog_complete. f_equal. apply take_ge.
    etrans; [apply filter_length_le|].
    rewrite (Permutation_length (drain_Permutation _ (queue s) (le_n _))). done. }
  split; [done|]. rewrite Heq.
  apply fmap_Permutation, filter_Permutation, drain_Permutation. done.
Qed.

Lemma every_active_entry_is_dispatched_witness :
  (length (queue twoActorQueue) ≤ 2)%nat
  ∧ dispatchRefs (replicate 2 GetNext) twoActors twoActorQueue
    = item <$> List.filter (activeIn twoActors)
                 (drain (length (queue twoActorQueue)) (queue twoActorQueue))
  ∧ dispatchRefs (replicate 2 GetNext) twoActors twoActorQueue
    ≡ₚ item <$> List.filter (activeIn twoActors) (queue twoActorQueue).
Proof.
  split; [by vm_compute|].
  apply (every_active_entry_is_dispatched twoActors twoActorQueue 2). by vm_compute.
Defined.


(** ** The registry of the world and its paths *)

(** X9.  Registering an entity and removing it again is a round trip:
    [addEntity] makes the entity reachable under its id, and when that id
    was free before, [removeEntity] of the id succeeds, gives back the
    registry as it was, and leaves the entity switched off and every
    other object untouched. *)
Theorem add_then_remove (σ : Store) (w : World) (r : ref) (e : Entity) :
  σ !! r = Some e → entities w !! e_id e = None →
  getEntity (addEntity σ w r) (e_id e) = Some r
  ∧ let '(removed, σ', w') := removeEntity σ (addEntity σ w r) (e_id e) in
    removed = true ∧ entities w' = entities w ∧ getEntity w' (e_id e) = None
    ∧ σ' !! r = Some (deactivate e) ∧ ∀ r', r' ≠ r → σ' !! r' = σ !! r'.
Proof.
  intros He Hfree.
  assert (Hreg : entities (addEntity σ w r) = <[e_id e := r]> (entities w)).
  { unfold addEntity. rewrite He. by destruct (String.eqb _ _). }
  unfold getEntity. rewrite Hreg, lookup_insert_eq. split; [done|].
  unfold removeEntity. rewrite Hreg, lookup_insert_eq.
  assert (Hdel : delete (e_id e) (<[e_id e := r]> (entities w)) = entities w).
  { rewrite delete_insert_eq. by apply delete_id. }
  assert (Hent : ∀ w0 : World,
    entities (if decide (player (addEntity σ w r) = Some r)
              then set_player None (set_entities (delete (e_id e) (entities (addEntity σ w r))) w0)
              else set_entities (delete (e_id e) (entities (addEntity σ w r))) w0)
    = entities w).
  { intros w0. destruct (decide _); simpl; by rewrite Hreg, Hdel. }
  rewrite <- Hreg. split; [done|]. rewrite Hent. split; [done|].
  split; [done|]. split; [by rewrite mutate_lookup, He|].
  intros r' Hne. by rewrite mutate_lookup_ne.
Qed.

Lemma add_then_remove_witness :
  getEntity (addEntity twoActors emptyWorld 0%nat) "goblin_1" = Some 0%nat
  ∧ let '(removed, σ', w') :=
      removeEntity twoActors (addEntity twoActors emptyWorld 0%nat) "goblin_1" in
    removed = true ∧ entities w' = entities emptyWorld
    ∧ getEntity w' "goblin_1" = None
    ∧ σ' !! 0%nat = Some (deactivate (newEntity "goblin_1" "monster" 0 0))
    ∧ ∀ r', r' ≠ 0%nat → σ' !! r' = twoActors !! r'.
Proof.
  exact (add_then_remove twoActors emptyWorld 0%nat
           (newEntity "goblin_1" "monster" 0 0) eq_refl eq_refl).
Defined.

(** X10.  [removeEntity] reports whether the id was registered, changes
    nothing when it was not, and in either case a second [removeEntity]
    of the same id returns [false] and changes nothing. *)
Theorem removeEntity_twice (σ : Store) (w : World) (entityId : string) :
  let '(removed, σ', w') := removeEntity σ w entityId in
  (removed = true ↔ is_Some (getEntity w entityId))
  ∧ (removed = false → σ' = σ ∧ w' = w)
  ∧ removeEntity σ' w' entityId = (false, σ', w').
Proof.
  unfold removeEntity at 1, getEntity.
  destruct (entities w !! entityId) as [r|] eqn:Hr.
  - split; [by split; [eexists|]|]. split; [done|].
    unfold removeEntity.
    assert (Hdel : ∀ w0 : World,
      entities (if decide (player w = Some r)
                then set_player None (set_entities (delete entityId (entities w)) w0)
                else set_entities (delete entityId (entities w)) w0) !! entityId = None).
    { intros w0. destruct (decide _); simpl; apply lookup_delete_eq. }
    by rewrite Hdel.
  - split; [split; [done|by intros [? ?]]|]. split; [done|].
    unfold removeEntity. by rewrite Hr.
Qed.

Lemma pathStep_closer (current target : Z * Z) :
  current ≠ target →
  manhattan current (pathStep current target) = 1
  ∧ manhattan (pathStep current target) target = manhattan current target - 1.
Proof.
  destruct current as [cx cy], target as [tx ty]. intros Hne.
  assert (cx ≠ tx ∨ cy ≠ ty) as Hd.
  { destruct (decide (cx = tx)) as [->|]; [right|by left]. congruence. }
  unfold pathStep, manhattan, unitStep. simpl.
  destruct (Z.abs (ty - cy) <? Z.abs (tx - cx)) eqn:E;
    [apply Z.ltb_lt in E|apply Z.ltb_ge in E].
  - destruct (0 <? tx - cx) eqn:E1; [apply Z.ltb_lt in E1|apply Z.ltb_ge in E1];
      simpl; lia.
  - destruct (0 <? ty - cy) eqn:E1; [apply Z.ltb_lt in E1|apply Z.ltb_ge in E1];
      simpl; lia.
Qed.

(** The fuel that [findPath] supplies is enough: with more fuel the loop
    returns the same path. *)
Lemma findPath_fuel_enough fuel fuel' w current target path :
  manhattan current target ≤ Z.of_nat fuel →
  manhattan current target ≤ Z.of_nat fuel' →
  findPath_fuel fuel w current target path = findPath_fuel fuel' w current target path.
Proof.
  revert fuel' current path. induction fuel as [|fuel IH]; intros fuel' current path Hf Hf'.
  - assert (current = target) as ->.
    { destruct current, target. unfold manhattan in Hf. simpl in Hf. f_equal; lia. }
    destruct fuel'; [done|]. simpl. by rewrite !Z.eqb_refl.
  - cbn [findPath_fuel].
    destruct ((current.1 =? target.1) && (current.2 =? target.2)) eqn:E.
    { destruct fuel'; [done|]. cbn [findPath_fuel]. by rewrite E. }
    assert (Hne : current ≠ target).
    { intros ->. by rewrite !Z.eqb_refl in E. }
    destruct (pathStep_closer current target Hne) as [_ Hm].
    destruct fuel' as [|fuel'].
    { exfalso. assert (0 ≤ manhattan (pathStep current target) target)
        by (unfold manhattan; lia). lia. }
    cbn [findPath_fuel]. rewrite E.
    destruct (_ <? _); [done|]. apply IH; lia.
Qed.

(** The loop of [findPath] appends a walk from the current cell that is
    no longer than the distance to the end point, and reaches the end
    point if the length limit leaves room for that many cells. *)
Lemma manhattan_same (c : Z * Z) : manhattan c c = 0.
Proof. unfold manhattan. lia. Qed.

Lemma findPath_fuel_spec fuel w current target path :
  manhattan current target ≤ Z.of_nat fuel →
  ∃ steps, findPath_fuel fuel w current target path = path ++ steps
    ∧ walk current steps
    ∧ Z.of_nat (length steps) ≤ manhattan current target
    ∧ (manhattan current target ≤ width w + height w + 1 - Z.of_nat (length path) →
       Z.of_nat (length steps) = manhattan current target
       ∧ default current (last steps) = target).
Proof.
  revert current path. induction fuel as [|fuel IH]; intros current path Hf.
  - exists []. simpl. rewrite app_nil_r.
    assert (current = target) as ->.
    { destruct current, target. unfold manhattan in Hf. simpl in Hf.
      f_equal; lia. }
    rewrite manhattan_same. simpl. done.
  - cbn [findPath_fuel].
    destruct ((current.1 =? target.1) && (current.2 =? target.2)) eqn:E.
    + apply andb_true_iff in E as [E1%Z.eqb_eq E2%Z.eqb_eq].
      assert (current = target) as -> by (destruct current, target; simpl in *; congruence).
      exists []. rewrite app_nil_r, manhattan_same. simpl. done.
    + assert (Hne : current ≠ target).
      { intros ->. by rewrite !Z.eqb_refl in E. }
      destruct (pathStep_closer current target Hne) as [H1 Hm].
      set (c' := pathStep current target) in *.
      rewrite length_app. simpl.
      destruct (width w + height w <? Z.of_nat (length path + 1)) eqn:Hb;
        [apply Z.ltb_lt in Hb|apply Z.ltb_ge in Hb].
      * exists [c']. split; [done|]. split; [done|]. simpl.
        split; [unfold manhattan in *; lia|].
        intros Hroom.
        assert (0 ≤ manhattan c' target) as Hpos by (unfold manhattan; lia).
        assert (manhattan c' target = 0) as H0 by lia.
        split; [lia|].
        destruct c', target. unfold manhattan in H0. simpl in H0. f_equal; lia.
      * destruct (IH c' (path ++ [c'])) as (steps & -> & Hw & Hl & Hroom); [lia|].
        exists (c' :: steps). rewrite <- app_assoc. split; [done|].
        split; [done|]. simpl. split; [lia|].
        intros Hr. rewrite length_app in Hroom. simpl in Hroom.
        destruct Hroom as [Hlen Hlast]; [lia|]. split; [lia|].
        destruct steps as [|s steps']; [done|]. rewrite last_cons_cons.
        destruct (last (s :: steps')) eqn:El; [done|].
        by apply last_None in El.
Qed.

(** When the end point is further away than the length limit allows,
    the loop stops at the limit. *)
Lemma findPath_fuel_cut fuel w current target path :
  manhattan current target ≤ Z.of_nat fuel →
  Z.of_nat (length path) ≤ width w + height w →
  width w + height w + 1 - Z.of_nat (length path) < manhattan current target →
  Z.of_nat (length (findPath_fuel fuel w current target path))
  = width w + height w + 1.
Proof.
  revert current path. induction fuel as [|fuel IH]; intros current path Hf Hl Hm.
  { lia. }
  cbn [findPath_fuel].
  destruct ((current.1 =? target.1) && (current.2 =? target.2)) eqn:E.
  { apply andb_true_iff in E as [E1%Z.eqb_eq E2%Z.eqb_eq].
    assert (current = target) as -> by (destruct current, target; simpl in *; congruence).
    rewrite manhattan_same in Hm. lia. }
  assert (Hne : current ≠ target).
  { intros ->. by rewrite !Z.eqb_refl in E. }
  destruct (pathStep_closer current target Hne) as [_ Hstep].
  rewrite length_app. simpl.
  destruct (width w + height w <? Z.of_nat (length path + 1)) eqn:Hb;
    [apply Z.ltb_lt in Hb|apply Z.ltb_ge in Hb].
  - rewrite length_app. simpl. lia.
  - apply IH; rewrite ?length_app; simpl; lia.
Qed.

(** X11.  [findPath] returns a walk: every cell of the path is one of
    the four neighbours of the cell before it, starting next to the start
    cell, and the path is never longer than the distance between the two
    cells.  When that distance is at most [width + height + 1], as it is
    for two cells of the map, the path has exactly that many cells and
    its last cell is the end cell (it is empty when start and end are the
    same); when the distance is larger, the path is cut off after
    [width + height + 1] cells.  The tiles of the map play no part. *)
Theorem findPath_reaches (w : World) (startX startY endX endY : Z) :
  walk (startX, startY) (findPath w startX startY endX endY)
  ∧ Z.of_nat (length (findPath w startX startY endX endY))
    ≤ manhattan (startX, startY) (endX, endY)
  ∧ (manhattan (startX, startY) (endX, endY) ≤ width w + height w + 1 →
     Z.of_nat (length (findPath w startX startY endX endY))
     = manhattan (startX, startY) (endX, endY)
     ∧ default (startX, startY) (last (findPath w startX startY endX endY))
       = (endX, endY))
  ∧ (width w + height w + 1 < manhattan (startX, startY) (endX, endY) →
     0 ≤ width w + height w →
     Z.of_nat (length (findPath w startX startY endX endY))
     = width w + height w + 1)
  ∧ findPath w startX startY endX endY
    = findPath (mkWorld (width w) (height w) ∅ [] None) startX startY endX endY.
Proof.
  split; [|split; [|split; [|split]]].
  - unfold findPath.
    destruct (findPath_fuel_spec
                (Z.to_nat (Z.abs (endX - startX) + Z.abs (endY - startY))) w
                (startX, startY) (endX, endY) []) as (steps & -> & Hw & Hl & Hr).
    { unfold manhattan. simpl. lia. }
    done.
  - unfold findPath.
    destruct (findPath_fuel_spec
                (Z.to_nat (Z.abs (endX - startX) + Z.abs (endY - startY))) w
                (startX, startY) (endX, endY) []) as (steps & -> & Hw & Hl & Hr).
    { unfold manhattan. simpl. lia. }
    done.
  - intros Hroom. unfold findPath.
    destruct (findPath_fuel_spec
                (Z.to_nat (Z.abs (endX - startX) + Z.abs (endY - startY))) w
                (startX, startY) (endX, endY) []) as (steps & -> & Hw & Hl & Hr).
    { unfold manhattan. simpl. lia. }
    simpl in Hr |- *. apply Hr. lia.
  - intros Hfar Hsize. unfold findPath. apply findPath_fuel_cut.
    + unfold manhattan. simpl. lia.
    + simpl. lia.
    + simpl. lia.
  - unfold findPath.
    generalize (Z.to_nat (Z.abs (endX - startX) + Z.abs (endY - startY))).
    generalize (startX, startY). generalize (@nil (Z * Z)).
    intros path current fuel. revert path current.
    induction fuel as [|fuel IH]; intros path current; [done|].
    cbn [findPath_fuel]. simpl. by rewrite IH.
Qed.

(** A path across the map. *)
Example findPath_across :
  findPath emptyWorld 1 1 4 3 = [(2, 1); (2, 2); (3, 2); (3, 3); (4, 3)].
Proof. reflexivity. Qed.


(** ** Gaining skill experience *)

(** A call for a skill below the cap: the store it leaves and the value
    it returns. *)
Lemma gainSkillExperience_accepted σ r name xp e sks sk :
  σ !! r = Some e → skills (components e) = Some sks → sks !! name = Some sk →
  skill_level sk < maxSkillLevel e →
  gainSkillExperience σ r name xp =
    let res :=
      levelUpLoop (Z.to_nat (maxSkillLevel e - skill_level sk)) (maxSkillLevel e)
        (mkSkill (skill_level sk) (skill_experience sk + xp) (skill_maxExperience sk))
        false in
    (res.2, mutate (update (set_skills (Some (<[name := res.1]> sks)))) r σ).
Proof.
  intros He Hsks Hsk Hlt. unfold gainSkillExperience. rewrite He, Hsks, Hsk.
  apply Z.leb_gt in Hlt. rewrite Hlt. simpl.
  by destruct (levelUpLoop _ _ _ _).
Qed.

(** A call that is turned away leaves the store as it is. *)
Lemma gainSkillExperience_refused σ r name xp :
  (∀ e sk, σ !! r = Some e → skillOf e name = Some sk →
           maxSkillLevel e ≤ skill_level sk) →
  gainSkillExperience σ r name xp = (false, σ).
Proof.
  intros Hcap. unfold gainSkillExperience.
  destruct (σ !! r) as [e|] eqn:He; [|done].
  destruct (skills (components e)) as [sks|] eqn:Hsks; [|done].
  destruct (sks !! name) as [sk|] eqn:Hsk; [|done].
  specialize (Hcap e sk eq_refl). unfold skillOf in Hcap. rewrite Hsks in Hcap.
  specialize (Hcap Hsk). apply Z.leb_le in Hcap. by rewrite Hcap.
Qed.

Lemma levelUpLoop_flag fuel maxLevel sk b :
  (levelUpLoop fuel maxLevel sk b).2 = true
  ↔ b = true ∨ skill_level sk < skill_level (levelUpLoop fuel maxLevel sk b).1.
Proof.
  revert sk b. induction fuel as [|fuel IH]; intros sk b; cbn [levelUpLoop].
  { simpl. split; [by left|]. intros [?|?]; [done|lia]. }
  destruct (levelUpDue maxLevel sk) eqn:Hdue.
  - rewrite IH.
    pose proof (levelUpLoop_level fuel maxLevel (levelUpOnce sk) true) as [Hlo _].
    simpl in Hlo. split; [intros _; right; lia|by left].
  - simpl. split; [by left|]. intros [?|?]; [done|lia].
Qed.

Lemma maxSkillLevel_set_skills v e :
  maxSkillLevel (update (set_skills v) e) = maxSkillLevel e.
Proof. done. Qed.

(** X12.  After a [gainSkillExperience] call the skill is settled: the
    loop has used up the experience as far as the cap allows, so either
    the experience of the skill is below what the next level needs, or
    its level has reached the cap.  This holds for every call, whether it
    was accepted or turned away. *)
Theorem gainSkillExperience_settles (σ : Store) (r : ref) (name : string) (xp : Z)
    (e' : Entity) (sk' : Skill) :
  (gainSkillExperience σ r name xp).2 !! r = Some e' →
  skillOf e' name = Some sk' →
  skill_experience sk' < skill_maxExperience sk'
  ∨ maxSkillLevel e' ≤ skill_level sk'.
Proof.
  intros He' Hsk'.
  assert (Hdue : levelUpDue (maxSkillLevel e') sk' = false).
  { destruct (σ !! r) as [e|] eqn:He; cycle 1.
    { rewrite gainSkillExperience_refused in He' by (intros; congruence).
      simpl in He'. congruence. }
    destruct (skills (components e)) as [sks|] eqn:Hsks; cycle 1.
    { rewrite gainSkillExperience_refused in He'.
      - simpl in He'. assert (e' = e) as -> by congruence.
        unfold skillOf in Hsk'. by rewrite Hsks in Hsk'.
      - intros e0 sk0 ? Hs. assert (e0 = e) as -> by congruence.
        unfold skillOf in Hs. by rewrite Hsks in Hs. }
    destruct (sks !! name) as [sk|] eqn:Hsk; cycle 1.
    { rewrite gainSkillExperience_refused in He'.
      - simpl in He'. assert (e' = e) as -> by congruence.
        unfold skillOf in Hsk'. rewrite Hsks in Hsk'. simpl in Hsk'. congruence.
      - intros e0 sk0 ? Hs. assert (e0 = e) as -> by congruence.
        unfold skillOf in Hs. rewrite Hsks in Hs. simpl in Hs. congruence. }
    destruct (decide (skill_level sk < maxSkillLevel e)) as [Hlt|Hge].
    - rewrite (gainSkillExperience_accepted σ r name xp e sks sk) in He' by done.
      simpl in He'. rewrite mutate_lookup, He in He'. simpl in He'.
      injection He' as <-. rewrite maxSkillLevel_set_skills.
      unfold skillOf in Hsk'. simpl in Hsk'. rewrite lookup_insert_eq in Hsk'.
      injection Hsk' as <-. apply levelUpLoop_done. simpl. lia.
    - rewrite gainSkillExperience_refused in He'.
      + simpl in He'. assert (e' = e) as -> by congruence.
        unfold skillOf in Hsk'. rewrite Hsks in Hsk'. simpl in Hsk'.
        assert (sk' = sk) as -> by congruence.
        unfold levelUpDue. apply andb_false_iff. right. apply Z.ltb_ge. lia.
      + intros e0 sk0 ? Hs. assert (e0 = e) as -> by congruence.
        unfold skillOf in Hs. rewrite Hsks in Hs. simpl in Hs.
        assert (sk0 = sk) as -> by congruence. lia. }
  unfold levelUpDue in Hdue. apply andb_false_iff in Hdue as [H%Z.leb_gt|H%Z.ltb_ge].
  - by left.
  - by right.
Qed.

Lemma gainSkillExperience_settles_witness :
  ∃ e' sk', (gainSkillExperience [levelOneHero] 0%nat "dodge" 100).2 !! 0%nat = Some e'
            ∧ skillOf e' "dodge" = Some sk'
            ∧ (skill_experience sk' < skill_maxExperience sk'
               ∨ maxSkillLevel e' ≤ skill_level sk').
Proof.
  eexists _, _. split; [reflexivity|]. split; [reflexivity|].
  eapply (gainSkillExperience_settles [levelOneHero] 0%nat "dodge" 100);
    reflexivity.
Defined.

(** X13.  [gainSkillExperience] touches one skill of one entity: the
    store keeps its size, every other object is as it was, and the entity
    itself differs at most in its [skills] component, in which every
    skill with another name is as it was. *)
Theorem gainSkillExperience_frame (σ : Store) (r : ref) (name : string) (xp : Z) :
  length (gainSkillExperience σ r name xp).2 = length σ
  ∧ (∀ r', r' ≠ r → (gainSkillExperience σ r name xp).2 !! r' = σ !! r')
  ∧ (∀ e, σ !! r = Some e →
       ∃ e', (gainSkillExperience σ r name xp).2 !! r = Some e'
             ∧ e' = update (set_skills (skills (components e'))) e
             ∧ ∀ name', name' ≠ name → skillOf e' name' = skillOf e name').
Proof.
  assert (Hsame : ∀ e : Entity, e = update (set_skills (skills (components e))) e).
  { by intros [? ? ? ? ? ? ? []]. }
  destruct (σ !! r) as [e|] eqn:He; cycle 1.
  { rewrite gainSkillExperience_refused by (intros; congruence).
    simpl. split; [done|]. split; [done|]. intros e0 He0. congruence. }
  destruct (skills (components e)) as [sks|] eqn:Hsks; cycle 1.
  { rewrite gainSkillExperience_refused.
    - simpl. split; [done|]. split; [done|]. intros e0 [= <-]. by exists e.
    - intros e0 sk0 ? Hs. assert (e0 = e) as -> by congruence.
      unfold skillOf in Hs. by rewrite Hsks in Hs. }
  destruct (sks !! name) as [sk|] eqn:Hsk; cycle 1.
  { rewrite gainSkillExperience_refused.
    - simpl. split; [done|]. split; [done|]. intros e0 [= <-]. by exists e.
    - intros e0 sk0 ? Hs. assert (e0 = e) as -> by congruence.
      unfold skillOf in Hs. rewrite Hsks in Hs. simpl in Hs. congruence. }
  destruct (decide (skill_level sk < maxSkillLevel e)) as [Hlt|Hge]; cycle 1.
  { rewrite gainSkillExperience_refused.
    - simpl. split; [done|]. split; [done|]. intros e0 [= <-]. by exists e.
    - intros e0 sk0 ? Hs. assert (e0 = e) as -> by congruence.
      unfold skillOf in Hs. rewrite Hsks in Hs. simpl in Hs.
      assert (sk0 = sk) as -> by congruence. lia. }
  rewrite (gainSkillExperience_accepted σ r name xp e sks sk) by done. simpl.
  split; [apply mutate_length|]. split; [intros r' Hne; by apply mutate_lookup_ne|].
  intros e0 [= <-]. rewrite mutate_lookup, He. simpl. eexists. split; [done|].
  split; [done|]. intros name' Hne. unfold skillOf. simpl. rewrite Hsks. simpl.
  by rewrite lookup_insert_ne.
Qed.

(** X14.  The value [gainSkillExperience] returns tells whether the
    skill rose: for an entity that has the skill, the level of the skill
    after the call is at least what it was, and the call returns [true]
    exactly when it is higher. *)
Theorem gainSkillExperience_reports (σ : Store) (r : ref) (name : string) (xp : Z)
    (e : Entity) (sk : Skill) :
  σ !! r = Some e → skillOf e name = Some sk →
  ∃ e' sk', (gainSkillExperience σ r name xp).2 !! r = Some e'
            ∧ skillOf e' name = Some sk'
            ∧ skill_level sk ≤ skill_level sk'
            ∧ ((gainSkillExperience σ r name xp).1 = true
               ↔ skill_level sk < skill_level sk').
Proof.
  intros He Hs. unfold skillOf in Hs.
  destruct (skills (components e)) as [sks|] eqn:Hsks; [|done]. simpl in Hs.
  destruct (decide (skill_level sk < maxSkillLevel e)) as [Hlt|Hge]; cycle 1.
  { rewrite gainSkillExperience_refused.
    - exists e, sk. simpl. split; [done|]. unfold skillOf. rewrite Hsks. simpl.
      split; [done|]. split; [lia|]. split; [done|lia].
    - intros e0 sk0 ? Hs0. assert (e0 = e) as -> by congruence.
      unfold skillOf in Hs0. rewrite Hsks in Hs0. simpl in Hs0.
      assert (sk0 = sk) as -> by congruence. lia. }
  rewrite (gainSkillExperience_accepted σ r name xp e sks sk) by done. simpl.
  rewrite mutate_lookup, He. simpl. eexists _, _. split; [done|].
  unfold skillOf. simpl. rewrite lookup_insert_eq. split; [done|].
  set (sk1 := mkSkill _ _ _).
  pose proof (levelUpLoop_level (Z.to_nat (maxSkillLevel e - skill_level sk))
                (maxSkillLevel e) sk1 false) as [Hlo _].
  pose proof (levelUpLoop_flag (Z.to_nat (maxSkillLevel e - skill_level sk))
                (maxSkillLevel e) sk1 false) as Hflag.
  simpl in Hlo, Hflag. split; [done|]. rewrite Hflag.
  split; [by intros [?|?]|by right].
Qed.

Lemma gainSkillExperience_reports_witness :
  ∃ e' sk', (gainSkillExperience [levelOneHero] 0%nat "dodge" 100).2 !! 0%nat = Some e'
            ∧ skillOf e' "dodge" = Some sk'
            ∧ skill_level (mkSkill 0 0 20) ≤ skill_level sk'
            ∧ ((gainSkillExperience [levelOneHero] 0%nat "dodge" 100).1 = true
               ↔ skill_level (mkSkill 0 0 20) < skill_level sk').
Proof.
  exact (gainSkillExperience_reports [levelOneHero] 0%nat "dodge" 100 levelOneHero
           (mkSkill 0 0 20) eq_refl eq_refl).
Defined.

(** A gain of 100 points takes the new skill of a hero of level 1 from
    level 0 to level 4. *)
Example hundred_points_of_dodge :
  (λ e, skillOf e "dodge") <$> (gainSkillExperience [levelOneHero] 0%nat "dodge" 100).2 !! 0%nat
  = Some (Some (mkSkill 4 8 28)).
Proof. reflexivity. Qed.


(** ** The numbers of combat *)

Lemma clamp_bounds (lo hi v : Q) : (lo <= hi)%Q → (lo <= clamp lo hi v <= hi)%Q.
Proof.
  intros Hle. unfold clamp. split; [apply Q.le_max_l|].
  apply Q.max_lub; [done|apply Q.le_min_l].
Qed.

Lemma equipmentDamage_ranges g e :
  (1 <= dr_damage (equipmentDamage g e))%Q
  ∧ (10 <= dr_hitChance (equipmentDamage g e) <= 95)%Q
  ∧ (0.3 <= dr_swingSpeed (equipmentDamage g e) <= 2)%Q.
Proof.
  unfold equipmentDamage. destruct (stats (components e)) as [st|].
  2:{ simpl. repeat split; by vm_compute. }
  match goal with
  | |- context [match ?t with pair _ _ => _ end] => destruct t as [[bd hc] ss]
  end.
  simpl. split; [apply Q.le_max_l|].
  split; apply clamp_bounds; by vm_compute.
Qed.

Lemma calculateDefense_nonneg g e : (0 <= calculateDefense g e)%Q.
Proof. unfold calculateDefense. apply Q.le_max_l. Qed.

Lemma attackSpeed_range g a : (3200 <= attackSpeed g a <= 64000 / 3)%Q.
Proof.
  destruct (equipmentDamage_ranges g a) as (_ & _ & Hlo & Hhi).
  unfold attackSpeed, baseAttackSpeed.
  set (ss := dr_swingSpeed (equipmentDamage g a)) in *.
  assert (Hpos : (0 < ss)%Q) by (eapply Qlt_le_trans; [|exact Hlo]; by vm_compute).
  split.
  - apply Qle_shift_div_l; [done|].
    apply Qle_trans with (3200 * 2)%Q; [|by vm_compute].
    apply Qmult_le_l; [by vm_compute|done].
  - apply Qle_shift_div_r; [done|].
    apply Qle_trans with (64000 / 3 * 0.3)%Q; [by vm_compute|].
    apply Qmult_le_l; [by vm_compute|done].
Qed.

(** X15.  The results of [EquipmentSystem.calculateDamage] and
    [calculateDefense] stay in their ranges whatever the stats, the
    equipment and the skills are: the damage is at least 1, the hit
    chance lies between 10 and 95, the swing speed between 0.3 and 2, and
    the defense is at least 0. *)
Theorem equipment_numbers_in_range (g : Game) (e : Entity) :
  (1 <= dr_damage (equipmentDamage g e))%Q
  ∧ (10 <= dr_hitChance (equipmentDamage g e) <= 95)%Q
  ∧ (0.3 <= dr_swingSpeed (equipmentDamage g e) <= 2)%Q
  ∧ (0 <= calculateDefense g e)%Q.
Proof.
  destruct (equipmentDamage_ranges g e) as (H1 & H2 & H3).
  repeat split; try apply H2; try apply H3; [done|apply calculateDefense_nonneg].
Qed.

(** X16.  No attacker strikes twice within 3200 ms: the required gap
    [baseAttackSpeed / swingSpeed] lies between 3200 ms and 64000/3 ms
    for every attacker, and after an [attackTarget] call that passed both
    gates, every call by the same attacker, on any target, that comes
    less than 3200 ms later is turned away and changes nothing. *)
Theorem attacks_at_least_3200_apart (g : Game) (now1 now2 : Z) (rolls1 rolls2 : Rolls)
    (attacker target1 target2 : ref) (st : GameState) :
  rejected (attackTarget g now1 rolls1 attacker target1 st).1 = false →
  now2 - now1 < 3200 →
  (∀ a, (3200 <= attackSpeed g a <= 64000 / 3)%Q)
  ∧ rejected (attackTarget g now2 rolls2 attacker target2
                (attackTarget g now1 rolls1 attacker target1 st).2).1 = true
  ∧ (attackTarget g now2 rolls2 attacker target2
       (attackTarget g now1 rolls1 attacker target1 st).2).2
    = (attackTarget g now1 rolls1 attacker target1 st).2.
Proof.
  intros Hperf Hsoon. split; [intros a; apply attackSpeed_range|].
  destruct (attackTarget_records_time g now1 rolls1 attacker target1 st Hperf)
    as (a' & Ha' & Hlast).
  apply (attackTarget_within_gap g now2 rolls2 attacker target2 _ a' now1 Ha' Hlast).
  eapply Qlt_le_trans; [|apply attackSpeed_range].
  rewrite Zlt_Qlt in Hsoon. exact Hsoon.
Qed.

Lemma attacks_at_least_3200_apart_witness :
  rejected (attackTarget theGame 10000 hitRolls 0%nat 1%nat (arena playerEquipment)).1
  = false
  ∧ 13000 - 10000 < 3200
  ∧ (∀ a, (3200 <= attackSpeed theGame a <= 64000 / 3)%Q)
  ∧ rejected (attackTarget theGame 13000 hitRolls 0%nat 1%nat
                (attackTarget theGame 10000 hitRolls 0%nat 1%nat
                   (arena playerEquipment)).2).1 = true
  ∧ (attackTarget theGame 13000 hitRolls 0%nat 1%nat
       (attackTarget theGame 10000 hitRolls 0%nat 1%nat (arena playerEquipment)).2).2
    = (attackTarget theGame 10000 hitRolls 0%nat 1%nat (arena playerEquipment)).2.
Proof.
  split; [by vm_compute|]. split; [lia|].
  apply (attacks_at_least_3200_apart theGame 10000 13000 hitRolls hitRolls
           0%nat 1%nat 1%nat (arena playerEquipment)); [by vm_compute|lia].
Defined.

Lemma finalHitChance_range g sa t : (5 <= finalHitChance g sa t <= 95)%Q.
Proof.
  unfold finalHitChance. split; [apply Q.le_max_l|].
  apply Q.max_lub; [by vm_compute|apply Q.le_min_l].
Qed.

(** X17.  Every attack can hit and every attack can miss: whatever the
    stats of the two sides are, [rollToHit] hits when the draw is below
    0.05 and misses when the draw is 0.95 or more, because the hit chance
    is kept between 5 and 95 (and is 50 when either side has no stats). *)
Theorem hit_chance_between_5_and_95 (g : Game) (random : Q) (attacker target : Entity) :
  ((random < 0.05)%Q → rollToHit g random attacker target = true)
  ∧ ((0.95 <= random)%Q → rollToHit g random attacker target = false).
Proof.
  assert (Hlow : (random < 0.05 → random * 100 < 5)%Q).
  { intros H. apply Qlt_le_trans with (0.05 * 100)%Q; [|by vm_compute].
    apply Qmult_lt_compat_r; [by vm_compute|done]. }
  assert (Hhigh : (0.95 <= random → 95 <= random * 100)%Q).
  { intros H. apply Qle_trans with (0.95 * 100)%Q; [by vm_compute|].
    apply Qmult_le_compat_r; [done|by vm_compute]. }
  unfold rollToHit.
  destruct (stats (components attacker)) as [sa|];
    [destruct (stats (components target)) as [st'|]|].
  - pose proof (finalHitChance_range g sa target) as [H5 H95]. split; intros H.
    + apply Qltb_lt. eapply Qlt_le_trans; [by apply Hlow|done].
    + apply Qltb_ge. eapply Qle_trans; [exact H95|by apply Hhigh].
  - split; intros H.
    + apply Qltb_lt. eapply Qlt_trans; [exact H|by vm_compute].
    + apply Qltb_ge. eapply Qle_trans; [|exact H]. by vm_compute.
  - split; intros H.
    + apply Qltb_lt. eapply Qlt_trans; [exact H|by vm_compute].
    + apply Qltb_ge. eapply Qle_trans; [|exact H]. by vm_compute.
Qed.

Lemma Qleb_iff (a b : Q) : Qleb a b = true ↔ (a <= b)%Q.
Proof. apply Qle_bool_iff. Qed.

(** X18.  [applyDamage] never leaves health below 0 and never touches
    the maximum; damage that is not negative does not raise the health;
    and the entity is dead afterwards exactly when the damage was at
    least its health. *)
Theorem applyDamage_health (damage : Q) (e : Entity) (h : Health) :
  health (components e) = Some h →
  ∃ h', health (components (applyDamage damage e)) = Some h'
        ∧ health_max h' = health_max h
        ∧ (0 <= health_current h')%Q
        ∧ ((0 <= damage)%Q → (0 <= health_current h)%Q →
           (health_current h' <= health_current h)%Q)
        ∧ isDead (applyDamage damage e) = Qleb (health_current h) damage.
Proof.
  intros Hh. unfold applyDamage, isDead. rewrite Hh. simpl.
  eexists. split; [done|]. simpl. split; [done|]. split; [apply Q.le_max_l|].
  split.
  - intros Hd Hc. apply Q.max_lub; [done|]. lra.
  - apply eq_iff_eq_true. rewrite !Qleb_iff. split.
    + intros H.
      assert (H' : (health_current h - damage <= 0)%Q).
      { eapply Qle_trans; [apply Q.le_max_r|exact H]. }
      lra.
    + intros H. apply Q.max_lub; lra.
Qed.

Lemma applyDamage_health_witness :
  ∃ h', health (components (applyDamage 3 theGoblin)) = Some h'
        ∧ health_max h' = health_max (mkHealth 10 10)
        ∧ (0 <= health_current h')%Q
        ∧ ((0 <= 3)%Q → (0 <= health_current (mkHealth 10 10))%Q →
           (health_current h' <= health_current (mkHealth 10 10))%Q)
        ∧ isDead (applyDamage 3 theGoblin) = Qleb (health_current (mkHealth 10 10)) 3.
Proof. exact (applyDamage_health 3 theGoblin (mkHealth 10 10) eq_refl). Defined.



(** The goblin next to the player strikes; seven cells away it does
    not. *)
Example goblin_strikes_next_to_player :
  lastAttack <$> (components <$>
    store (processMonsterCombat theGame 10000 hitRolls 1%nat
             (nearArena (mkNotice false 0 10 5))) !! 1%nat)
  = Some None
  ∧ lastAttack <$> (components <$>
      store (processMonsterCombat theGame 10000 hitRolls 1%nat
               (mkState [thePlayer playerEquipment;
                         setPosition 6 5 (watchfulGoblin (mkNotice false 0 10 5))]
                        (world (nearArena (mkNotice false 0 10 5))))) !! 1%nat)
    = Some (Some 10000).
Proof. split; reflexivity. Qed.

(** X20.  The death of anything that is not a monster, the player for
    one, leaves no corpse and gives no experience: [handleDeath] only
    removes the entity from the world, so the store keeps its size, the
    entity is switched off, its id leaves the registry, and when it was
    the registered player, [world.player] is cleared. *)
Theorem death_of_the_player (g : Game) (picks : list nat) (entity : ref)
    (st : GameState) (e : Entity) :
  store st !! entity = Some e → e_type e ≠ "monster" →
  entities (world st) !! e_id e = Some entity →
  ∃ st', handleDeath g picks entity st = Some st'
         ∧ store st' = mutate deactivate entity (store st)
         ∧ entities (world st') = delete (e_id e) (entities (world st))
         ∧ (player (world st) = Some entity → player (world st') = None)
         ∧ (player (world st) ≠ Some entity → player (world st') = player (world st)).
Proof.
  intros He Hty Hreg. unfold handleDeath. rewrite He.
  assert (Hm : String.eqb (e_type e) "monster" = false).
  { by apply String.eqb_neq. }
  rewrite Hm.
  assert (Hexp : match player (world st) with
                 | Some _ => Some (store st) | None => Some (store st) end
                 = Some (store st)) by by destruct (player (world st)).
  rewrite Hexp. rewrite He. simpl.
  unfold removeEntity. rewrite Hreg. eexists. split; [done|]. simpl.
  split; [done|]. destruct (decide (player (world st) = Some entity)); simpl; done.
Qed.

Lemma death_of_the_player_witness :
  ∃ st', handleDeath theGame [] 0%nat (arena playerEquipment) = Some st'
         ∧ store st' = mutate deactivate 0%nat (store (arena playerEquipment))
         ∧ entities (world st')
           = delete (e_id (thePlayer playerEquipment))
               (entities (world (arena playerEquipment)))
         ∧ (player (world (arena playerEquipment)) = Some 0%nat
            → player (world st') = None)
         ∧ (player (world (arena playerEquipment)) ≠ Some 0%nat
            → player (world st') = player (world (arena playerEquipment))).
Proof.
  apply (death_of_the_player theGame [] 0%nat (arena playerEquipment)
           (thePlayer playerEquipment) eq_refl).
  - discriminate.
  - by vm_compute.
Defined.


(** ** Experience and levels *)

Lemma getExperienceForLevel_beyond (lvl : Z) :
  20 < lvl → getExperienceForLevel lvl = 10450 + (lvl - 20) * 500.
Proof.
  intros H. unfold getExperienceForLevel.
  replace (lvl <=? 0) with false by (symmetry; apply Z.leb_gt; lia).
  replace (Z.of_nat (length experienceTable) <? lvl) with true
    by (symmetry; apply Z.ltb_lt; simpl; lia).
  simpl. lia.
Qed.

Lemma getExperienceForLevel_step (lvl : Z) :
  1 ≤ lvl → getExperienceForLevel lvl < getExperienceForLevel (lvl + 1).
Proof.
  intros H. destruct (decide (20 < lvl)) as [Hb|Hs].
  - rewrite !getExperienceForLevel_beyond by lia. lia.
  - assert (Hcases : lvl = 1 ∨ lvl = 2 ∨ lvl = 3 ∨ lvl = 4 ∨ lvl = 5 ∨ lvl = 6
                     ∨ lvl = 7 ∨ lvl = 8 ∨ lvl = 9 ∨ lvl = 10 ∨ lvl = 11 ∨ lvl = 12
                     ∨ lvl = 13 ∨ lvl = 14 ∨ lvl = 15 ∨ lvl = 16 ∨ lvl = 17
                     ∨ lvl = 18 ∨ lvl = 19 ∨ lvl = 20) by lia.
    repeat (destruct Hcases as [->|Hcases]; [by vm_compute|]).
    subst. by vm_compute.
Qed.

(** X21.  Every level needs more experience than the one before it: on
    levels from 1 on, [getExperienceForLevel] is strictly increasing, in
    the table of the first 20 levels and in the 500 points a level that
    follow it; level 1 needs no experience. *)
Theorem getExperienceForLevel_increasing (a b : Z) :
  1 ≤ a → a < b →
  getExperienceForLevel 1 = 0
  ∧ getExperienceForLevel a < getExperienceForLevel b.
Proof.
  intros Ha Hab. split; [done|].
  assert (H : ∀ k : nat, getExperienceForLevel a
                         < getExperienceForLevel (a + 1 + Z.of_nat k)).
  { induction k as [|k IH].
    - rewrite Z.add_0_r. by apply getExperienceForLevel_step.
    - etrans; [exact IH|].
      replace (a + 1 + Z.of_nat (S k)) with (a + 1 + Z.of_nat k + 1) by lia.
      apply getExperienceForLevel_step. lia. }
  specialize (H (Z.to_nat (b - a - 1))).
  by replace (a + 1 + Z.of_nat (Z.to_nat (b - a - 1))) with b in H by lia.
Qed.

Lemma getExperienceForLevel_increasing_witness :
  1 ≤ 3 ∧ 3 < 25
  ∧ getExperienceForLevel 1 = 0
  ∧ getExperienceForLevel 3 < getExperienceForLevel 25.
Proof.
  split; [lia|]. split; [lia|].
  apply (getExperienceForLevel_increasing 3 25); lia.
Defined.

(** X22.  [addExperience] adds the experience in full and raises the
    level by at most one, however much experience comes in: the level
    goes up by one exactly when the new total reaches what the next level
    needs and the entity has stats, and stays as it is otherwise. *)
Theorem addExperience_one_level (picks : list nat) (xp : Z) (e : Entity) (lv : Level) :
  level (components e) = Some lv →
  ∃ e' lv', addExperience picks xp e = Some e'
            ∧ level (components e') = Some lv'
            ∧ level_experience lv' = level_experience lv + xp
            ∧ (level_value lv' = level_value lv
               ∨ level_value lv' = level_value lv + 1)
            ∧ (level_value lv' = level_value lv + 1
               ↔ getExperienceForLevel (level_value lv + 1) ≤ level_experience lv + xp
                 ∧ is_Some (stats (components e))).
Proof.
  intros Hlv. unfold addExperience. rewrite Hlv.
  unfold checkLevelUp. simpl.
  destruct (getExperienceForLevel (level_value lv + 1) <=? level_experience lv + xp)
    eqn:Hreq; [apply Z.leb_le in Hreq|apply Z.leb_gt in Hreq].
  - unfold performLevelUp. simpl.
    destruct (stats (components e)) as [st|] eqn:Hst.
    + eexists _, (mkLevel (level_value lv + 1) (level_experience lv + xp)).
      split; [done|]. split; [by destruct (health (components e))|]. simpl.
      split; [done|]. split; [by right|]. split; [|done].
      intros _. split; [done|by eexists].
    + eexists _, _. split; [done|]. simpl. split; [done|]. simpl.
      split; [done|]. split; [by left|]. split; [lia|]. by intros [_ [? ?]].
  - eexists _, _. split; [done|]. simpl. split; [done|]. simpl.
    split; [done|]. split; [by left|]. split; [lia|]. intros [? _]. lia.
Qed.

Lemma addExperience_one_level_witness :
  ∃ e' lv', addExperience [0%nat; 3%nat] 5000 (thePlayer playerEquipment) = Some e'
            ∧ level (components e') = Some lv'
            ∧ level_experience lv' = level_experience (mkLevel 1 0) + 5000
            ∧ (level_value lv' = level_value (mkLevel 1 0)
               ∨ level_value lv' = level_value (mkLevel 1 0) + 1)
            ∧ (level_value lv' = level_value (mkLevel 1 0) + 1
               ↔ getExperienceForLevel (level_value (mkLevel 1 0) + 1)
                 ≤ level_experience (mkLevel 1 0) + 5000
                 ∧ is_Some (stats (components (thePlayer playerEquipment)))).
Proof.
  exact (addExperience_one_level [0%nat; 3%nat] 5000 (thePlayer playerEquipment)
           (mkLevel 1 0) eq_refl).
Defined.

Lemma bumpStat_grows st pick :
  strength st ≤ strength (bumpStat st pick)
  ∧ dexterity st ≤ dexterity (bumpStat st pick)
  ∧ intelligence st ≤ intelligence (bumpStat st pick)
  ∧ constitution st ≤ constitution (bumpStat st pick)
  ∧ agility (bumpStat st pick) = agility st.
Proof.
  unfold bumpStat. destruct pick as [|[|[|pick]]]; simpl;
    repeat split; try lia.
  all: match goal with |- context [?v =? 0] => destruct (v =? 0) eqn:E end;
    try apply Z.eqb_eq in E; lia.
Qed.

Lemma bumpStats_grow picks st :
  strength st ≤ strength (foldl bumpStat st picks)
  ∧ dexterity st ≤ dexterity (foldl bumpStat st picks)
  ∧ intelligence st ≤ intelligence (foldl bumpStat st picks)
  ∧ constitution st ≤ constitution (foldl bumpStat st picks)
  ∧ agility (foldl bumpStat st picks) = agility st.
Proof.
  revert st. induction picks as [|pick picks IH]; intros st; simpl.
  { split; [lia|]. split; [lia|]. split; [lia|]. split; [lia|]. done. }
  destruct (IH (bumpStat st pick)) as (H1 & H2 & H3 & H4 & H5).
  destruct (bumpStat_grows st pick) as (G1 & G2 & G3 & G4 & G5).
  split; [lia|]. split; [lia|]. split; [lia|]. split; [lia|]. congruence.
Qed.

(** X23.  A level-up restores the character: when [addExperience]
    raises the level of an entity with stats and health, the maximum
    health grows by 4 and the health is set to the new maximum, no stat
    drops, and agility is never among the stats that grow. *)
Theorem level_up_restores_health (picks : list nat) (xp : Z) (e : Entity)
    (lv : Level) (st : Stats) (h : Health) :
  level (components e) = Some lv → stats (components e) = Some st →
  health (components e) = Some h →
  getExperienceForLevel (level_value lv + 1) ≤ level_experience lv + xp →
  ∃ e' st', addExperience picks xp e = Some e'
            ∧ health (components e')
              = Some (mkHealth (health_max h + 4) (health_max h + 4))
            ∧ stats (components e') = Some st'
            ∧ strength st ≤ strength st' ∧ dexterity st ≤ dexterity st'
            ∧ intelligence st ≤ intelligence st'
            ∧ constitution st ≤ constitution st'
            ∧ agility st' = agility st.
Proof.
  intros Hlv Hst Hh Hreq. unfold addExperience. rewrite Hlv.
  unfold checkLevelUp. simpl. apply Z.leb_le in Hreq. rewrite Hreq.
  unfold performLevelUp. simpl. rewrite Hst, Hh. simpl.
  eexists _, _. split; [done|]. simpl. split; [done|]. split; [done|].
  apply bumpStats_grow.
Qed.

Lemma level_up_restores_health_witness :
  ∃ e' st', addExperience [0%nat; 3%nat] 5000 (thePlayer playerEquipment) = Some e'
            ∧ health (components e')
              = Some (mkHealth (health_max (mkHealth 50 50) + 4)
                               (health_max (mkHealth 50 50) + 4))
            ∧ stats (components e') = Some st'
            ∧ strength (mkStats 10 10 10 10 15) ≤ strength st'
            ∧ dexterity (mkStats 10 10 10 10 15) ≤ dexterity st'
            ∧ intelligence (mkStats 10 10 10 10 15) ≤ intelligence st'
            ∧ constitution (mkStats 10 10 10 10 15) ≤ constitution st'
            ∧ agility st' = agility (mkStats 10 10 10 10 15).
Proof.
  apply (level_up_restores_health [0%nat; 3%nat] 5000 (thePlayer playerEquipment)
           (mkLevel 1 0) (mkStats 10 10 10 10 15) (mkHealth 50 50)
           eq_refl eq_refl eq_refl).
  by vm_compute.
Defined.


(** ** Movement of monsters *)

(** [canMoveTo] reads positions, ids, types and the active flag only: a
    change of components does not change its answer. *)
Lemma canMoveTo_components (f : Entity → Entity) (r : ref) (st : GameState)
    (e : Entity) (x y : Z) :
  (∀ o, e_x (f o) = e_x o ∧ e_y (f o) = e_y o ∧ e_active (f o) = e_active o
        ∧ e_id (f o) = e_id o ∧ e_type (f o) = e_type o) →
  canMoveTo (mkState (mutate f r (store st)) (world st)) (f e) x y
  = canMoveTo st e x y.
Proof.
  intros Hf. unfold canMoveTo, getEntitiesAt. simpl.
  destruct (_ || _); [done|]. destruct (negb (isPassable _ _ _)); [done|].
  f_equal. destruct (Hf e) as (_ & _ & _ & -> & _).
  induction (map_to_list (entities (world st))) as [|kv l IH]; [done|]. simpl.
  assert (Hlk : mutate f r (store st) !! kv.2
                = (if decide (kv.2 = r) then f else id) <$> store st !! kv.2).
  { destruct (decide (kv.2 = r)) as [->|Hne].
    - by rewrite mutate_lookup.
    - rewrite mutate_lookup_ne by done. by destruct (store st !! kv.2). }
  rewrite Hlk. destruct (store st !! kv.2) as [o|]; simpl; [|apply IH].
  assert (Hsame : ∀ o' : Entity,
    o' = (if decide (kv.2 = r) then f else id) o →
    e_x o' = e_x o ∧ e_y o' = e_y o ∧ e_active o' = e_active o
    ∧ e_id o' = e_id o ∧ e_type o' = e_type o).
  { intros o' ->. destruct (decide (kv.2 = r)); [apply Hf|done]. }
  destruct (Hsame _ eq_refl) as (Hx & Hy & Hact & Hid & Hty).
  rewrite Hx, Hy, Hact.
  destruct ((e_x o =? x) && (e_y o =? y) && e_active o); simpl; [|apply IH].
  rewrite Hact, Hid, Hty. f_equal. exact IH.
Qed.

(** What [canMoveTo] accepts. *)
Lemma canMoveTo_freeCell st e x y :
  canMoveTo st e x y = true ↔ freeCell st e x y.
Proof.
  unfold canMoveTo, freeCell.
  destruct ((x <? 0) || (width (world st) <=? x) || (y <? 0)
            || (height (world st) <=? y)) eqn:Hb.
  { split; [done|]. intros (Hx & Hy & _). exfalso.
    repeat (apply orb_true_iff in Hb as [Hb|Hb]);
      try apply Z.ltb_lt in Hb; try apply Z.leb_le in Hb; lia. }
  repeat (apply orb_false_iff in Hb as [Hb ?]).
  assert (0 ≤ x < width (world st) ∧ 0 ≤ y < height (world st)) as [Hx Hy].
  { repeat match goal with
           | H : (_ <? _) = false |- _ => apply Z.ltb_ge in H
           | H : (_ <=? _) = false |- _ => apply Z.leb_gt in H
           end. lia. }
  destruct (isPassable (world st) x y); simpl; [|split; [done|by intros (_ & _ & ? & _)]].
  rewrite negb_true_iff. split.
  - intros Hnone. split; [done|]. split; [done|]. split; [done|].
    intros id r o Hreg Ho Ha Hox Hoy.
    destruct (String.eqb (e_id o) (e_id e)) eqn:Eid; [left; by apply String.eqb_eq|].
    destruct (String.eqb (e_type o) "corpse") eqn:Ety; [right; by apply String.eqb_eq|].
    exfalso. apply not_true_iff_false in Hnone. apply Hnone.
    apply existsb_exists. exists o. split; [|by rewrite Ha, Eid, Ety].
    unfold getEntitiesAt. apply filter_In. split.
    + apply list_elem_of_In, list_elem_of_omap. exists (id, r). split; [|done].
      by apply elem_of_map_to_list.
    + rewrite Hox, Hoy, Ha, !Z.eqb_refl. done.
  - intros (_ & _ & _ & Hfree). apply not_true_iff_false.
    intros (o & Hin & Hq)%existsb_exists.
    unfold getEntitiesAt in Hin. apply filter_In in Hin as [Hin Hp].
    apply list_elem_of_In, list_elem_of_omap in Hin as ([id r] & Hreg & Ho).
    apply elem_of_map_to_list in Hreg. simpl in Ho.
    apply andb_true_iff in Hp as [[Hox%Z.eqb_eq Hoy%Z.eqb_eq]%andb_true_iff Ha].
    apply andb_true_iff in Hq as [[_ Hid%negb_true_iff%String.eqb_neq]%andb_true_iff
                                  Hty%negb_true_iff%String.eqb_neq].
    destruct (Hfree id r o Hreg Ho Ha Hox Hoy); done.
Qed.

Lemma approach_try st e target x y otherwise :
  Z.abs (x - e_x e) ≤ 1 → Z.abs (y - e_y e) ≤ 1 →
  Z.abs (x - e_x target) + Z.abs (y - e_y target)
  < Z.abs (e_x e - e_x target) + Z.abs (e_y e - e_y target) →
  approach st e target otherwise →
  approach st e target (if canMoveTo st e x y then (x, y) else otherwise).
Proof.
  intros H1 H2 H3 Ho. destruct (canMoveTo st e x y) eqn:E; [|done].
  right. simpl. split; [done|]. split; [done|]. exact H3.
Qed.

(** One step along an axis towards a coordinate that differs. *)
Lemma axis_step (c t : Z) :
  t - c ≠ 0 →
  Z.abs (c + unitStep (t - c) - c) = 1
  ∧ Z.abs (c + unitStep (t - c) - t) = Z.abs (c - t) - 1.
Proof.
  intros Hne. unfold unitStep.
  destruct (0 <? t - c) eqn:E; [apply Z.ltb_lt in E|apply Z.ltb_ge in E]; lia.
Qed.

Lemma axis_stay (c : Z) : Z.abs (c - c) = 0.
Proof. rewrite Z.sub_diag. done. Qed.

Lemma axis_pos (c t : Z) : t - c ≠ 0 → 0 < Z.abs (c - t).
Proof. lia. Qed.

Lemma far_diagonal (dx dy : Z) :
  3 ≤ dx * dx + dy * dy → Z.abs dx ≤ Z.abs dy → Z.abs dy ≤ Z.abs dx →
  dx ≠ 0 ∧ dy ≠ 0.
Proof.
  intros H3 H1 H2. split; intros ->.
  - assert (dy = 0) as -> by lia. simpl in H3. lia.
  - assert (dx = 0) as -> by lia. simpl in H3. lia.
Qed.

(** A step along the first axis, along the second, and along both. *)
Lemma approach_x st e target otherwise :
  e_x target - e_x e ≠ 0 →
  approach st e target otherwise →
  approach st e target
    (if canMoveTo st e (e_x e + unitStep (e_x target - e_x e)) (e_y e)
     then (e_x e + unitStep (e_x target - e_x e), e_y e) else otherwise).
Proof.
  intros Hx Ho. destruct (axis_step (e_x e) (e_x target) Hx) as [H1 H2].
  pose proof (axis_pos _ _ Hx) as Hp.
  apply approach_try; [rewrite H1; done|rewrite axis_stay; done| |done].
  rewrite H2. generalize dependent (Z.abs (e_x e - e_x target)).
  generalize (Z.abs (e_y e - e_y target)). intros. lia.
Qed.

Lemma approach_y st e target otherwise :
  e_y target - e_y e ≠ 0 →
  approach st e target otherwise →
  approach st e target
    (if canMoveTo st e (e_x e) (e_y e + unitStep (e_y target - e_y e))
     then (e_x e, e_y e + unitStep (e_y target - e_y e)) else otherwise).
Proof.
  intros Hy Ho. destruct (axis_step (e_y e) (e_y target) Hy) as [H1 H2].
  pose proof (axis_pos _ _ Hy) as Hp.
  apply approach_try; [rewrite axis_stay; done|rewrite H1; done| |done].
  rewrite H2. generalize dependent (Z.abs (e_y e - e_y target)).
  generalize (Z.abs (e_x e - e_x target)). intros. lia.
Qed.

Lemma approach_xy st e target otherwise :
  e_x target - e_x e ≠ 0 → e_y target - e_y e ≠ 0 →
  approach st e target otherwise →
  approach st e target
    (if canMoveTo st e (e_x e + unitStep (e_x target - e_x e))
                       (e_y e + unitStep (e_y target - e_y e))
     then (e_x e + unitStep (e_x target - e_x e),
           e_y e + unitStep (e_y target - e_y e))
     else otherwise).
Proof.
  intros Hx Hy Ho.
  destruct (axis_step (e_x e) (e_x target) Hx) as [H1 H2].
  destruct (axis_step (e_y e) (e_y target) Hy) as [H3 H4].
  pose proof (axis_pos _ _ Hx) as Hp.
  apply approach_try; [rewrite H1; done|rewrite H3; done| |done].
  rewrite H2, H4. generalize dependent (Z.abs (e_x e - e_x target)).
  generalize (Z.abs (e_y e - e_y target)). intros. lia.
Qed.

Lemma moveTowardsTarget_approach st e target :
  approach st e target (moveTowardsTarget st e target).
Proof.
  unfold moveTowardsTarget.
  assert (Hstay : approach st e target (e_x e, e_y e)) by by left.
  destruct (Qleb (inject_Z _) (1.5 * 1.5)) eqn:Hclose.
  - assert (Hcard : approach st e target
      (if canMoveTo st e
            (e_x e + (if e_x target - e_x e =? 0 then 0
                      else unitStep (e_x target - e_x e)))
            (e_y e + (if e_y target - e_y e =? 0 then 0
                      else unitStep (e_y target - e_y e)))
       then (e_x e + (if e_x target - e_x e =? 0 then 0
                      else unitStep (e_x target - e_x e)),
             e_y e + (if e_y target - e_y e =? 0 then 0
                      else unitStep (e_y target - e_y e)))
       else (e_x e, e_y e))).
    { destruct (e_x target - e_x e =? 0) eqn:Ex;
        [|apply Z.eqb_neq in Ex];
        (destruct (e_y target - e_y e =? 0) eqn:Ey; [|apply Z.eqb_neq in Ey]).
      - rewrite !Z.add_0_r. by destruct (canMoveTo _ _ _ _); left.
      - rewrite Z.add_0_r. by apply approach_y.
      - rewrite Z.add_0_r. by apply approach_x.
      - by apply approach_xy. }
    destruct (negb (e_x target - e_x e =? 0) && negb (e_y target - e_y e =? 0))
      eqn:Hdiag; [|exact Hcard].
    apply andb_true_iff in Hdiag
      as [Ex%negb_true_iff%Z.eqb_neq Ey%negb_true_iff%Z.eqb_neq].
    by apply approach_xy.
  - assert (Hfar : 3 ≤ (e_x target - e_x e) * (e_x target - e_x e)
                       + (e_y target - e_y e) * (e_y target - e_y e)).
    { destruct (Z_le_gt_dec 3 ((e_x target - e_x e) * (e_x target - e_x e)
                                 + (e_y target - e_y e) * (e_y target - e_y e)))
        as [Hle|Hn]; [exact Hle|]. exfalso.
      assert (Hq : Qleb (inject_Z ((e_x target - e_x e) * (e_x target - e_x e)
                                   + (e_y target - e_y e) * (e_y target - e_y e)))
                        (1.5 * 1.5) = true).
      { apply Qleb_iff. unfold Qle. simpl.
        generalize dependent ((e_x target - e_x e) * (e_x target - e_x e)
                              + (e_y target - e_y e) * (e_y target - e_y e)).
        intros. lia. }
      congruence. }
    destruct (Z.abs (e_y target - e_y e) <? Z.abs (e_x target - e_x e)) eqn:E1;
      [apply Z.ltb_lt in E1|apply Z.ltb_ge in E1].
    { apply approach_x; [|done]. clear -E1. lia. }
    destruct (Z.abs (e_x target - e_x e) <? Z.abs (e_y target - e_y e)) eqn:E2;
      [apply Z.ltb_lt in E2|apply Z.ltb_ge in E2].
    { apply approach_y; [|done]. clear -E2. lia. }
    destruct (far_diagonal _ _ Hfar E1 E2) as [Ex Ey].
    apply approach_xy; [done|done|].
    apply approach_x; [done|]. by apply approach_y.
Qed.

Lemma approach_goodMove st e target xy : approach st e target xy → goodMove st e xy.
Proof. intros [?|(? & ? & _)]; [by left|by right]. Qed.

Lemma randomMovement_goodMove random st e : goodMove st e (randomMovement random st e).
Proof.
  unfold randomMovement.
  destruct (directions !! _) as [[rx ry]|] eqn:Hd; [|by left].
  destruct (canMoveTo st e (e_x e + rx) (e_y e + ry)) eqn:E; [|by left].
  right. split; [|done]. apply list_elem_of_lookup_2 in Hd.
  unfold directions in Hd. unfold withinOneStep. simpl.
  repeat (apply elem_of_cons in Hd as [[= -> ->]|Hd]; [lia|]).
  by apply elem_of_nil in Hd.
Qed.

Lemma movedWithinReach_refl entity e st :
  store st !! entity = Some e → movedWithinReach entity e st st.
Proof.
  intros He. split; [done|]. split; [done|]. exists e. repeat split; try done.
  by left.
Qed.

Lemma movedWithinReach_move entity e st (f : Entity → Entity) (xy : Z * Z) :
  store st !! entity = Some e →
  (∀ o, e_x (f o) = e_x o ∧ e_y (f o) = e_y o ∧ e_active (f o) = e_active o
        ∧ e_id (f o) = e_id o ∧ e_type (f o) = e_type o) →
  goodMove (mkState (mutate f entity (store st)) (world st)) (f e) xy →
  movedWithinReach entity e st
    (let '(x, y) := xy in
     mkState (mutate (setPosition x y) entity (mutate f entity (store st))) (world st)).
Proof.
  intros He Hf Hgood. destruct xy as [x y]. destruct (Hf e) as (Hx & Hy & Ha & Hi & Ht).
  split; [done|]. split.
  { intros r Hne. simpl. by rewrite !mutate_lookup_ne. }
  exists (setPosition x y (f e)). simpl. rewrite !mutate_lookup, He. simpl.
  split; [done|]. split; [done|]. split; [done|]. split; [done|].
  destruct Hgood as [[= -> ->]|[Hstep Hcan]].
  - left. by rewrite Hx, Hy.
  - right. simpl in Hstep, Hcan. rewrite canMoveTo_components in Hcan by done.
    unfold withinOneStep in *. rewrite Hx, Hy in Hstep.
    split; [done|]. split; [done|]. by apply canMoveTo_freeCell.
Qed.

(** X24.  A turn of [processMonsterMovement] moves the monster by at
    most one step, and only to a cell that [canMoveTo] accepts in the
    state before the turn, which is a free cell: a passable cell of the
    map on which no active entity of the registry stands but the monster
    itself and corpses.  The monster keeps its id, its type and its
    active flag, and the world and every other object stay as they
    are. *)
Theorem monster_moves_one_step (wanderRoll dirRoll : Q) (entity : ref)
    (st : GameState) (e : Entity) :
  store st !! entity = Some e →
  movedWithinReach entity e st (processMonsterMovement wanderRoll dirRoll entity st).
Proof.
  intros He. pose proof (movedWithinReach_refl entity e st He) as Hrefl.
  unfold processMonsterMovement. rewrite He.
  destruct (ai (components e)) as [range|]; [|done].
  destruct (notice (components e)) as [n|] eqn:Hn; [|done].
  destruct (visibility (components e)) as [[|]|]; [|done|done]. simpl.
  destruct (player (world st) ≫= (λ p, store st !! p)) as [pl|]; [|done].
  set (q := distanceWithin e pl _ && hasLineOfSight e pl (world st)).
  set (f := update (set_notice (Some (updateNotice q n)))).
  assert (Hf : ∀ o, e_x (f o) = e_x o ∧ e_y (f o) = e_y o
                    ∧ e_active (f o) = e_active o
                    ∧ e_id (f o) = e_id o ∧ e_type (f o) = e_type o) by done.
  assert (Hstay : movedWithinReach entity e st
                    (mkState (mutate f entity (store st)) (world st))).
  { split; [done|]. split; [intros r Hne; simpl; by rewrite mutate_lookup_ne|].
    exists (f e). simpl. rewrite mutate_lookup, He.
    repeat split; try done. by left. }
  destruct (hasNoticed (updateNotice q n)).
  - destruct (_ <? _); [done|].
    apply (movedWithinReach_move entity e st f); [done|done|].
    eapply approach_goodMove, moveTowardsTarget_approach.
  - destruct (Qltb wanderRoll 0.05); [|done].
    apply (movedWithinReach_move entity e st f); [done|done|].
    apply randomMovement_goodMove.
Qed.

Lemma monster_moves_one_step_witness :
  movedWithinReach 1%nat (setPosition 9 5 (watchfulGoblin (mkNotice true 10 10 5)))
    corridorChase (processMonsterMovement 0.5 0.5 1%nat corridorChase).
Proof.
  exact (monster_moves_one_step 0.5 0.5 1%nat corridorChase
           (setPosition 9 5 (watchfulGoblin (mkNotice true 10 10 5))) eq_refl).
Defined.

(** The hostile goblin of the corridor takes one step towards the
    player. *)
Example goblin_charges_along_corridor :
  (λ e, (e_x e, e_y e)) <$>
    store (processMonsterMovement 0.5 0.5 1%nat corridorChase) !! 1%nat
  = Some (8, 5).
Proof. reflexivity. Qed.

(** X25.  A charging monster never backs away: the cell that
    [moveTowardsTarget] chooses is the cell of the entity itself, or a
    free cell within one step that [canMoveTo] accepts and from which
    [manhattanDistanceTo] the target is strictly smaller than before. *)
Theorem charge_never_retreats (st : GameState) (e target : Entity) :
  let '(x, y) := moveTowardsTarget st e target in
  (x, y) = (e_x e, e_y e)
  ∨ (withinOneStep e x y ∧ canMoveTo st e x y = true ∧ freeCell st e x y
     ∧ manhattanDistanceTo (setPosition x y e) target
       < manhattanDistanceTo e target).
Proof.
  pose proof (moveTowardsTarget_approach st e target) as H.
  destruct (moveTowardsTarget st e target) as [x y].
  destruct H as [H|(H1 & H2 & H3)]; [by left|right].
  split; [done|]. split; [done|]. split; [by apply canMoveTo_freeCell|].
  exact H3.
Qed.

(** X26.  The countdown to hostility.  On a turn of
    [processMonsterMovement] on which the monster is evaluated and the
    player is in range and in sight, the [notice] component of the
    monster makes one step of the countdown.  For a monster that has not
    noticed the player and whose timer is below its delay, after [k] such
    steps in a row the timer stands at [noticeTimer + k], capped at
    [noticeDelay], and the monster is hostile exactly when
    [noticeTimer + k] has reached [noticeDelay]; until then it is shown
    as Suspicious (from the first step on, for a timer that starts at 0
    or above). *)
Theorem notice_countdown (n : Notice) (k : nat) :
  hasNoticed n = false → noticeTimer n < noticeDelay n →
  noticeTimer (qualifyingTurns k n) = Z.min (noticeTimer n + Z.of_nat k) (noticeDelay n)
  ∧ hasNoticed (qualifyingTurns k n) = (noticeDelay n <=? noticeTimer n + Z.of_nat k)
  ∧ noticeDelay (qualifyingTurns k n) = noticeDelay n
  ∧ alertRange (qualifyingTurns k n) = alertRange n
  ∧ (noticeState (qualifyingTurns k n) = Hostile
     ↔ noticeDelay n ≤ noticeTimer n + Z.of_nat k)
  ∧ (0 ≤ noticeTimer n → (0 < k)%nat → noticeTimer n + Z.of_nat k < noticeDelay n →
     noticeState (qualifyingTurns k n) = Suspicious)
  ∧ (∀ wanderRoll dirRoll entity st,
       noticeInput entity st = Some (n, true) →
       noticeOf (store (processMonsterMovement wanderRoll dirRoll entity st)) entity
       = Some (qualifyingTurns 1 n)).
Proof.
  intros Hno Hlt.
  assert (Hmain :
    noticeTimer (qualifyingTurns k n) = Z.min (noticeTimer n + Z.of_nat k) (noticeDelay n)
    ∧ hasNoticed (qualifyingTurns k n) = (noticeDelay n <=? noticeTimer n + Z.of_nat k)
    ∧ noticeDelay (qualifyingTurns k n) = noticeDelay n
    ∧ alertRange (qualifyingTurns k n) = alertRange n).
  { induction k as [|k IH].
    - simpl. rewrite Z.add_0_r, Hno.
      split; [lia|]. split; [symmetry; apply Z.leb_gt; lia|done].
    - destruct IH as (Ht & Hh & Hd & Hr).
      cbn [qualifyingTurns].
      set (m := qualifyingTurns k n) in *. clearbody m.
      unfold updateNotice. simpl.
      destruct (hasNoticed m) eqn:Em; simpl.
      + symmetry in Hh. apply Z.leb_le in Hh. rewrite Ht, Em, Hd, Hr.
        split; [lia|]. split; [symmetry; apply Z.leb_le; lia|done].
      + symmetry in Hh. apply Z.leb_gt in Hh.
        destruct (noticeDelay m <=? noticeTimer m + 1) eqn:E'; simpl;
          rewrite ?Em, Ht, Hd, Hr; rewrite Ht, Hd in E';
          [apply Z.leb_le in E'|apply Z.leb_gt in E'].
        * split; [lia|]. split; [symmetry; apply Z.leb_le; lia|done].
        * split; [lia|]. split; [symmetry; apply Z.leb_gt; lia|done]. }
  destruct Hmain as (Ht & Hh & Hd & Hr).
  split; [done|]. split; [done|]. split; [done|]. split; [done|].
  unfold noticeState. rewrite Hh, Ht. split; [|split].
  - destruct (noticeDelay n <=? noticeTimer n + Z.of_nat k) eqn:E.
    + apply Z.leb_le in E. done.
    + apply Z.leb_gt in E. split; [|lia]. by destruct (0 <? _).
  - intros H0 Hk Hbelow.
    replace (noticeDelay n <=? noticeTimer n + Z.of_nat k) with false
      by (symmetry; apply Z.leb_gt; lia).
    replace (0 <? Z.min (noticeTimer n + Z.of_nat k) (noticeDelay n)) with true
      by (symmetry; apply Z.ltb_lt; lia).
    done.
  - intros wanderRoll dirRoll entity st Hin.
    by rewrite processMonsterMovement_notice, Hin.
Qed.

Lemma notice_countdown_witness :
  noticeTimer (qualifyingTurns 10 (mkNotice false 0 10 5))
  = Z.min (noticeTimer (mkNotice false 0 10 5) + Z.of_nat 10)
          (noticeDelay (mkNotice false 0 10 5))
  ∧ hasNoticed (qualifyingTurns 10 (mkNotice false 0 10 5))
    = (noticeDelay (mkNotice false 0 10 5)
       <=? noticeTimer (mkNotice false 0 10 5) + Z.of_nat 10)
  ∧ noticeDelay (qualifyingTurns 10 (mkNotice false 0 10 5))
    = noticeDelay (mkNotice false 0 10 5)
  ∧ alertRange (qualifyingTurns 10 (mkNotice false 0 10 5))
    = alertRange (mkNotice false 0 10 5)
  ∧ (noticeState (qualifyingTurns 10 (mkNotice false 0 10 5)) = Hostile
     ↔ noticeDelay (mkNotice false 0 10 5)
       ≤ noticeTimer (mkNotice false 0 10 5) + Z.of_nat 10)
  ∧ (0 ≤ noticeTimer (mkNotice false 0 10 5) → (0 < 10)%nat →
     noticeTimer (mkNotice false 0 10 5) + Z.of_nat 10
     < noticeDelay (mkNotice false 0 10 5) →
     noticeState (qualifyingTurns 10 (mkNotice false 0 10 5)) = Suspicious)
  ∧ (∀ wanderRoll dirRoll entity st,
       noticeInput entity st = Some (mkNotice false 0 10 5, true) →
       noticeOf (store (processMonsterMovement wanderRoll dirRoll entity st)) entity
       = Some (qualifyingTurns 1 (mkNotice false 0 10 5))).
Proof.
  apply (notice_countdown (mkNotice false 0 10 5) 10 eq_refl). simpl. lia.
Defined.

(** X27.  Neighbours always see each other: for two entities in the
    same cell or in cells that touch, sideways or diagonally,
    [hasLineOfSight] holds in every world, whatever the tiles are; the
    cells of the two entities themselves are never tested. *)
Theorem neighbours_in_sight (from to : Entity) (w : World) :
  Z.abs (e_x to - e_x from) ≤ 1 → Z.abs (e_y to - e_y from) ≤ 1 →
  hasLineOfSight from to w = true.
Proof.
  intros Hx Hy. unfold hasLineOfSight.
  destruct ((e_x to - e_x from =? 0) && (e_y to - e_y from =? 0)); [done|].
  rewrite seqZ_nil; [done|lia].
Qed.

Lemma neighbours_in_sight_witness :
  Z.abs (e_x theGoblin - e_x (thePlayer playerEquipment)) ≤ 1
  ∧ Z.abs (e_y theGoblin - e_y (thePlayer playerEquipment)) ≤ 1
  ∧ hasLineOfSight (thePlayer playerEquipment) theGoblin emptyWorld = true.
Proof.
  split; [by vm_compute|]. split; [by vm_compute|].
  apply (neighbours_in_sight (thePlayer playerEquipment) theGoblin emptyWorld);
    by vm_compute.
Defined.

(** X28.  A monster out of view is idle: once [updateMonsterVisibility]
    has found an active monster outside the field of view of the player,
    neither [processMonsterMovement] nor [processMonsterCombat] changes
    anything on its turn, whatever the draws are: it does not move, its
    notice state does not change and it does not attack. *)
Theorem unseen_monster_is_idle (g : Game) (now : Z) (rolls : Rolls)
    (wanderRoll dirRoll : Q) (entity : ref) (st : GameState) (e : Entity) :
  store st !! entity = Some e → e_active e = true →
  is_Some (visibility (components e)) →
  let st' := mkState (mutate (updateVisibility false) entity (store st)) (world st) in
  processMonsterMovement wanderRoll dirRoll entity st' = st'
  ∧ processMonsterCombat g now rolls entity st' = st'.
Proof.
  intros He Ha [v Hv] st'.
  assert (He' : store st' !! entity = Some (updateVisibility false e)).
  { unfold st'. simpl. by rewrite mutate_lookup, He. }
  assert (Hvis : visibility (components (updateVisibility false e)) = Some false).
  { unfold updateVisibility. rewrite Ha, Hv. simpl.
    destruct (v && true); [|done]. by destruct (notice _). }
  unfold processMonsterMovement, processMonsterCombat. rewrite He', Hvis.
  split; [|done].
  destruct (ai _); [|done]. by destruct (notice _).
Qed.

Lemma unseen_monster_is_idle_witness :
  let st' := mkState (mutate (updateVisibility false) 1%nat
                        (store (nearArena (mkNotice true 10 10 5))))
                     (world (nearArena (mkNotice true 10 10 5))) in
  processMonsterMovement 0 0 1%nat st' = st'
  ∧ processMonsterCombat theGame 10000 hitRolls 1%nat st' = st'.
Proof.
  refine (unseen_monster_is_idle theGame 10000 hitRolls 0 0 1%nat
            (nearArena (mkNotice true 10 10 5))
            (setPosition 7 5 (watchfulGoblin (mkNotice true 10 10 5)))
            eq_refl eq_refl _).
  by eexists.
Defined.


(** ** The inventory *)

Lemma place_spec (items : InventorySystem.Items) (it : Item) :
  match InventorySystem.place items it with
  | (true, items') =>
      ∃ i, items !! i = Some None
           ∧ (∀ j, (j < i)%nat → ∃ x, items !! j = Some (Some x))
           ∧ items' = <[i := Some it]> items
  | (false, items') =>
      items' = items ∧ ∀ j slot, items !! j = Some slot → ∃ x, slot = Some x
  end.
Proof.
  induction items as [|[x|] rest IH]; simpl.
  - split; [done|]. intros j slot Hj. by rewrite lookup_nil in Hj.
  - destruct (InventorySystem.place rest it) as [[|] rest'].
    + destruct IH as (i & Hi & Hbefore & ->). exists (S i). split; [done|].
      split; [|done]. intros [|j] Hj; [by eexists|]. apply Hbefore. lia.
    + destruct IH as [-> Hall]. split; [done|].
      intros [|j] slot Hj; [simpl in Hj; simplify_eq; by eexists|].
      by eapply Hall.
  - exists 0%nat. split; [done|]. split; [|done]. intros j Hj. lia.
Qed.

Lemma emptySlots_insert (items : InventorySystem.Items) (i : nat) (it : Item) :
  items !! i = Some None →
  (InventorySystem.getEmptySlots (Some (<[i := Some it]> items)) + 1)%nat
  = InventorySystem.getEmptySlots (Some items).
Proof.
  revert i. induction items as [|slot rest IH]; intros i Hi; [done|].
  destruct i as [|i]; simpl in Hi |- *.
  - injection Hi as ->. simpl. lia.
  - specialize (IH i Hi). simpl in IH. destruct slot; simpl; lia.
Qed.

Lemma insert_None_back (items : InventorySystem.Items) (i : nat) (it : Item) :
  items !! i = Some None → <[i := None]> (<[i := Some it]> items) = items.
Proof.
  intros Hi. rewrite list_insert_insert_eq. by apply list_insert_id.
Qed.

(** X29.  [addItem] puts the item into the first free slot: it succeeds
    exactly when the inventory is not full ([isInventoryFull]), a call
    that fails changes nothing, and a call that succeeds fills the first
    slot that held [null], leaves every other slot as it was, lowers
    [getEmptySlots] by one, and is undone by [removeItem] on that slot,
    which gives back the item and the inventory as it was. *)
Theorem addItem_fills_first_free (inventory : option InventorySystem.Items) (it : Item) :
  (InventorySystem.addItem inventory it).1
  = negb (InventorySystem.isInventoryFull inventory)
  ∧ ((InventorySystem.addItem inventory it).1 = false →
     (InventorySystem.addItem inventory it).2 = inventory)
  ∧ ((InventorySystem.addItem inventory it).1 = true →
     ∃ items i,
       inventory = Some items ∧ items !! i = Some None
       ∧ (∀ j, (j < i)%nat → ∃ x, items !! j = Some (Some x))
       ∧ (InventorySystem.addItem inventory it).2 = Some (<[i := Some it]> items)
       ∧ (InventorySystem.getEmptySlots (InventorySystem.addItem inventory it).2 + 1)%nat
         = InventorySystem.getEmptySlots inventory
       ∧ InventorySystem.removeItem (InventorySystem.addItem inventory it).2 (Z.of_nat i)
         = (Some it, inventory)).
Proof.
  destruct inventory as [items|]; [|done]. unfold InventorySystem.addItem.
  pose proof (place_spec items it) as Hplace.
  destruct (InventorySystem.place items it) as [[|] items']; simpl.
  - destruct Hplace as (i & Hi & Hbefore & ->). split; [|split; [done|]].
    + symmetry. apply negb_true_iff, not_true_iff_false. intros Hfull.
      rewrite forallb_forall in Hfull.
      specialize (Hfull None). simpl in Hfull.
      assert (false = true); [|done]. apply Hfull.
      apply list_elem_of_In. by eapply list_elem_of_lookup_2.
    + intros _. exists items, i. split; [done|]. split; [done|]. split; [done|].
      split; [done|]. split; [by apply emptySlots_insert|].
      unfold InventorySystem.removeItem. rewrite length_insert.
      pose proof (lookup_lt_Some _ _ _ Hi) as Hlt.
      replace (Z.of_nat i <? 0) with false by (symmetry; apply Z.ltb_ge; lia).
      replace (Z.of_nat (length items) <=? Z.of_nat i) with false
        by (symmetry; apply Z.leb_gt; lia).
      simpl. rewrite Nat2Z.id, list_lookup_insert_eq by done. simpl.
      by rewrite insert_None_back.
  - destruct Hplace as [-> Hall]. split; [|split; [done|done]].
    symmetry. apply negb_false_iff, forallb_forall.
    intros slot [j Hj]%list_elem_of_In%list_elem_of_lookup.
    by destruct (Hall j slot Hj) as [x ->].
Qed.

(** The player picks up a sword and a shield. *)
Example two_items_picked_up :
  let pack1 := InventorySystem.addItem (Some InventorySystem.emptyItems) rustySword in
  let pack2 := InventorySystem.addItem pack1.2 woodenShield in
  pack2.2 = Some ([Some rustySword; Some woodenShield] ++ replicate 6 None)
  ∧ InventorySystem.getEmptySlots pack2.2 = 6%nat
  ∧ InventorySystem.removeItem pack2.2 0
    = (Some rustySword, Some ([None; Some woodenShield] ++ replicate 6 None)).
Proof. done. Qed.

(** X30.  [removeItem] empties one slot and nothing else: out of range
    (or without an inventory) it returns [null] and changes nothing; in
    range it returns what the slot held, leaves the slot empty and every
    other slot as it was, so that the number of slots stays and
    [getEmptySlots] grows by one exactly when the slot held an item. *)
Theorem removeItem_empties_one_slot (items : InventorySystem.Items) (slotIndex : Z) :
  (slotIndex < 0 ∨ Z.of_nat (length items) ≤ slotIndex →
   InventorySystem.removeItem (Some items) slotIndex = (None, Some items))
  ∧ InventorySystem.removeItem None slotIndex = (None, None)
  ∧ (0 ≤ slotIndex < Z.of_nat (length items) →
     ∃ slot items',
       items !! Z.to_nat slotIndex = Some slot
       ∧ InventorySystem.removeItem (Some items) slotIndex = (slot, Some items')
       ∧ length items' = length items
       ∧ items' !! Z.to_nat slotIndex = Some None
       ∧ (∀ j, j ≠ Z.to_nat slotIndex → items' !! j = items !! j)
       ∧ InventorySystem.getEmptySlots (Some items')
         = (InventorySystem.getEmptySlots (Some items)
            + if slot is Some _ then 1 else 0)%nat).
Proof.
  split; [|split; [done|]].
  - intros Hout. unfold InventorySystem.removeItem.
    destruct (slotIndex <? 0) eqn:E1; [done|]. apply Z.ltb_ge in E1.
    replace (Z.of_nat (length items) <=? slotIndex) with true
      by (symmetry; apply Z.leb_le; lia). done.
  - intros Hin. unfold InventorySystem.removeItem.
    replace (slotIndex <? 0) with false by (symmetry; apply Z.ltb_ge; lia).
    replace (Z.of_nat (length items) <=? slotIndex) with false
      by (symmetry; apply Z.leb_gt; lia).
    simpl. set (i := Z.to_nat slotIndex).
    destruct (lookup_lt_is_Some_2 items i) as [slot Hslot]; [unfold i; lia|].
    exists slot, (<[i := None]> items). rewrite Hslot. simpl.
    split; [done|]. split; [done|]. split; [apply length_insert|].
    split; [apply list_lookup_insert_eq; by eapply lookup_lt_Some|].
    split; [intros j Hj; by apply list_lookup_insert_ne|].
    clearbody i. clear Hin. revert i Hslot. induction items as [|s rest IH]; intros i Hi; [done|].
    destruct i as [|i]; simpl in Hi |- *.
    + injection Hi as ->. destruct slot; simpl; lia.
    + specialize (IH i Hi). simpl in IH. destruct s; simpl; lia.
Qed.

(** [isInventoryFull] and [getEmptySlots] agree: the inventory is
    reported full exactly when no slot is counted as empty, and an entity
    without an inventory counts as full, with no empty slot. *)
Lemma full_means_no_empty_slot (inventory : option InventorySystem.Items) :
  InventorySystem.isInventoryFull inventory = true
  ↔ InventorySystem.getEmptySlots inventory = 0%nat.
Proof.
  destruct inventory as [items|]; [|done]. simpl.
  induction items as [|[x|] rest IH]; simpl; [done|done|].
  split; [done|lia].
Qed.
